(** * Verification of the counterfeiter fake generator (generator/generator.go)

    A shallow embedding of the generation engine: the import registry
    (AddImport, unvendor, sortImports, aliasMap, hasDuplicateAliases,
    disambiguateAliases, importsMap), the type renderer (typeFor), the import
    discovery (addImportsFor), the method descriptor builder and the template
    of Generate, followed by the theorems about them.

    Go strings are byte sequences: they are modelled by [string], whose
    characters are bytes.  Go maps are modelled by stdpp's [gmap]. *)

From Stdlib Require Import String Ascii ZArith List Lia DecimalString Permutation Sorted.
From stdpp Require Import gmap strings list fin_maps.

Local Open Scope string_scope.
Local Open Scope list_scope.
Local Open Scope nat_scope.

(** ** Outcomes of Go code that may panic or loop *)

Inductive outcome (A : Type) : Type :=
  | Returned (a : A)
  | Panic (msg : string)
  | OutOfFuel.
Arguments Returned {A} a.
Arguments Panic {A} msg.
Arguments OutOfFuel {A}.

Definition obind {A B : Type} (m : outcome A) (k : A -> outcome B) : outcome B :=
  match m with
  | Returned a => k a
  | Panic msg => Panic msg
  | OutOfFuel => OutOfFuel
  end.

Notation "x <-! m ;; k" := (obind m (fun x => k))
  (at level 100, m at next level, right associativity).

(** ** Byte strings: the operations of package strings that the code uses *)

Definition byte (n : nat) : ascii := ascii_of_nat n.

Fixpoint bytes (l : list nat) : string :=
  match l with
  | [] => EmptyString
  | n :: l' => String (byte n) (bytes l')
  end.

(** [s[n:]] for [n <= len(s)]. *)
Fixpoint sliceFrom (s : string) (n : nat) : string :=
  match n, s with
  | O, _ => s
  | S n', String _ rest => sliceFrom rest n'
  | S _, EmptyString => EmptyString
  end.

(** strings.HasPrefix(s, prefix) *)
Definition HasPrefix (s pre : string) : bool := String.prefix pre s.

Fixpoint lastIndexFrom (sep s : string) (i found : Z) : Z :=
  let found' := if String.prefix sep s then i else found in
  match s with
  | EmptyString => found'
  | String _ rest => lastIndexFrom sep rest (i + 1) found'
  end.

(** strings.LastIndex(s, sep): the index of the last occurrence, or -1. *)
Definition LastIndex (s sep : string) : Z := lastIndexFrom sep s 0 (-1).

Fixpoint stringRev (s acc : string) : string :=
  match s with
  | EmptyString => acc
  | String c rest => stringRev rest (String c acc)
  end.

(** The UTF-8 encodings of the code points for which unicode.IsSpace holds:
    U+0009..U+000D, U+0020, U+0085, U+00A0, U+1680, U+2000..U+200A, U+2028,
    U+2029, U+202F, U+205F, U+3000. *)
Definition spaceEncodings : list (list nat) :=
  [ [9]; [10]; [11]; [12]; [13]; [32];
    [194; 133]; [194; 160];
    [225; 154; 128];
    [226; 128; 128]; [226; 128; 129]; [226; 128; 130]; [226; 128; 131];
    [226; 128; 132]; [226; 128; 133]; [226; 128; 134]; [226; 128; 135];
    [226; 128; 136]; [226; 128; 137]; [226; 128; 138];
    [226; 128; 168]; [226; 128; 169]; [226; 128; 175];
    [226; 129; 159];
    [227; 128; 128] ].

Fixpoint stripOne (table : list string) (s : string) : option string :=
  match table with
  | [] => None
  | p :: table' =>
      if String.prefix p s then Some (sliceFrom s (String.length p))
      else stripOne table' s
  end.

Fixpoint stripAll (table : list string) (fuel : nat) (s : string) : string :=
  match fuel with
  | O => s
  | S fuel' =>
      match stripOne table s with
      | Some s' => stripAll table fuel' s'
      | None => s
      end
  end.

Definition trimLeftSpace (s : string) : string :=
  stripAll (map bytes spaceEncodings) (String.length s) s.

Definition trimRightSpace (s : string) : string :=
  let r := stringRev s EmptyString in
  stringRev
    (stripAll (map (fun e => bytes (rev e)) spaceEncodings) (String.length r) r)
    EmptyString.

(** strings.TrimSpace(s): leading and trailing white space removed. *)
Definition TrimSpace (s : string) : string := trimRightSpace (trimLeftSpace s).

(** fmt.Sprintf("%v", n) for an int. *)
Definition formatInt (n : Z) : string := NilZero.string_of_int (Z.to_int n).

(** ** The import registry *)

Record Import : Type := { Alias : string; Path : string }.

#[global] Instance Import_eq_dec : EqDecision Import.
Proof. solve_decision. Defined.

(** The zero value of Import, which a map lookup of a missing key yields. *)
Definition zeroImport : Import := {| Alias := EmptyString; Path := EmptyString |}.

Definition unvendor (s : string) : string :=
  let i := LastIndex s "/vendor/" in
  if (0 <=? i)%Z
  then sliceFrom s (Z.to_nat (i + Z.of_nat (String.length "/vendor/")))
  else if HasPrefix s "vendor/"
       then sliceFrom s (String.length "vendor/")
       else s.

(** The search loop of AddImport: the first entry with the given path. *)
Fixpoint findPath (path : string) (imports : list Import) : option Import :=
  match imports with
  | [] => None
  | imp :: rest =>
      if String.eqb (Path imp) path then Some imp else findPath path rest
  end.

(** AddImport on the import list: the new list and the returned Import. *)
Definition addImport (alias path : string) (imports : list Import)
  : list Import * Import :=
  let path := unvendor (TrimSpace path) in
  let alias := TrimSpace alias in
  match findPath path imports with
  | Some imp => (imports, imp)
  | None =>
      let result := {| Alias := alias; Path := path |} in
      (imports ++ [result], result)
  end.

(** sort.SliceStable with less(i, j) := Imports[i].Path < Imports[j].Path.
    A stable sort is determined by its input and the order; it is written
    here as a stable insertion sort: an entry is put before the first entry
    whose path is not smaller, so entries of equal path keep their order. *)
Fixpoint insertByPath (x : Import) (l : list Import) : list Import :=
  match l with
  | [] => [x]
  | y :: l' =>
      if String.ltb (Path y) (Path x) then y :: insertByPath x l' else x :: l
  end.

Definition sortByPath (l : list Import) : list Import :=
  foldr insertByPath [] l.

(** aliasMap: result[alias] = append(result[alias], import), in list order. *)
Definition aliasMapOf (imports : list Import) : gmap string (list Import) :=
  foldl (fun result imp =>
           <[Alias imp := default [] (result !! Alias imp) ++ [imp]]> result)
        ∅ imports.

(** The body of the range loop of hasDuplicateAliases, on the entries in the
    order in which the map is traversed. *)
Fixpoint anyLongGroup (entries : list (string * list Import)) : bool :=
  match entries with
  | [] => false
  | (_, imports) :: rest =>
      if 1 <? length imports then true else anyLongGroup rest
  end.

(** 'a' + byte(j-1), computed in type byte, for the Go int [j]. *)
Definition suffixByte (j : Z) : Z := ((97 + ((j - 1) mod 256)) mod 256)%Z.

(** string(b) for a byte [b]: the UTF-8 encoding of the code point [b]. *)
Definition runeString (b : Z) : string :=
  if (b <? 128)%Z then bytes [Z.to_nat b]
  else bytes [Z.to_nat (192 + b / 64); Z.to_nat (128 + b mod 64)].

(** The loop over [j] of disambiguateAliases for the entry with path [path]:
    the state is the entry's alias and the fake's InterfaceAlias. *)
Fixpoint suffixLoop (path interfacePackage : string) (imports : list Import)
    (j : Z) (st : string * string) : string * string :=
  match imports with
  | [] => st
  | imp :: rest =>
      let st' :=
        if String.eqb (Path imp) path && (0 <? j)%Z
        then
          let alias := fst st +:+ runeString (suffixByte j) in
          (alias,
           if String.eqb path interfacePackage then alias else snd st)
        else st in
      suffixLoop path interfacePackage rest (j + 1) st'
  end.

(** The loop over [i] of disambiguateAliases.  Iteration [i] reads and writes
    entry [i] only, and [byAlias] was computed before the loop, so the loop is
    a traversal of the list that threads InterfaceAlias. *)
Fixpoint aliasLoop (byAlias : gmap string (list Import))
    (interfacePackage : string) (todo : list Import) (interfaceAlias : string)
  : list Import * string :=
  match todo with
  | [] => ([], interfaceAlias)
  | imp :: rest =>
      let imports := default [] (byAlias !! Alias imp) in
      let st :=
        if length imports =? 1 then (Alias imp, interfaceAlias)
        else suffixLoop (Path imp) interfacePackage imports 0
                        (Alias imp, interfaceAlias) in
      let r := aliasLoop byAlias interfacePackage rest (snd st) in
      ({| Alias := fst st; Path := Path imp |} :: fst r, snd r)
  end.

(** ** The type descriptors of go/types and the packages of go/packages *)

Module types.

Inductive ChanDir : Type := SendRecv | SendOnly | RecvOnly.

(** types.Package, as far as the generator reads it: Name() and Path(). *)
Record Package : Type := { Name : string; Path : string }.

(** types.TypeName of a named type: Name() and Pkg(), which may be nil. *)
Record Object : Type := { ObjName : string; Pkg : option Package }.

(** types.Type.  [Nil] is the nil interface value.  Struct, Tuple,
    Signature and Interface are the shapes for which typeFor and
    addImportsFor have no case; their contents are never read. *)
Inductive Type_ : Type :=
  | Nil
  | Basic (name : string)
  | Array (len : Z) (elem : Type_)
  | Slice (elem : Type_)
  | Struct
  | Pointer (elem : Type_)
  | Tuple
  | Signature
  | Interface
  | Map (key elem : Type_)
  | Chan (dir : ChanDir) (elem : Type_)
  | Named (obj : option Object).

(** types.Var: a parameter or result, with its source name. *)
Record Var : Type := { VarName : string; VarType : Type_ }.

(** types.Signature of a method. *)
Record Sig : Type :=
  { Params : list Var; Results : list Var; Variadic : bool }.

(** One entry of typeutil.IntuitiveMethodSet: the method's types.Func name
    and signature. *)
Record Selection : Type := { FuncName : string; Type' : Sig }.

(** The types.TypeName found by the interface locator: its Name() and the
    method set that typeutil.IntuitiveMethodSet returns for its Type(), in
    the resolver's order. *)
Record TypeName : Type :=
  { TypeNameName : string; IntuitiveMethodSet : list Selection }.

(** What Scope().Lookup returns when it is not nil. *)
Inductive ScopeObject : Type :=
  | IsTypeName (t : TypeName)
  | OtherObject.

End types.

Module packages.

(** packages.Package: [Types] is nil, or a types.Package whose Scope() is
    nil or maps the names declared at top level to their objects. *)
Record Package : Type :=
  { Name : string;
    PkgPath : string;
    Types : option (option (gmap string types.ScopeObject)) }.

End packages.

(** ** The model that the template consumes *)

Record Param : Type :=
  { ParamName : string; ParamType : string; IsVariadic : bool; IsSlice : bool }.

Record Return : Type := { ReturnName : string; ReturnType : string }.

Record Method : Type :=
  { FakeName : string;
    MethodName : string;
    Params : list Param;
    Args : string;
    Returns : list Return;
    Rets : string }.

Record Fake : Type :=
  { Packages : list packages.Package;
    Package : option packages.Package;
    Interface : option types.TypeName;
    DestinationPackage : string;
    Name : string;
    InterfaceAlias : string;
    InterfaceName : string;
    InterfacePackage : string;
    Imports : list Import;
    Methods : list Method }.

Definition setImports (f : Fake) (imports : list Import) : Fake :=
  {| Packages := Packages f; Package := Package f; Interface := Interface f;
     DestinationPackage := DestinationPackage f; Name := Name f;
     InterfaceAlias := InterfaceAlias f; InterfaceName := InterfaceName f;
     InterfacePackage := InterfacePackage f; Imports := imports;
     Methods := Methods f |}.

Definition setInterfaceAlias (f : Fake) (alias : string) : Fake :=
  {| Packages := Packages f; Package := Package f; Interface := Interface f;
     DestinationPackage := DestinationPackage f; Name := Name f;
     InterfaceAlias := alias; InterfaceName := InterfaceName f;
     InterfacePackage := InterfacePackage f; Imports := Imports f;
     Methods := Methods f |}.

Definition setMethods (f : Fake) (methods : list Method) : Fake :=
  {| Packages := Packages f; Package := Package f; Interface := Interface f;
     DestinationPackage := DestinationPackage f; Name := Name f;
     InterfaceAlias := InterfaceAlias f; InterfaceName := InterfaceName f;
     InterfacePackage := InterfacePackage f; Imports := Imports f;
     Methods := methods |}.

(** AddImport: the fake after the call and the returned Import. *)
Definition AddImport (alias path : string) (f : Fake) : Fake * Import :=
  let r := addImport alias path (Imports f) in
  (setImports f (fst r), snd r).

Definition sortImports (f : Fake) : Fake := setImports f (sortByPath (Imports f)).

Definition aliasMap (f : Fake) : gmap string (list Import) :=
  aliasMapOf (Imports f).

(** One round of the [for] loop of disambiguateAliases after its exit test:
    the loop over [i] with the alias map computed at the top of the round. *)
Definition realias (f : Fake) : Fake :=
  let byAlias := aliasMap f in
  let r := aliasLoop byAlias (InterfacePackage f) (Imports f) (InterfaceAlias f) in
  setInterfaceAlias (setImports f (fst r)) (snd r).

(** The order in which a [range] statement visits the entries of a map is
    not specified by Go.  A [MapOrder] is one choice of that order: whatever
    the entries are, the loop visits each of them once. *)
Record MapOrder : Type :=
  { visit :> list (string * list Import) -> list (string * list Import);
    visit_perm : forall entries, Permutation (visit entries) entries }.

Definition inOrder : MapOrder :=
  {| visit := fun entries => entries;
     visit_perm := fun entries => Permutation_refl entries |}.

Definition reversed : MapOrder :=
  {| visit := fun entries => rev entries;
     visit_perm := fun entries => Permutation_sym (Permutation_rev entries) |}.

Definition hasDuplicateAliases (rangeOrder : MapOrder) (f : Fake) : bool :=
  anyLongGroup (rangeOrder (map_to_list (aliasMap f))).

(** The [for] loop of disambiguateAliases; [fuel] bounds the rounds. *)
Fixpoint disambiguateLoop (rangeOrder : MapOrder) (fuel : nat) (f : Fake)
  : outcome Fake :=
  match fuel with
  | O => OutOfFuel
  | S fuel' =>
      if negb (hasDuplicateAliases rangeOrder f) then Returned f
      else disambiguateLoop rangeOrder fuel' (realias f)
  end.

Definition disambiguateAliases (rangeOrder : MapOrder) (fuel : nat) (f : Fake)
  : outcome Fake :=
  let f := sortImports f in
  if negb (hasDuplicateAliases rangeOrder f) then Returned f
  else disambiguateLoop rangeOrder fuel f.

(** The loop of importsMap after the disambiguation. *)
Definition importsMapOf (imports : list Import) : gmap string Import :=
  foldl (fun result imp => <[Path imp := imp]> result) ∅ imports.

Definition importsMap (rangeOrder : MapOrder) (fuel : nat) (f : Fake)
  : outcome (Fake * gmap string Import) :=
  f' <-! disambiguateAliases rangeOrder fuel f ;;
  Returned (f', importsMapOf (Imports f')).

(** ** The type renderer and the import discovery *)

Fixpoint typeFor (typ : types.Type_) (importsMap : gmap string Import) : string :=
  match typ with
  | types.Nil => EmptyString
  | types.Slice elem => "[]" +:+ typeFor elem importsMap
  | types.Array len elem =>
      "[" +:+ formatInt len +:+ "]" +:+ typeFor elem importsMap
  | types.Pointer elem => "*" +:+ typeFor elem importsMap
  | types.Map key elem =>
      "map[" +:+ typeFor key importsMap +:+ "]" +:+ typeFor elem importsMap
  | types.Chan dir elem =>
      match dir with
      | types.SendRecv => "chan " +:+ typeFor elem importsMap
      | types.SendOnly => "chan<- " +:+ typeFor elem importsMap
      | types.RecvOnly => "<-chan " +:+ typeFor elem importsMap
      end
  | types.Basic name => name
  | types.Named obj =>
      match obj with
      | None => EmptyString
      | Some o =>
          match types.Pkg o with
          | None => types.ObjName o
          | Some pkg =>
              let imp :=
                default zeroImport (importsMap !! unvendor (types.Path pkg)) in
              if String.eqb (Path imp) EmptyString then types.ObjName o
              else Alias imp +:+ "." +:+ types.ObjName o
          end
      end
  | types.Struct | types.Tuple | types.Signature | types.Interface => EmptyString
  end.

Fixpoint addImportsFor (typ : types.Type_) (f : Fake) : Fake :=
  match typ with
  | types.Nil => f
  | types.Basic _ => f
  | types.Pointer elem => addImportsFor elem f
  | types.Map key elem => addImportsFor elem (addImportsFor key f)
  | types.Chan _ elem => addImportsFor elem f
  | types.Named obj =>
      match obj with
      | Some o =>
          match types.Pkg o with
          | Some pkg => fst (AddImport (types.Name pkg) (types.Path pkg) f)
          | None => f
          end
      | None => f
      end
  | types.Slice elem => addImportsFor elem f
  | types.Array _ elem => addImportsFor elem f
  | types.Struct | types.Tuple | types.Signature | types.Interface => f
  end.

(** ** The method descriptor builder of Generate *)

(** The first pair of loops of Generate, for one method: the results, then
    the parameters. *)
Definition addImportsForVars (vars : list types.Var) (f : Fake) : Fake :=
  foldl (fun f v => addImportsFor (types.VarType v) f) f vars.

Definition addImportsForMethods (methods : list types.Selection) (f : Fake) : Fake :=
  foldl (fun f m =>
           let sig := types.Type' m in
           addImportsForVars (types.Params sig)
             (addImportsForVars (types.Results sig) f))
        f methods.

(** The body of the loop over the parameters, for parameter [i]. *)
Definition buildParam (importsMap : gmap string Import) (sig : types.Sig)
    (i : nat) (param : types.Var) : outcome Param :=
  let isVariadic :=
    (Z.of_nat i =? Z.of_nat (length (types.Params sig)) - 1)%Z
    && types.Variadic sig in
  let typ := typeFor (types.VarType param) importsMap in
  typ <-! (if isVariadic
           then if String.length typ <? 2
                then Panic "slice bounds out of range"
                else Returned ("..." +:+ sliceFrom typ 2)
           else Returned typ) ;;
  Returned {| ParamName := "arg" +:+ formatInt (Z.of_nat i + 1);
              ParamType := typ;
              IsVariadic := isVariadic;
              IsSlice := HasPrefix typ "[]" |}.

Fixpoint buildParams (importsMap : gmap string Import) (sig : types.Sig)
    (i : nat) (todo : list types.Var) (params : list Param)
  : outcome (list Param) :=
  match todo with
  | [] => Returned params
  | param :: rest =>
      p <-! buildParam importsMap sig i param ;;
      buildParams importsMap sig (S i) rest (params ++ [p])
  end.

Definition buildReturn (importsMap : gmap string Import) (i : nat)
    (ret : types.Var) : Return :=
  {| ReturnName := "result" +:+ formatInt (Z.of_nat i + 1);
     ReturnType := typeFor (types.VarType ret) importsMap |}.

Fixpoint buildReturns (importsMap : gmap string Import) (i : nat)
    (todo : list types.Var) (returns : list Return) : list Return :=
  match todo with
  | [] => returns
  | ret :: rest =>
      buildReturns importsMap (S i) rest (returns ++ [buildReturn importsMap i ret])
  end.

Definition buildMethod (importsMap : gmap string Import) (fakeName : string)
    (m : types.Selection) : outcome Method :=
  let sig := types.Type' m in
  params <-! buildParams importsMap sig 0 (types.Params sig) [] ;;
  let returns := buildReturns importsMap 0 (types.Results sig) [] in
  Returned {| FakeName := fakeName;
              MethodName := types.FuncName m;
              Params := params;
              Args := EmptyString;
              Returns := returns;
              Rets := EmptyString |}.

(** The second loop of Generate: f.Methods = append(f.Methods, method). *)
Fixpoint buildMethods (importsMap : gmap string Import)
    (todo : list types.Selection) (f : Fake) : outcome Fake :=
  match todo with
  | [] => Returned f
  | m :: rest =>
      method <-! buildMethod importsMap (Name f) m ;;
      buildMethods importsMap rest (setMethods f (Methods f ++ [method]))
  end.

(** ** The functions that the template calls *)

(** strings.Replace(s, old, new, n) for a non-empty [old]: the first [n]
    occurrences from the left, without overlap; all of them when [n < 0]. *)
Fixpoint replaceFrom (fuel : nat) (s old new : string) (n : Z) : string :=
  match fuel with
  | O => s
  | S fuel' =>
      if (n =? 0)%Z then s
      else if String.prefix old s
           then new +:+ replaceFrom fuel' (sliceFrom s (String.length old)) old new (n - 1)
           else match s with
                | EmptyString => EmptyString
                | String c rest => String c (replaceFrom fuel' rest old new n)
                end
  end.

Definition Replace (s old new : string) (n : Z) : string :=
  replaceFrom (S (String.length s)) s old new n.

(** The escaper that html/template appends to every action in HTML text
    context: the replacement table of its htmlReplacer. *)
Definition htmlEscapeByte (c : ascii) : string :=
  let n := nat_of_ascii c in
  if n =? 0 then bytes [239; 191; 189]
  else if n =? 34 then "&#34;"
  else if n =? 38 then "&amp;"
  else if n =? 39 then "&#39;"
  else if n =? 43 then "&#43;"
  else if n =? 60 then "&lt;"
  else if n =? 62 then "&gt;"
  else String c EmptyString.

Fixpoint htmlEscape (s : string) : string :=
  match s with
  | EmptyString => EmptyString
  | String c rest => htmlEscapeByte c +:+ htmlEscape rest
  end.

Definition nl : string := bytes [10].
Definition tab : string := bytes [9].

(** strings.Join(elems, sep) *)
Definition Join (elems : list string) (sep : string) : string :=
  String.concat sep elems.

Definition cat (pieces : list string) : string := String.concat EmptyString pieces.

Section Template.

(** unexport on a string whose first byte is not ASCII: the decoding of the
    first rune, unicode.ToLower on it and its encoding, which follow the
    Unicode tables of the Go library. *)
Variable lowerFirstRune : string -> string.

Definition unexport (s : string) : string :=
  match s with
  | EmptyString => EmptyString
  | String c rest =>
      let n := nat_of_ascii c in
      if n <? 128
      then String (if (65 <=? n) && (n <=? 90) then byte (n + 32) else c) rest
      else lowerFirstRune s
  end.

Definition Params_Slices (p : list Param) : list Param :=
  List.filter IsSlice p.

Definition Params_HasLength (p : list Param) : bool := 0 <? length p.

Definition Returns_HasLength (r : list Return) : bool := 0 <? length r.

Definition Returns_WithPrefix (r : list Return) (p : string) : string :=
  match r with
  | [] => EmptyString
  | _ =>
      Join (map (fun x =>
                   if String.eqb p EmptyString then unexport (ReturnName x)
                   else p +:+ unexport (ReturnName x)) r) ", "
  end.

Definition Params_WithPrefix (p : list Param) (pre : string) : string :=
  match p with
  | [] => EmptyString
  | _ =>
      Join (map (fun x =>
                   if String.eqb pre EmptyString then unexport (ParamName x)
                   else pre +:+ unexport (ParamName x)) p) ", "
  end.

Definition Params_AsArgs (p : list Param) : string :=
  match p with
  | [] => EmptyString
  | _ => Join (map ParamType p) ", "
  end.

Definition Returns_AsNamedArgsWithTypes (r : list Return) : string :=
  match r with
  | [] => EmptyString
  | _ => Join (map (fun x => unexport (ReturnName x) +:+ " " +:+ ReturnType x) r) ", "
  end.

Definition Params_AsNamedArgsWithTypes (p : list Param) : string :=
  match p with
  | [] => EmptyString
  | _ => Join (map (fun x => unexport (ParamName x) +:+ " " +:+ ParamType x) p) ", "
  end.

Definition Returns_AsNamedArgs (r : list Return) : string :=
  match r with
  | [] => EmptyString
  | _ => Join (map (fun x => unexport (ReturnName x)) r) ", "
  end.

Definition Params_AsNamedArgs (p : list Param) : string :=
  match p with
  | [] => EmptyString
  | _ =>
      Join (map (fun x =>
                   if IsSlice x then unexport (ParamName x) +:+ "Copy"
                   else unexport (ParamName x)) p) ", "
  end.

Definition Params_AsNamedArgsForInvocation (p : list Param) : string :=
  match p with
  | [] => EmptyString
  | _ =>
      Join (map (fun x =>
                   if IsVariadic x then unexport (ParamName x) +:+ "..."
                   else unexport (ParamName x)) p) ", "
  end.

(** The test [i < len(p)] in the loop always holds, so every element is
    followed by the separator. *)
Definition Params_AsReturnSignature (p : list Param) : string :=
  match p with
  | [] => EmptyString
  | [x] =>
      if IsVariadic x then Replace (ParamType x) "..." "[]" (-1)
      else ParamType x
  | _ =>
      foldl (fun result x =>
               let t := if IsVariadic x
                        then Replace (ParamType x) "..." "[]" (-1)
                        else ParamType x in
               (result +:+ t) +:+ ", ") "(" p +:+ ")"
  end.

Definition Returns_AsReturnSignature (r : list Return) : string :=
  match r with
  | [] => EmptyString
  | [x] => ReturnType x
  | _ => foldl (fun result x => (result +:+ ReturnType x) +:+ ", ") "(" r +:+ ")"
  end.

Definition dq : string := bytes [34].

(** tmpl.Execute(b, f) for the template [fakeTemplate], parsed by
    html/template: the text of the template has no markup, so every action
    that prints is in HTML text context and its value goes through the
    escaper [E].  The lines follow the lines of the template; the trim
    markers of the template are applied to the neighbouring text. *)
Definition executeTemplate (f : Fake) : string :=
  let E := htmlEscape in
  cat [
  "// Code generated by counterfeiter. DO NOT EDIT."; nl;
  "package "; E (DestinationPackage f); nl;
  nl;
  "import ("; nl;
  tab;
  cat (map (fun imp => cat [
      E (Alias imp); " "; dq; E (Path imp); dq; nl;
      tab
  ]) (Imports f));
  nl;
  ")"; nl;
  nl;
  "type "; E (Name f); " struct {"; nl;
  tab;
  cat (map (fun m => cat [
      E (MethodName m); "Stub func("; E (Params_AsArgs (Params m)); ") "; E (Returns_AsReturnSignature (Returns m)); nl;
      tab; E (unexport (MethodName m)); "Mutex sync.RWMutex"; nl;
      tab; E (unexport (MethodName m)); "ArgsForCall []struct{";
      cat (map (fun p => cat [
          nl;
          tab; tab; E (ParamName p); " ";
          (if IsVariadic p then cat [
              E (Replace (ParamType p) "..." "[]" (-1))
           ] else cat [
              E (ParamType p)
           ]);
          nl;
          tab
      ]) (Params m));
      "}"; nl;
      tab;
      (if Returns_HasLength (Returns m) then cat [
          E (unexport (MethodName m)); "Returns struct{"; nl;
          tab; tab;
          cat (map (fun r => cat [
              E (unexport (ReturnName r)); " "; E (ReturnType r); nl;
              tab; tab
          ]) (Returns m));
          nl;
          tab; "}"; nl;
          tab; E (unexport (MethodName m)); "ReturnsOnCall map[int]struct{"; nl;
          tab; tab;
          cat (map (fun r => cat [
              E (unexport (ReturnName r)); " "; E (ReturnType r); nl;
              tab; tab
          ]) (Returns m));
          nl;
          tab; "}"
       ] else cat [
       ]);
      nl;
      tab
  ]) (Methods f));
  nl;
  tab; "invocations      map[string][][]interface{}"; nl;
  tab; "invocationsMutex sync.RWMutex"; nl;
  "}";
  cat (map (fun m => cat [
      nl;
      nl;
      "func (fake *"; E (FakeName m); ") "; E (MethodName m); "("; E (Params_AsNamedArgsWithTypes (Params m)); ") "; E (Returns_AsReturnSignature (Returns m)); " {"; nl;
      tab;
      cat (map (fun p => cat [
          "var "; E (unexport (ParamName p)); "Copy "; E (ParamType p); nl;
          tab; "if "; E (unexport (ParamName p)); " != nil {"; nl;
          tab; tab; E (unexport (ParamName p)); "Copy = make("; E (ParamType p); ", len("; E (unexport (ParamName p)); "))"; nl;
          tab; tab; "copy("; E (unexport (ParamName p)); "Copy, "; E (unexport (ParamName p)); ")"; nl;
          tab; "}"; nl;
          tab
      ]) (Params_Slices (Params m)));
      "fake."; E (unexport (MethodName m)); "Mutex.Lock()"; nl;
      tab;
      (if Returns_HasLength (Returns m) then cat [
          "ret, specificReturn := fake."; E (unexport (MethodName m)); "ReturnsOnCall[len(fake."; E (unexport (MethodName m)); "ArgsForCall)]"; nl;
          tab
       ] else cat [
       ]);
      "fake."; E (unexport (MethodName m)); "ArgsForCall = append(fake."; E (unexport (MethodName m)); "ArgsForCall, struct{";
      cat (map (fun p => cat [
          nl;
          tab; tab; E (ParamName p); " ";
          (if IsVariadic p then cat [
              E (Replace (ParamType p) "..." "[]" (-1))
           ] else cat [
              E (ParamType p)
           ]);
          nl;
          tab
      ]) (Params m));
      "}{"; E (Params_AsNamedArgs (Params m)); "})"; nl;
      tab; "fake.recordInvocation("; dq; E (MethodName m); dq; ", []interface{}{";
      (if Params_HasLength (Params m) then cat [
          E (Params_AsNamedArgs (Params m))
       ] else cat [
       ]);
      "})"; nl;
      tab; "fake."; E (unexport (MethodName m)); "Mutex.Unlock()"; nl;
      tab; "if fake."; E (MethodName m); "Stub != nil {"; nl;
      tab; tab;
      (if Returns_HasLength (Returns m) then cat [
          "return fake."; E (MethodName m); "Stub("; E (Params_AsNamedArgsForInvocation (Params m)); ")"
       ] else cat [
          "fake."; E (MethodName m); "Stub("; E (Params_AsNamedArgsForInvocation (Params m)); ")"
       ]);
      nl;
      tab; "}";
      (if Returns_HasLength (Returns m) then cat [
          nl;
          tab; "if specificReturn {"; nl;
          tab; tab; "return "; E (Returns_WithPrefix (Returns m) "ret."); nl;
          tab; "}"; nl;
          tab; "fakeReturns := fake."; E (unexport (MethodName m)); "Returns"; nl;
          tab; "return "; E (Returns_WithPrefix (Returns m) "fakeReturns.")
       ] else cat [
       ]);
      nl;
      "}"; nl;
      nl;
      "func (fake *"; E (FakeName m); ") "; E (MethodName m); "CallCount() int {"; nl;
      tab; "fake."; E (unexport (MethodName m)); "Mutex.RLock()"; nl;
      tab; "defer fake."; E (unexport (MethodName m)); "Mutex.RUnlock()"; nl;
      tab; "return len(fake."; E (unexport (MethodName m)); "ArgsForCall)"; nl;
      "}"; nl;
      nl;
      (if Params_HasLength (Params m) then cat [
          "func (fake *"; E (FakeName m); ") "; E (MethodName m); "ArgsForCall(i int) "; E (Params_AsReturnSignature (Params m)); " {"; nl;
          tab; "fake."; E (unexport (MethodName m)); "Mutex.RLock()"; nl;
          tab; "defer fake."; E (unexport (MethodName m)); "Mutex.RUnlock()"; nl;
          tab; "argsForCall := fake."; E (unexport (MethodName m)); "ArgsForCall[i]"; nl;
          tab; "return "; E (Params_WithPrefix (Params m) "argsForCall."); nl;
          "}"
       ] else cat [
       ]);
      nl;
      nl;
      (if Returns_HasLength (Returns m) then cat [
          "func (fake *"; E (FakeName m); ") "; E (MethodName m); "Returns("; E (Returns_AsNamedArgsWithTypes (Returns m)); ") {"; nl;
          tab; "fake."; E (MethodName m); "Stub = nil"; nl;
          tab; "fake."; E (unexport (MethodName m)); "Returns = struct {"; nl;
          tab; tab;
          cat (map (fun r => cat [
              E (unexport (ReturnName r)); " "; E (ReturnType r); nl;
              tab; tab
          ]) (Returns m));
          nl;
          tab; "}{"; E (Returns_AsNamedArgs (Returns m)); "}"; nl;
          "}"; nl;
          nl;
          "func (fake *"; E (FakeName m); ") "; E (MethodName m); "ReturnsOnCall(i int, "; E (Returns_AsNamedArgsWithTypes (Returns m)); ") {"; nl;
          tab; "fake."; E (MethodName m); "Stub = nil"; nl;
          tab; "if fake."; E (unexport (MethodName m)); "ReturnsOnCall == nil {"; nl;
          tab; tab; "fake."; E (unexport (MethodName m)); "ReturnsOnCall = make(map[int]struct {"; nl;
          tab; tab; tab;
          cat (map (fun r => cat [
              E (unexport (ReturnName r)); " "; E (ReturnType r); nl;
              tab; tab; tab
          ]) (Returns m));
          nl;
          tab; tab; "})"; nl;
          tab; "}"; nl;
          tab; "fake."; E (unexport (MethodName m)); "ReturnsOnCall[i] = struct {"; nl;
          tab; tab;
          cat (map (fun r => cat [
              E (unexport (ReturnName r)); " "; E (ReturnType r); nl;
              tab; tab
          ]) (Returns m));
          nl;
          tab; "}{"; E (Returns_AsNamedArgs (Returns m)); "}"; nl;
          "}"
       ] else cat [
       ]);
      nl;
      nl
  ]) (Methods f));
  "func (fake *"; E (Name f); ") Invocations() map[string][][]interface{} {"; nl;
  tab; "fake.invocationsMutex.RLock()"; nl;
  tab; "defer fake.invocationsMutex.RUnlock()"; nl;
  tab;
  cat (map (fun m => cat [
      "fake."; E (unexport (MethodName m)); "Mutex.RLock()"; nl;
      tab; "defer fake."; E (unexport (MethodName m)); "Mutex.RUnlock()"; nl;
      tab
  ]) (Methods f));
  "copiedInvocations := map[string][][]interface{}{}"; nl;
  tab; "for key, value := range fake.invocations {"; nl;
  tab; tab; "copiedInvocations[key] = value"; nl;
  tab; "}"; nl;
  tab; "return copiedInvocations"; nl;
  "}"; nl;
  nl;
  "func (fake *"; E (Name f); ") recordInvocation(key string, args []interface{}) {"; nl;
  tab; "fake.invocationsMutex.Lock()"; nl;
  tab; "defer fake.invocationsMutex.Unlock()"; nl;
  tab; "if fake.invocations == nil {"; nl;
  tab; tab; "fake.invocations = map[string][][]interface{}{}"; nl;
  tab; "}"; nl;
  tab; "if fake.invocations[key] == nil {"; nl;
  tab; tab; "fake.invocations[key] = [][]interface{}{}"; nl;
  tab; "}"; nl;
  tab; "fake.invocations[key] = append(fake.invocations[key], args)"; nl;
  "}"; nl;
  nl;
  "var _ "; E (InterfaceAlias f); "."; E (InterfaceName f); " = new("; E (Name f); ")"; nl
  ].

End Template.

(** ** NewFake and Generate *)

Definition error : Type := string.

Section Generator.

Variable rangeOrder : MapOrder.
Variable lowerFirstRune : string -> string.

(** packages.Load with the configuration of loadPackages, for a package
    path: the packages and the error. *)
Variable packagesLoad : string -> list packages.Package * option error.

(** imports.Process on the rendered buffer: the formatted text and the
    error. *)
Variable importsProcess : string -> string * option error.

Definition loadPackages (packagePath : string) (f : Fake) : Fake * option error :=
  match packagesLoad packagePath with
  | (_, Some err) => (f, Some err)
  | (p, None) =>
      ({| Packages := p; Package := Package f; Interface := Interface f;
          DestinationPackage := DestinationPackage f; Name := Name f;
          InterfaceAlias := InterfaceAlias f; InterfaceName := InterfaceName f;
          InterfacePackage := InterfacePackage f; Imports := Imports f;
          Methods := Methods f |}, None)
  end.

(** The search loop of findPackageWithInterface: [pkg] is the last package
    with a scope that was visited, [iface] the type name found. *)
Fixpoint findInPackages (interfaceName : string) (todo : list packages.Package)
    (pkg : option packages.Package)
  : option packages.Package * option types.TypeName :=
  match todo with
  | [] => (pkg, None)
  | p :: rest =>
      match packages.Types p with
      | Some (Some scope) =>
          match scope !! interfaceName with
          | Some (types.IsTypeName typeName) => (Some p, Some typeName)
          | _ => findInPackages interfaceName rest (Some p)
          end
      | _ => findInPackages interfaceName rest pkg
      end
  end.

Definition findPackageWithInterface (f : Fake) : Fake * option error :=
  match findInPackages (InterfaceName f) (Packages f) None with
  | (Some pkg, Some iface) =>
      let interfacePackage := unvendor (packages.PkgPath pkg) in
      let interfaceAlias := packages.Name pkg in
      let f :=
        {| Packages := Packages f; Package := Some pkg; Interface := Some iface;
           DestinationPackage := DestinationPackage f; Name := Name f;
           InterfaceAlias := interfaceAlias;
           InterfaceName := types.TypeNameName iface;
           InterfacePackage := interfacePackage; Imports := Imports f;
           Methods := Methods f |} in
      (fst (AddImport (InterfaceAlias f) (InterfacePackage f) f), None)
  | _ =>
      (f, Some ("cannot find package with interface " +:+ InterfaceName f))
  end.

Definition NewFake (interfaceName packagePath fakeName destinationPackage : string)
  : option Fake * option error :=
  let f :=
    {| Packages := []; Package := None; Interface := None;
       DestinationPackage := destinationPackage; Name := fakeName;
       InterfaceAlias := EmptyString; InterfaceName := interfaceName;
       InterfacePackage := packagePath;
       Imports := [ {| Alias := "sync"; Path := "sync" |} ];
       Methods := [] |} in
  match loadPackages packagePath f with
  | (_, Some err) => (None, Some err)
  | (f, None) =>
      match findPackageWithInterface f with
      | (_, Some err) => (None, Some err)
      | (f, None) => (Some f, None)
      end
  end.

(** Generate: the fake after the call, the bytes and the error.  [fuel]
    bounds the rounds of the disambiguation loop. *)
Definition Generate (fuel : nat) (runImports : bool) (f : Fake)
  : outcome (Fake * (string * option error)) :=
  match Interface f with
  | None => Panic "invalid memory address or nil pointer dereference"
  | Some iface =>
      let methods := types.IntuitiveMethodSet iface in
      let f := addImportsForMethods methods f in
      r <-! importsMap rangeOrder fuel f ;;
      f <-! buildMethods (snd r) methods (fst r) ;;
      let b := executeTemplate lowerFirstRune f in
      if runImports then Returned (f, importsProcess b)
      else Returned (f, (b, None))
  end.

End Generator.

(** ** The vocabulary of the statements, and example inputs *)

(** A fake as NewFake seeds it, before any package is loaded. *)
Definition seedFake : Fake :=
  {| Packages := []; Package := None; Interface := None;
     DestinationPackage := "fakes"; Name := "FakeThing";
     InterfaceAlias := EmptyString; InterfaceName := "Thing";
     InterfacePackage := "example.com/thing";
     Imports := [ {| Alias := "sync"; Path := "sync" |} ];
     Methods := [] |}.

(** The entries of the import list with a given alias, in list order. *)
Definition group (a : string) (imports : list Import) : list Import :=
  filter (fun i => Alias i = a) imports.

(** The path of the first entry is not greater than that of the second. *)
Definition inPathOrder (x y : Import) : Prop := String.ltb (Path y) (Path x) = false.

(** The alias that one round gives to an entry: the loop over [j] without
    the InterfaceAlias that it threads. *)
Fixpoint suffixed (path : string) (imports : list Import) (j : Z) (alias : string)
  : string :=
  match imports with
  | [] => alias
  | imp :: rest =>
      suffixed path rest (j + 1)
        (if String.eqb (Path imp) path && (0 <? j)%Z
         then alias +:+ runeString (suffixByte j) else alias)
  end.

Definition newAlias (byAlias : gmap string (list Import)) (imp : Import) : string :=
  let imports := default [] (byAlias !! Alias imp) in
  if length imports =? 1 then Alias imp
  else suffixed (Path imp) imports 0 (Alias imp).

Definition stepImports (imports : list Import) : list Import :=
  map (fun imp => {| Alias := newAlias (aliasMapOf imports) imp; Path := Path imp |})
      imports.

(** A round changes the import list and InterfaceAlias only. *)
Definition sameIdentity (f f' : Fake) : Prop :=
  Packages f' = Packages f /\ Package f' = Package f /\
  Interface f' = Interface f /\ DestinationPackage f' = DestinationPackage f /\
  Name f' = Name f /\ InterfaceName f' = InterfaceName f /\
  InterfacePackage f' = InterfacePackage f /\ Methods f' = Methods f.

Definition len (x : Import) : nat := String.length (Alias x).

Definition colliding (l : list Import) (x : Import) : Prop :=
  1 < length (group (Alias x) l).

#[global] Instance colliding_dec (l : list Import) (x : Import) :
  Decision (colliding l x).
Proof. unfold colliding. apply _. Defined.

Definition stepImport (l : list Import) (x : Import) : Import :=
  {| Alias := newAlias (aliasMapOf l) x; Path := Path x |}.

Definition cnt (k : nat) (l : list Import) : nat :=
  length (filter (fun x => k <= len x) l).

Definition fakeWithImports (imports : list Import) (interfacePackage : string) : Fake :=
  {| Packages := []; Package := None; Interface := None;
     DestinationPackage := "fakes"; Name := "FakeThing";
     InterfaceAlias := "thing"; InterfaceName := "Thing";
     InterfacePackage := interfacePackage;
     Imports := imports;
     Methods := [] |}.

(** Three packages named [v1], and the synchronization package. *)
Definition clashingFake : Fake :=
  fakeWithImports
    [ {| Alias := "sync"; Path := "sync" |};
      {| Alias := "v1"; Path := "k8s.io/api/core/v1" |};
      {| Alias := "v1"; Path := "k8s.io/api/apps/v1" |};
      {| Alias := "v1"; Path := "k8s.io/api/batch/v1" |} ]
    "k8s.io/api/core/v1".

Definition clashingFakeResolved : Fake :=
  setInterfaceAlias
    (setImports clashingFake
       [ {| Alias := "v1"; Path := "k8s.io/api/apps/v1" |};
         {| Alias := "v1a"; Path := "k8s.io/api/batch/v1" |};
         {| Alias := "v1b"; Path := "k8s.io/api/core/v1" |};
         {| Alias := "sync"; Path := "sync" |} ])
    "v1b".

Definition pad2 (n : nat) : string :=
  if n <? 10 then "0" +:+ formatInt (Z.of_nat n) else formatInt (Z.of_nat n).

(** Twenty-eight packages that are all named [v1]. *)
Definition namesake (n : nat) : Import :=
  {| Alias := "v1"; Path := "example.com/g" +:+ pad2 n +:+ "/v1" |}.

Definition namesakesFake : Fake :=
  fakeWithImports (map namesake (seq 0 28)) "example.com/thing".

(** A named type [name] declared in the package [pkg]. *)
Definition namedIn (name : string) (pkg : types.Package) : types.Type_ :=
  types.Named (Some {| types.ObjName := name; types.Pkg := Some pkg |}).

Definition isLastOfVariadic (sig : types.Sig) (i : nat) : bool :=
  (Z.of_nat i =? Z.of_nat (length (types.Params sig)) - 1)%Z && types.Variadic sig.

(** The signatures that go/types builds: the last parameter of a variadic
    signature is of slice type. *)
Definition wellFormedSig (sig : types.Sig) : Prop :=
  types.Variadic sig = true ->
  exists v elem, last (types.Params sig) = Some v /\ types.VarType v = types.Slice elem.

Definition variadicSelection : types.Selection :=
  {| types.FuncName := "Join";
     types.Type' :=
       {| types.Params :=
            [ {| types.VarName := "names";
                 types.VarType := types.Slice (types.Basic "string") |} ];
          types.Results := [];
          types.Variadic := true |} |}.

Definition getSelection : types.Selection :=
  {| types.FuncName := "Get";
     types.Type' :=
       {| types.Params :=
            [ {| types.VarName := "key"; types.VarType := types.Basic "string" |};
              {| types.VarName := "keys";
                 types.VarType := types.Slice (types.Basic "string") |} ];
          types.Results :=
            [ {| types.VarName := "value"; types.VarType := types.Basic "string" |};
              {| types.VarName := "err";
                 types.VarType :=
                   types.Named (Some {| types.ObjName := "error";
                                        types.Pkg := None |}) |} ];
          types.Variadic := false |} |}.

Definition getMethod : Method :=
  {| FakeName := "FakeThing"; MethodName := "Get";
     Params := [ {| ParamName := "arg1"; ParamType := "string";
                    IsVariadic := false; IsSlice := false |};
                 {| ParamName := "arg2"; ParamType := "[]string";
                    IsVariadic := false; IsSlice := true |} ];
     Args := EmptyString;
     Returns := [ {| ReturnName := "result1"; ReturnType := "string" |};
                  {| ReturnName := "result2"; ReturnType := "error" |} ];
     Rets := EmptyString |}.

(** What the discovery loops keep: the entries already registered, at the
    front and in order, and the uniqueness of the paths. *)
Definition extends (f f' : Fake) : Prop :=
  (exists extra, Imports f' = Imports f ++ extra) /\
  (NoDup (map Path (Imports f)) -> NoDup (map Path (Imports f'))) /\
  Interface f' = Interface f /\ Name f' = Name f.

(** strings.Contains(s, sub) *)
Fixpoint contains (s sub : string) : bool :=
  String.prefix sub s ||
  match s with
  | EmptyString => false
  | String _ rest => contains rest sub
  end.

(** The package example.com/thing, which declares the interface [iface], as
    the resolver returns it. *)
Definition thingPackage (iface : types.TypeName) : packages.Package :=
  {| packages.Name := "thing";
     packages.PkgPath := "example.com/thing";
     packages.Types := Some (Some {[ types.TypeNameName iface := types.IsTypeName iface ]}) |}.

Definition loadThing (iface : types.TypeName)
  : string -> list packages.Package * option error :=
  fun _ => ([thingPackage iface], None).

Definition noFormatter : string -> string * option error := fun b => (b, None).

Definition asciiNames : string -> string := fun s => s.

(** NewFake and then Generate without the formatter, on the package above. *)
Definition generateThing (rangeOrder : MapOrder) (fuel : nat) (iface : types.TypeName)
  : outcome (Fake * (string * option error)) :=
  match NewFake (loadThing iface) (types.TypeNameName iface) "example.com/thing"
                "FakeThing" "thingfakes" with
  | (Some f, _) => Generate rangeOrder asciiNames noFormatter fuel false f
  | (None, _) => Panic "NewFake failed"
  end.

(** type Thing interface { Any(x interface{}) } *)
Definition anyInterface : types.TypeName :=
  {| types.TypeNameName := "Thing";
     types.IntuitiveMethodSet :=
       [ {| types.FuncName := "Any";
            types.Type' :=
              {| types.Params := [ {| types.VarName := "x";
                                      types.VarType := types.Interface |} ];
                 types.Results := [];
                 types.Variadic := false |} |} ] |}.

(** type Thing interface { Recv() <-chan int } *)
Definition recvInterface : types.TypeName :=
  {| types.TypeNameName := "Thing";
     types.IntuitiveMethodSet :=
       [ {| types.FuncName := "Recv";
            types.Type' :=
              {| types.Params := [];
                 types.Results := [ {| types.VarName := EmptyString;
                                       types.VarType :=
                                         types.Chan types.RecvOnly (types.Basic "int") |} ];
                 types.Variadic := false |} |} ] |}.

Definition rawText (r : outcome (Fake * (string * option error))) : string :=
  match r with
  | Returned (_, (b, _)) => b
  | _ => EmptyString
  end.

Definition returnedError (r : outcome (Fake * (string * option error)))
  : option (option error) :=
  match r with
  | Returned (_, (_, err)) => Some err
  | _ => None
  end.

Definition builtMethods (r : outcome (Fake * (string * option error))) : list Method :=
  match r with
  | Returned (f, _) => Methods f
  | _ => []
  end.

Definition unhandledShape (t : types.Type_) : bool :=
  match t with
  | types.Struct | types.Tuple | types.Signature | types.Interface => true
  | _ => false
  end.

(** type Thing interface { Run(p v1.Pod, j v1.Job) error }, with the two
    packages named [v1]. *)
Definition podInterface : types.TypeName :=
  {| types.TypeNameName := "Thing";
     types.IntuitiveMethodSet :=
       [ {| types.FuncName := "Run";
            types.Type' :=
              {| types.Params :=
                   [ {| types.VarName := "p";
                        types.VarType :=
                          namedIn "Pod" {| types.Name := "v1";
                                           types.Path := "k8s.io/api/core/v1" |} |};
                     {| types.VarName := "j";
                        types.VarType :=
                          namedIn "Job" {| types.Name := "v1";
                                           types.Path := "k8s.io/api/batch/v1" |} |} ];
                 types.Results :=
                   [ {| types.VarName := EmptyString;
                        types.VarType :=
                          types.Named (Some {| types.ObjName := "error";
                                               types.Pkg := None |}) |} ];
                 types.Variadic := false |} |} ] |}.

Definition thingFake (iface : types.TypeName) : Fake :=
  match NewFake (loadThing iface) (types.TypeNameName iface) "example.com/thing"
                "FakeThing" "thingfakes" with
  | (Some f, _) => f
  | (None, _) => seedFake
  end.

Definition podGenerated : Fake * (string * option error) :=
  Eval vm_compute in
    match Generate inOrder asciiNames noFormatter 4 false (thingFake podInterface) with
    | Returned r => r
    | _ => (seedFake, (EmptyString, None))
    end.

Definition syncImport : Import := {| Alias := "sync"; Path := "sync" |}.

(** [s] has the text [x] inside. *)
Definition holds (s x : string) : Prop := exists pre post, s = pre +:+ x +:+ post.

(** The line of the import block that the template prints for an entry. *)
Definition importLine (imp : Import) : string :=
  cat [ htmlEscape (Alias imp); " "; dq; htmlEscape (Path imp); dq; nl; tab ].

(** A path in devendorized form: it has no vendor segment inside and does
    not start with one. *)
Definition devendorized (s : string) : Prop :=
  contains s "/vendor/" = false /\ HasPrefix s "vendor/" = false.

(** The entry [x'] is the entry [x] with its alias kept or extended. *)
Definition extendsAlias (x x' : Import) : Prop :=
  Path x' = Path x /\ exists t, Alias x' = Alias x +:+ t.

(** InterfaceAlias is the alias under which the registry holds the
    interface's package. *)
Definition interfaceAliasInStep (f : Fake) : Prop :=
  forall x, x ∈ Imports f -> Path x = InterfacePackage f -> Alias x = InterfaceAlias f.

(** The package [q] has a scope that declares [n] as a type name. *)
Definition declares (q : packages.Package) (n : string) : Prop :=
  exists scope tn,
    packages.Types q = Some (Some scope) /\ scope !! n = Some (types.IsTypeName tn).

(** The error of findPackageWithInterface. *)
Definition cannotFind (interfaceName : string) : error :=
  "cannot find package with interface " +:+ interfaceName.

(** A package that was loaded without type information, a package that
    declares [Thing] as something other than a type, and then the package of
    the interface, vendored. *)
Definition untypedPackage : packages.Package :=
  {| packages.Name := "broken"; packages.PkgPath := "example.com/broken";
     packages.Types := None |}.

Definition otherPackage : packages.Package :=
  {| packages.Name := "other"; packages.PkgPath := "example.com/other";
     packages.Types := Some (Some {[ "Thing" := types.OtherObject ]}) |}.

Definition vendoredPackage (iface : types.TypeName) : packages.Package :=
  {| packages.Name := "thing";
     packages.PkgPath := "example.com/app/vendor/example.com/thing";
     packages.Types := Some (Some {[ types.TypeNameName iface := types.IsTypeName iface ]}) |}.

Definition loadThree (iface : types.TypeName)
  : string -> list packages.Package * option error :=
  fun _ => ([untypedPackage; otherPackage; vendoredPackage iface], None).

Definition loadNone : string -> list packages.Package * option error :=
  fun _ => ([untypedPackage; otherPackage], None).

Definition vendoredFake : Fake :=
  match NewFake (loadThree podInterface) "Thing" "example.com/app/..." "FakeThing"
                "thingfakes" with
  | (Some f, _) => f
  | (None, _) => seedFake
  end.

(** The package paths of the named types that addImportsFor reaches in a
    descriptor. *)
Fixpoint packagePaths (t : types.Type_) : list string :=
  match t with
  | types.Pointer elem | types.Slice elem | types.Array _ elem
  | types.Chan _ elem => packagePaths elem
  | types.Map key elem => packagePaths key ++ packagePaths elem
  | types.Named (Some o) =>
      match types.Pkg o with
      | Some pkg => [types.Path pkg]
      | None => []
      end
  | _ => []
  end.

Definition varsPaths (vars : list types.Var) : list string :=
  concat (map (fun v => packagePaths (types.VarType v)) vars).

(** The package paths in the results and parameters of a method set. *)
Definition methodSetPaths (methods : list types.Selection) : list string :=
  concat (map (fun m => varsPaths (types.Results (types.Type' m)) ++
                        varsPaths (types.Params (types.Type' m))) methods).

(** The closing line of the template: the assertion that the fake
    implements the interface. *)
Definition assertionLine (f : Fake) : string :=
  cat [ "var _ "; htmlEscape (InterfaceAlias f); "."; htmlEscape (InterfaceName f);
        " = new("; htmlEscape (Name f); ")"; nl ].

(** The text of a signature with the types [ts], as the AsReturnSignature
    loops leave it: a separator after every type, also the last one. *)
Definition signatureText (ts : list string) : string :=
  match ts with
  | [] => EmptyString
  | [t] => t
  | _ => "(" +:+ Join ts ", " +:+ ", )"
  end.

(** The type that AsReturnSignature prints for a parameter. *)
Definition returnedType (x : Param) : string :=
  if IsVariadic x then Replace (ParamType x) "..." "[]" (-1) else ParamType x.

(** The field of the fake's struct that holds the stub of a method. *)
Definition stubField (m : Method) : string :=
  cat [ htmlEscape (MethodName m); "Stub func(";
        htmlEscape (Params_AsArgs (Params m)); ") ";
        htmlEscape (Returns_AsReturnSignature (Returns m)); nl ].

(** The first line of the definition of a method on the fake. *)
Definition methodHeader (lowerFirstRune : string -> string) (m : Method) : string :=
  cat [ "func (fake *"; htmlEscape (FakeName m); ") "; htmlEscape (MethodName m); "(";
        htmlEscape (Params_AsNamedArgsWithTypes lowerFirstRune (Params m)); ") ";
        htmlEscape (Returns_AsReturnSignature (Returns m)); " {"; nl ].

(** The positional names [base1 .. basen], each after the prefix [pre]. *)
Definition positional (base pre : string) (n : nat) : list string :=
  map (fun i => pre +:+ base +:+ formatInt (Z.of_nat i + 1)) (seq 0 n).

(** * Theorems *)

(** ** The import registry: AddImport *)

Lemma setImports_same (f : Fake) : setImports f (Imports f) = f.
Proof. by destruct f. Qed.

Lemma findPath_Some (path : string) (imports : list Import) (imp : Import) :
  findPath path imports = Some imp -> imp ∈ imports /\ Path imp = path.
Proof.
  induction imports as [|x rest IH]; simpl; [done|].
  destruct (String.eqb_spec (Path x) path) as [Heq|Hne].
  - intros [= <-]. split; [left | done].
  - intros H. destruct (IH H) as [Hin Hp]. split; [by right | done].
Qed.

Lemma findPath_None (path : string) (imports : list Import) :
  findPath path imports = None <-> path ∉ map Path imports.
Proof.
  induction imports as [|x rest IH]; simpl.
  - split; [intros _; apply not_elem_of_nil | done].
  - destruct (String.eqb_spec (Path x) path) as [Heq|Hne].
    + split; [done | intros H; exfalso; apply H; rewrite Heq; left].
    + rewrite IH, not_elem_of_cons. split; [by intros H; split | by intros [_ H]].
Qed.

Lemma findPath_is_Some (path : string) (imports : list Import) :
  path ∈ map Path imports -> exists imp, findPath path imports = Some imp.
Proof.
  intros Hin. destruct (findPath path imports) as [imp|] eqn:E; [by exists imp|].
  apply findPath_None in E. done.
Qed.

Lemma findPath_app_new (path : string) (imports : list Import) (imp : Import) :
  findPath path imports = None -> Path imp = path ->
  findPath path (imports ++ [imp]) = Some imp.
Proof.
  intros Hnone Hp. induction imports as [|x rest IH]; simpl in *.
  - by rewrite <- Hp, String.eqb_refl.
  - destruct (String.eqb (Path x) path); [done | by apply IH].
Qed.

Lemma findPath_app_old (path : string) (imports extra : list Import) (imp : Import) :
  findPath path imports = Some imp -> findPath path (imports ++ extra) = Some imp.
Proof.
  induction imports as [|x rest IH]; simpl; [done|].
  destruct (String.eqb (Path x) path); [done | apply IH].
Qed.

Lemma addImport_found (alias path : string) (imports : list Import) (imp : Import) :
  findPath (unvendor (TrimSpace path)) imports = Some imp ->
  addImport alias path imports = (imports, imp).
Proof. intros H. unfold addImport. by rewrite H. Qed.

Lemma addImport_new (alias path : string) (imports : list Import) :
  findPath (unvendor (TrimSpace path)) imports = None ->
  addImport alias path imports =
    (imports ++ [ {| Alias := TrimSpace alias; Path := unvendor (TrimSpace path) |} ],
     {| Alias := TrimSpace alias; Path := unvendor (TrimSpace path) |}).
Proof. intros H. unfold addImport. by rewrite H. Qed.

(** AddImport keeps every entry, in order, and appends at most one. *)
Lemma addImport_prefix (alias path : string) (imports : list Import) :
  exists extra, fst (addImport alias path imports) = imports ++ extra.
Proof.
  unfold addImport. destruct (findPath _ imports); simpl.
  - exists []. by rewrite app_nil_r.
  - by eexists.
Qed.

Lemma addImport_NoDup (alias path : string) (imports : list Import) :
  NoDup (map Path imports) ->
  NoDup (map Path (fst (addImport alias path imports))).
Proof.
  intros Hnd. unfold addImport.
  destruct (findPath _ imports) eqn:E; simpl; [done|].
  rewrite map_app. simpl. apply NoDup_app. split; [done|]. split.
  - intros x Hx Hx'. apply list_elem_of_singleton in Hx'. subst x.
    by apply findPath_None in E.
  - apply NoDup_singleton.
Qed.

Lemma filter_none {A : Type} (P : A -> Prop) `{!forall x, Decision (P x)}
    (l : list A) :
  (forall x, x ∈ l -> ~ P x) -> filter P l = [].
Proof.
  induction l as [|y l IH]; intros Hall; [done|].
  rewrite filter_cons_False; [|apply Hall; left].
  apply IH. intros x Hx. apply Hall. by right.
Qed.

Lemma filter_path_unique (p : string) (imports : list Import) :
  NoDup (map Path imports) -> p ∈ map Path imports ->
  length (filter (fun i => Path i = p) imports) = 1.
Proof.
  induction imports as [|x rest IH]; simpl; intros Hnd Hin.
  - by apply elem_of_nil in Hin.
  - apply NoDup_cons in Hnd as [Hx Hnd].
    rewrite filter_cons. destruct (decide (Path x = p)) as [Heq|Hne].
    + simpl. f_equal. rewrite filter_none; [done|]. intros y Hy Hp.
      apply Hx. rewrite Heq, <- Hp. apply list_elem_of_fmap. by exists y.
    + apply IH; [done|]. apply elem_of_cons in Hin as [Hin|Hin]; [congruence | done].
Qed.

Lemma addImport_again (alias alias' path path' : string) (imports : list Import) :
  unvendor (TrimSpace path') = unvendor (TrimSpace path) ->
  addImport alias' path' (fst (addImport alias path imports)) =
  (fst (addImport alias path imports), snd (addImport alias path imports)).
Proof.
  intros Hp'.
  destruct (findPath (unvendor (TrimSpace path)) imports) as [imp|] eqn:E.
  - rewrite (addImport_found alias _ _ _ E). simpl.
    apply addImport_found. by rewrite Hp'.
  - rewrite (addImport_new alias _ _ E). simpl.
    apply addImport_found. rewrite Hp'. by apply findPath_app_new.
Qed.

(** C3, as the specification states it, fails: AddImport compares the path
    after strings.TrimSpace and unvendor, not after unvendor alone.  The
    devendorized form of the path " p" is " p", which the registry holds
    after the first call, and the second call still appends an entry. *)
Lemma AddImport_devendorized_counterexample :
  let f1 := fst (AddImport "x" "a/vendor/ p" seedFake) in
  (exists imp, imp ∈ Imports f1 /\ Path imp = unvendor " p") /\
  Imports (fst (AddImport "y" " p" f1)) <> Imports f1.
Proof.
  split.
  - exists {| Alias := "x"; Path := " p" |}. split; [|reflexivity].
    right. left.
  - vm_compute. discriminate.
Qed.

(** C3 (amended): AddImport trims the white space around the path and then
    devendorizes it.  When the registry has an entry with that path, the
    first such entry is returned and the fake is unchanged; otherwise the
    entry with the trimmed alias and that path is appended at the end.  A
    second call with a path of the same trimmed and devendorized form, under
    any alias, returns the same entry and changes nothing, and a registry
    with unique paths has exactly one entry with that path afterwards. *)
Theorem AddImport_idempotent_by_path (alias path : string) (f : Fake) :
  let p := unvendor (TrimSpace path) in
  let new := {| Alias := TrimSpace alias; Path := p |} in
  (p ∈ map Path (Imports f) ->
     exists imp, findPath p (Imports f) = Some imp /\ imp ∈ Imports f /\
                 Path imp = p /\ AddImport alias path f = (f, imp)) /\
  (p ∉ map Path (Imports f) ->
     AddImport alias path f = (setImports f (Imports f ++ [new]), new)) /\
  (forall alias' path', unvendor (TrimSpace path') = p ->
     AddImport alias' path' (fst (AddImport alias path f)) = AddImport alias path f) /\
  (NoDup (map Path (Imports f)) ->
     NoDup (map Path (Imports (fst (AddImport alias path f)))) /\
     length (filter (fun i => Path i = p) (Imports (fst (AddImport alias path f)))) = 1).
Proof.
  intros p new. repeat split.
  - intros Hin. destruct (findPath_is_Some _ _ Hin) as [imp Hf].
    destruct (findPath_Some _ _ _ Hf) as [Himp Hp].
    exists imp. repeat split; try done.
    unfold AddImport. rewrite (addImport_found _ _ _ _ Hf). simpl.
    by rewrite setImports_same.
  - intros Hnot. apply findPath_None in Hnot.
    unfold AddImport. by rewrite (addImport_new _ _ _ Hnot).
  - intros alias' path' Hp'. unfold AddImport. simpl.
    rewrite (addImport_again alias alias' path path' (Imports f) Hp'). simpl.
    by destruct f.
  - unfold AddImport. simpl. by apply addImport_NoDup.
  - unfold AddImport. simpl. apply filter_path_unique; [by apply addImport_NoDup|].
    unfold addImport. fold p. destruct (findPath p (Imports f)) as [imp|] eqn:E; simpl.
    + destruct (findPath_Some _ _ _ E) as [Hin Hp]. rewrite <- Hp.
      apply list_elem_of_fmap. by exists imp.
    + rewrite map_app. apply elem_of_app. right. left.
Qed.

Lemma AddImport_idempotent_by_path_witness :
  AddImport "ctx" " example.com/vendor/context " (fst (AddImport "context" "context" seedFake))
  = AddImport "context" "context" seedFake.
Proof.
  apply (proj1 (proj2 (proj2 (AddImport_idempotent_by_path "context" "context" seedFake)))).
  reflexivity.
Defined.

(** ** The alias map and the test for duplicate aliases *)

Lemma aliasMapOf_snoc (imports : list Import) (imp : Import) :
  aliasMapOf (imports ++ [imp]) =
  <[Alias imp := default [] (aliasMapOf imports !! Alias imp) ++ [imp]]>
    (aliasMapOf imports).
Proof. unfold aliasMapOf. by rewrite foldl_app. Qed.

Lemma aliasMapOf_lookup (imports : list Import) (a : string) :
  aliasMapOf imports !! a =
  if decide (group a imports = []) then None else Some (group a imports).
Proof.
  induction imports as [|imp imports IH] using rev_ind.
  - done.
  - rewrite aliasMapOf_snoc. unfold group in *. rewrite filter_app.
    destruct (decide (Alias imp = a)) as [Heq|Hne].
    + subst a. rewrite lookup_insert_eq, IH.
      rewrite filter_cons_True, filter_nil by done.
      destruct (filter (fun i => Alias i = Alias imp) imports) as [|y g]; simpl.
      * by repeat case_decide.
      * by repeat case_decide.
    + rewrite lookup_insert_ne, IH by done.
      rewrite filter_cons_False, filter_nil, app_nil_r by done. done.
Qed.

Lemma aliasMapOf_default (imports : list Import) (a : string) :
  default [] (aliasMapOf imports !! a) = group a imports.
Proof.
  rewrite aliasMapOf_lookup. destruct (decide (group a imports = [])) as [E|E]; [|done].
  by rewrite E.
Qed.

Lemma anyLongGroup_true (entries : list (string * list Import)) :
  anyLongGroup entries = true <->
  exists a g, (a, g) ∈ entries /\ 1 < length g.
Proof.
  induction entries as [|[a g] rest IH]; simpl.
  - split; [done|]. intros (a & g & Hin & _). by apply elem_of_nil in Hin.
  - destruct (1 <? length g) eqn:E.
    + split; [|done]. intros _. exists a, g. split; [left|]. by apply Nat.ltb_lt.
    + rewrite IH. apply Nat.ltb_ge in E. split.
      * intros (a' & g' & Hin & Hlen). exists a', g'. split; [by right | done].
      * intros (a' & g' & Hin & Hlen). apply elem_of_cons in Hin as [[= -> ->]|Hin]; [lia|].
        by exists a', g'.
Qed.

(** The result of hasDuplicateAliases does not depend on the order in which
    the range loop visits the map. *)
Lemma hasDuplicateAliases_true (rangeOrder : MapOrder) (f : Fake) :
  hasDuplicateAliases rangeOrder f = true <->
  exists a, 1 < length (group a (Imports f)).
Proof.
  unfold hasDuplicateAliases. rewrite anyLongGroup_true. split.
  - intros (a & g & Hin & Hlen). exists a.
    rewrite (visit_perm rangeOrder) in Hin.
    apply elem_of_map_to_list in Hin. unfold aliasMap in Hin.
    rewrite aliasMapOf_lookup in Hin.
    destruct (decide (group a (Imports f) = [])); [done|]. by injection Hin as <-.
  - intros (a & Hlen). exists a, (group a (Imports f)). split; [|done].
    rewrite (visit_perm rangeOrder). apply elem_of_map_to_list.
    unfold aliasMap. rewrite aliasMapOf_lookup. rewrite decide_False; [done|].
    intros E. rewrite E in Hlen. simpl in Hlen. lia.
Qed.

Lemma hasDuplicateAliases_order (o1 o2 : MapOrder) (f : Fake) :
  hasDuplicateAliases o1 f = hasDuplicateAliases o2 f.
Proof.
  destruct (hasDuplicateAliases o1 f) eqn:E1, (hasDuplicateAliases o2 f) eqn:E2; try done.
  - apply hasDuplicateAliases_true in E1. apply (hasDuplicateAliases_true o2) in E1. congruence.
  - apply hasDuplicateAliases_true in E2. apply (hasDuplicateAliases_true o1) in E2. congruence.
Qed.

Lemma group_cons (a : string) (x : Import) (l : list Import) :
  group a (x :: l) = if decide (Alias x = a) then x :: group a l else group a l.
Proof. unfold group. by rewrite filter_cons. Qed.

Lemma elem_of_group (a : string) (x : Import) (l : list Import) :
  x ∈ group a l <-> Alias x = a /\ x ∈ l.
Proof. unfold group. by rewrite list_elem_of_filter. Qed.

Lemma NoDup_alias_groups (l : list Import) :
  NoDup (map Alias l) <-> forall a, length (group a l) <= 1.
Proof.
  induction l as [|x l IH].
  - split; [intros _ a; simpl; lia | intros _; constructor].
  - simpl. rewrite NoDup_cons, IH. split.
    + intros [Hx Hl] a. rewrite group_cons. destruct (decide (Alias x = a)) as [<-|Hne].
      * assert (group (Alias x) l = []) as ->; [|simpl; lia].
        apply filter_none. intros y Hy Heq. apply Hx. rewrite <- Heq.
        apply list_elem_of_fmap. by exists y.
      * apply Hl.
    + intros H. split.
      * intros Hin. apply list_elem_of_fmap in Hin as (y & Heq & Hy).
        specialize (H (Alias x)). rewrite group_cons, decide_True in H by done.
        assert (y ∈ group (Alias x) l) as Hg by (by apply elem_of_group).
        destruct (group (Alias x) l); [by apply elem_of_nil in Hg | simpl in H; lia].
      * intros a. specialize (H a). rewrite group_cons in H.
        destruct (decide (Alias x = a)); [simpl in H; lia | done].
Qed.

Lemma hasDuplicateAliases_false (rangeOrder : MapOrder) (f : Fake) :
  hasDuplicateAliases rangeOrder f = false <-> NoDup (map Alias (Imports f)).
Proof.
  rewrite NoDup_alias_groups. split.
  - intros E a. destruct (le_lt_dec (length (group a (Imports f))) 1) as [|Hlt]; [done|].
    assert (hasDuplicateAliases rangeOrder f = true) by (apply hasDuplicateAliases_true; eauto).
    congruence.
  - intros H. destruct (hasDuplicateAliases rangeOrder f) eqn:E; [|done].
    apply hasDuplicateAliases_true in E as [a Ha]. specialize (H a). lia.
Qed.

(** ** sortImports and one round of the disambiguation loop *)

Lemma insertByPath_perm (x : Import) (l : list Import) :
  insertByPath x l ≡ₚ x :: l.
Proof.
  induction l as [|y l IH]; simpl; [done|].
  destruct (String.ltb (Path y) (Path x)); [|done].
  rewrite IH. apply Permutation_swap.
Qed.

Lemma sortByPath_perm (l : list Import) : sortByPath l ≡ₚ l.
Proof.
  induction l as [|x l IH]; simpl; [done|].
  rewrite insertByPath_perm. by rewrite IH.
Qed.

Lemma ltb_irrefl (s : string) : String.ltb s s = false.
Proof.
  unfold String.ltb. pose proof (String.compare_antisym s s) as H.
  by destruct (String.compare s s).
Qed.

Lemma ltb_asym (s1 s2 : string) : String.ltb s1 s2 = true -> String.ltb s2 s1 = false.
Proof.
  unfold String.ltb. rewrite (String.compare_antisym s1 s2).
  by destruct (String.compare s2 s1).
Qed.

Lemma insertByPath_sorted (x : Import) (l : list Import) :
  Sorted inPathOrder l -> Sorted inPathOrder (insertByPath x l).
Proof.
  induction l as [|y l IH]; simpl; intros Hs.
  - by repeat constructor.
  - destruct (String.ltb (Path y) (Path x)) eqn:E.
    + apply Sorted_inv in Hs as [Hs Hhd]. constructor; [by apply IH|].
      destruct l as [|z l]; simpl.
      * constructor. by apply ltb_asym.
      * destruct (String.ltb (Path z) (Path x)).
        -- constructor. by apply HdRel_inv in Hhd.
        -- constructor. by apply ltb_asym.
    + constructor; [done|]. by constructor.
Qed.

(** sortByPath sorts by path ... *)
Lemma sortByPath_sorted (l : list Import) : Sorted inPathOrder (sortByPath l).
Proof.
  induction l as [|x l IH]; simpl; [constructor | by apply insertByPath_sorted].
Qed.

Lemma insertByPath_stable (p : string) (x : Import) (l : list Import) :
  filter (fun i => Path i = p) (insertByPath x l) =
  filter (fun i => Path i = p) (x :: l).
Proof.
  induction l as [|y l IH]; simpl; [done|].
  destruct (String.ltb (Path y) (Path x)) eqn:E; [|done].
  rewrite (filter_cons _ y), IH, !filter_cons.
  destruct (decide (Path y = p)) as [Hy|Hy], (decide (Path x = p)) as [Hx|Hx]; try done.
  rewrite Hy, Hx, ltb_irrefl in E. done.
Qed.

(** ... and keeps the entries of equal path in their order: it is stable. *)
Lemma sortByPath_stable (p : string) (l : list Import) :
  filter (fun i => Path i = p) (sortByPath l) = filter (fun i => Path i = p) l.
Proof.
  induction l as [|x l IH]; simpl; [done|].
  rewrite insertByPath_stable, !filter_cons, IH. done.
Qed.

Lemma suffixLoop_fst (path ip : string) (imports : list Import) (j : Z)
    (st : string * string) :
  fst (suffixLoop path ip imports j st) = suffixed path imports j (fst st).
Proof.
  revert j st. induction imports as [|imp rest IH]; intros j st; simpl; [done|].
  rewrite IH. by destruct (String.eqb (Path imp) path && (0 <? j)%Z).
Qed.

Lemma aliasLoop_fst (byAlias : gmap string (list Import)) (ip : string)
    (todo : list Import) (ia : string) :
  fst (aliasLoop byAlias ip todo ia) =
  map (fun imp => {| Alias := newAlias byAlias imp; Path := Path imp |}) todo.
Proof.
  revert ia. induction todo as [|imp rest IH]; intros ia; simpl; [done|].
  rewrite IH. f_equal. unfold newAlias.
  destruct (length (default [] (byAlias !! Alias imp)) =? 1); simpl; [done|].
  by rewrite suffixLoop_fst.
Qed.

Lemma realias_Imports (f : Fake) : Imports (realias f) = stepImports (Imports f).
Proof. unfold realias. simpl. apply aliasLoop_fst. Qed.

Lemma stepImports_paths (imports : list Import) :
  map Path (stepImports imports) = map Path imports.
Proof. unfold stepImports. rewrite map_map. by apply map_ext. Qed.

Lemma realias_paths (f : Fake) :
  map Path (Imports (realias f)) = map Path (Imports f).
Proof. rewrite realias_Imports. apply stepImports_paths. Qed.

Lemma sameIdentity_refl (f : Fake) : sameIdentity f f.
Proof. by repeat split. Qed.

Lemma sameIdentity_trans (f g h : Fake) :
  sameIdentity f g -> sameIdentity g h -> sameIdentity f h.
Proof. unfold sameIdentity. intuition congruence. Qed.

Lemma realias_sameIdentity (f : Fake) : sameIdentity f (realias f).
Proof. by repeat split. Qed.

Lemma disambiguateLoop_post (rangeOrder : MapOrder) (fuel : nat) (f f' : Fake) :
  disambiguateLoop rangeOrder fuel f = Returned f' ->
  NoDup (map Alias (Imports f')) /\
  map Path (Imports f') = map Path (Imports f) /\
  sameIdentity f f'.
Proof.
  revert f. induction fuel as [|fuel IH]; intros f; simpl; [done|].
  destruct (hasDuplicateAliases rangeOrder f) eqn:E; simpl.
  - intros H. destruct (IH _ H) as (Hnd & Hp & Hid).
    split; [done|]. split; [by rewrite Hp, realias_paths|].
    eapply sameIdentity_trans; [apply realias_sameIdentity | done].
  - intros [= <-]. split; [by apply (hasDuplicateAliases_false rangeOrder)|].
    split; [done | apply sameIdentity_refl].
Qed.

Lemma disambiguateAliases_post (rangeOrder : MapOrder) (fuel : nat) (f f' : Fake) :
  disambiguateAliases rangeOrder fuel f = Returned f' ->
  NoDup (map Alias (Imports f')) /\
  map Path (Imports f') = map Path (sortByPath (Imports f)) /\
  sameIdentity f f'.
Proof.
  unfold disambiguateAliases.
  destruct (hasDuplicateAliases rangeOrder (sortImports f)) eqn:E; simpl.
  - intros H. destruct (disambiguateLoop_post _ _ _ _ H) as (Hnd & Hp & Hid).
    repeat split; try done; apply Hid.
  - intros [= <-]. split; [by apply (hasDuplicateAliases_false rangeOrder)|].
    split; [done | by repeat split].
Qed.

(** The outcome of the pass is never a panic: it has no failure path. *)
Lemma disambiguateLoop_no_panic (rangeOrder : MapOrder) (fuel : nat) (f : Fake)
    (msg : string) :
  disambiguateLoop rangeOrder fuel f <> Panic msg.
Proof.
  revert f. induction fuel as [|fuel IH]; intros f; simpl; [done|].
  destruct (hasDuplicateAliases rangeOrder f); simpl; [apply IH | done].
Qed.

Lemma disambiguateAliases_no_panic (rangeOrder : MapOrder) (fuel : nat) (f : Fake)
    (msg : string) :
  disambiguateAliases rangeOrder fuel f <> Panic msg.
Proof.
  unfold disambiguateAliases.
  destruct (hasDuplicateAliases rangeOrder (sortImports f)); simpl;
    [apply disambiguateLoop_no_panic | done].
Qed.

(** ** Termination of the disambiguation loop *)

Lemma length_append (s1 s2 : string) :
  String.length (s1 +:+ s2) = String.length s1 + String.length s2.
Proof. induction s1 as [|c s1 IH]; simpl; [done | by rewrite IH]. Qed.

Lemma runeString_length (b : Z) : 0 < String.length (runeString b).
Proof. unfold runeString. destruct (b <? 128)%Z; simpl; lia. Qed.

Lemma NoDup_paths_NoDup (l : list Import) : NoDup (map Path l) -> NoDup l.
Proof. apply (NoDup_fmap_1 Path). Qed.

Lemma NoDup_paths_filter (P : Import -> Prop) `{!forall x, Decision (P x)}
    (l : list Import) :
  NoDup (map Path l) -> NoDup (map Path (filter P l)).
Proof.
  induction l as [|x l IH]; simpl; [done|].
  rewrite NoDup_cons. intros [Hx Hl]. rewrite filter_cons.
  destruct (decide (P x)); [|by apply IH].
  simpl. apply NoDup_cons. split; [|by apply IH].
  intros Hin. apply Hx. apply list_elem_of_fmap in Hin as (y & -> & Hy).
  apply list_elem_of_filter in Hy as [_ Hy]. apply list_elem_of_fmap. by exists y.
Qed.

Lemma suffixed_absent (path : string) (imports : list Import) (j : Z) (a : string) :
  path ∉ map Path imports -> suffixed path imports j a = a.
Proof.
  revert j a. induction imports as [|imp rest IH]; intros j a Hnot; simpl; [done|].
  simpl in Hnot. apply not_elem_of_cons in Hnot as [Hne Hnot].
  destruct (String.eqb_spec (Path imp) path) as [Heq|_]; [congruence|].
  simpl. by apply IH.
Qed.

Lemma suffixed_at (x : Import) (g1 g2 : list Import) (j : Z) (a : string) :
  NoDup (map Path (g1 ++ x :: g2)) ->
  suffixed (Path x) (g1 ++ x :: g2) j a =
  if (0 <? j + Z.of_nat (length g1))%Z
  then a +:+ runeString (suffixByte (j + Z.of_nat (length g1)))
  else a.
Proof.
  revert j a. induction g1 as [|y g1 IH]; intros j a Hnd.
  - simpl in *. apply NoDup_cons in Hnd as [Hx _].
    rewrite String.eqb_refl, Z.add_0_r. simpl.
    by rewrite suffixed_absent.
  - simpl in Hnd. apply NoDup_cons in Hnd as [Hy Hnd].
    cbn [suffixed app].
    destruct (String.eqb_spec (Path y) (Path x)) as [Heq|_].
    + exfalso. apply Hy. rewrite Heq, map_app. apply elem_of_app. right. left.
    + simpl. rewrite IH by done.
      replace (j + 1 + Z.of_nat (length g1))%Z
        with (j + Z.of_nat (length (y :: g1)))%Z by (simpl; lia).
      done.
Qed.

(** What a round does to an entry of a registry with unique paths: the first
    entry of its group keeps its alias, the entry at position [j > 0] of its
    group gets the suffix of [j]. *)
Lemma newAlias_cases (l : list Import) (x : Import) :
  NoDup (map Path l) -> x ∈ l ->
  (exists g2, group (Alias x) l = x :: g2 /\
              newAlias (aliasMapOf l) x = Alias x) \/
  (exists g1 g2, g1 <> [] /\ group (Alias x) l = g1 ++ x :: g2 /\
                 newAlias (aliasMapOf l) x =
                 Alias x +:+ runeString (suffixByte (Z.of_nat (length g1)))).
Proof.
  intros Hnd Hx.
  assert (x ∈ group (Alias x) l) as Hg by (by apply elem_of_group).
  apply list_elem_of_split in Hg as (g1 & g2 & Hsplit).
  assert (NoDup (map Path (g1 ++ x :: g2))) as Hndg.
  { rewrite <- Hsplit. by apply NoDup_paths_filter. }
  unfold newAlias. rewrite aliasMapOf_default, Hsplit.
  destruct g1 as [|y g1].
  - left. exists g2. split; [done|].
    destruct (length ([] ++ x :: g2) =? 1); [done|].
    by rewrite (suffixed_at x [] g2 0).
  - right. exists (y :: g1), g2. split; [done|]. split; [done|].
    replace (length ((y :: g1) ++ x :: g2) =? 1) with false.
    + rewrite suffixed_at by done. simpl length.
      by replace (0 <? 0 + Z.of_nat (S (length g1)))%Z with true
        by (symmetry; apply Z.ltb_lt; lia).
    + symmetry. apply Nat.eqb_neq. rewrite length_app. simpl. lia.
Qed.

Lemma stepImport_grows (l : list Import) (x : Import) :
  NoDup (map Path l) -> x ∈ l -> len x <= len (stepImport l x).
Proof.
  intros Hnd Hx. unfold len. simpl.
  destruct (newAlias_cases l x Hnd Hx) as [(g2 & _ & ->)|(g1 & g2 & _ & _ & ->)]; [done|].
  rewrite length_append. lia.
Qed.

(** An entry whose alias is still short after the round was the first of its
    group and kept its alias. *)
Lemma stepImport_short (c : nat) (l : list Import) (x : Import) :
  NoDup (map Path l) -> x ∈ l ->
  (forall y, y ∈ l -> colliding l y -> c <= len y) ->
  len (stepImport l x) <= c ->
  Alias (stepImport l x) = Alias x /\ exists g2, group (Alias x) l = x :: g2.
Proof.
  intros Hnd Hx Hc Hshort. unfold len in Hshort. simpl in *.
  destruct (newAlias_cases l x Hnd Hx) as [(g2 & Hg & ->)|(g1 & g2 & Hne & Hg & Hnew)].
  - split; [done | by exists g2].
  - exfalso. rewrite Hnew, length_append in Hshort.
    assert (colliding l x) as Hcol.
    { unfold colliding. rewrite Hg, length_app. destruct g1; [done|]. simpl. lia. }
    specialize (Hc x Hx Hcol). unfold len in Hc.
    pose proof (runeString_length (suffixByte (Z.of_nat (length g1)))). lia.
Qed.

Lemma colliding_other (l : list Import) (x : Import) :
  NoDup l -> colliding l x ->
  exists y, y ∈ l /\ y <> x /\ Alias y = Alias x.
Proof.
  intros Hnd Hcol. unfold colliding in Hcol.
  assert (NoDup (group (Alias x) l)) as Hg by (by apply NoDup_filter).
  destruct (group (Alias x) l) as [|u [|v g]] eqn:E; simpl in Hcol; try lia.
  assert (u ∈ group (Alias x) l) as Hu by (rewrite E; left).
  assert (v ∈ group (Alias x) l) as Hv by (rewrite E; right; left).
  apply elem_of_group in Hu as [Hua Hul]. apply elem_of_group in Hv as [Hva Hvl].
  apply NoDup_cons in Hg as [Huv _].
  destruct (decide (u = x)) as [->|Hne].
  - exists v. repeat split; try done. intros ->. apply Huv. left.
  - by exists u.
Qed.

Lemma stepImports_no_short_collision (c : nat) (l : list Import) :
  NoDup (map Path l) ->
  (forall y, y ∈ l -> colliding l y -> c <= len y) ->
  forall x', x' ∈ stepImports l -> colliding (stepImports l) x' -> c + 1 <= len x'.
Proof.
  intros Hnd Hc x' Hx' Hcol.
  destruct (le_lt_dec (len x') c) as [Hshort|]; [exfalso | lia].
  assert (NoDup (stepImports l)) as Hnd'.
  { apply NoDup_paths_NoDup. by rewrite stepImports_paths. }
  destruct (colliding_other _ _ Hnd' Hcol) as (y' & Hy' & Hne & Halias).
  apply list_elem_of_fmap in Hx' as (x & -> & Hx).
  apply list_elem_of_fmap in Hy' as (y & -> & Hy).
  fold (stepImport l x) in *. fold (stepImport l y) in *.
  destruct (stepImport_short c l x Hnd Hx Hc Hshort) as (Hax & gx & Hgx).
  assert (len (stepImport l y) <= c) as Hshorty by (unfold len in *; by rewrite Halias).
  destruct (stepImport_short c l y Hnd Hy Hc Hshorty) as (Hay & gy & Hgy).
  assert (Alias x = Alias y) as Hxy by congruence.
  rewrite Hxy, Hgy in Hgx. injection Hgx as -> _. done.
Qed.

Lemma filter_length_le {A : Type} (P Q : A -> Prop)
    `{!forall x, Decision (P x)} `{!forall x, Decision (Q x)} (l : list A) :
  (forall x, x ∈ l -> P x -> Q x) ->
  length (filter P l) <= length (filter Q l).
Proof.
  induction l as [|y l IH]; intros Himp; [done|].
  assert (length (filter P l) <= length (filter Q l)) as Hle.
  { apply IH. intros x Hx. apply Himp. by right. }
  rewrite !filter_cons. destruct (decide (P y)) as [Hp|Hp].
  - rewrite decide_True by (apply Himp; [left | done]). simpl. lia.
  - destruct (decide (Q y)); simpl; lia.
Qed.

Lemma filter_length_lt {A : Type} (P Q : A -> Prop)
    `{!forall x, Decision (P x)} `{!forall x, Decision (Q x)} (l : list A) (x0 : A) :
  (forall x, x ∈ l -> P x -> Q x) -> x0 ∈ l -> Q x0 -> ~ P x0 ->
  length (filter P l) < length (filter Q l).
Proof.
  induction l as [|y l IH]; intros Himp Hin HQ HP.
  - by apply elem_of_nil in Hin.
  - assert (forall x, x ∈ l -> P x -> Q x) as Himp'.
    { intros x Hx. apply Himp. by right. }
    rewrite !filter_cons. apply elem_of_cons in Hin as [->|Hin].
    + rewrite decide_False, decide_True by done. simpl.
      pose proof (filter_length_le P Q l Himp'). lia.
    + specialize (IH Himp' Hin HQ HP). destruct (decide (P y)) as [Hp|Hp].
      * rewrite decide_True by (apply Himp; [left | done]). simpl. lia.
      * destruct (decide (Q y)); simpl; lia.
Qed.

Lemma filter_map_length {A B : Type} (P : B -> Prop) `{!forall x, Decision (P x)}
    (g : A -> B) (l : list A) :
  length (filter P (map g l)) = length (filter (fun x => P (g x)) l).
Proof.
  induction l as [|y l IH]; [done|].
  simpl. rewrite !filter_cons. destruct (decide (P (g y))); simpl; by rewrite IH.
Qed.

Lemma cnt_mono (k k' : nat) (l : list Import) : k <= k' -> cnt k' l <= cnt k l.
Proof. intros Hk. apply filter_length_le. intros x _ Hx. lia. Qed.

Lemma cnt_step_lt (c : nat) (l : list Import) (x0 : Import) :
  NoDup (map Path l) ->
  (forall y, y ∈ l -> colliding l y -> c <= len y) ->
  x0 ∈ l -> colliding l x0 -> len x0 = c ->
  cnt (c + 1) (stepImports l) < cnt c l.
Proof.
  intros Hnd Hc Hx0 Hcol Hlen. unfold cnt, stepImports.
  rewrite filter_map_length.
  assert (exists h g, group (Alias x0) l = h :: g) as (h & g & Hg).
  { unfold colliding in Hcol. destruct (group (Alias x0) l) as [|h g]; [simpl in Hcol; lia|].
    by exists h, g. }
  assert (h ∈ group (Alias x0) l) as Hh by (rewrite Hg; left).
  apply elem_of_group in Hh as [Hha Hhl].
  apply (filter_length_lt _ _ l h); try done.
  - intros x Hx Hbig. fold (stepImport l x) in Hbig.
    destruct (newAlias_cases l x Hnd Hx) as [(g2 & _ & Hnew)|(g1 & g2 & Hne & Hgx & _)].
    + unfold len in *. simpl in Hbig. rewrite Hnew in Hbig. lia.
    + apply Hc; [done|]. unfold colliding. rewrite Hgx, length_app.
      destruct g1; [done|]. simpl. lia.
  - unfold len in *. rewrite Hha. lia.
  - fold (stepImport l h). unfold len. simpl.
    destruct (newAlias_cases l h Hnd Hhl) as [(g2 & _ & ->)|(g1 & g2 & Hne & Hgh & _)].
    + rewrite Hha. unfold len in Hlen. lia.
    + exfalso. rewrite Hha, Hg in Hgh.
      assert (NoDup (h :: g)) as Hndg.
      { rewrite <- Hg. apply NoDup_filter. by apply NoDup_paths_NoDup. }
      destruct g1 as [|u g1]; [done|]. injection Hgh as <- ->.
      apply NoDup_cons in Hndg as [Hnin _]. apply Hnin.
      apply elem_of_app. right. left.
Qed.

Lemma min_exists {A : Type} (m : A -> nat) (l : list A) :
  l <> [] -> exists x, x ∈ l /\ forall y, y ∈ l -> m x <= m y.
Proof.
  induction l as [|a l IH]; [done|]. intros _.
  destruct l as [|b l].
  - exists a. split; [left|]. intros y Hy. apply list_elem_of_singleton in Hy. by subst.
  - destruct IH as (x & Hx & Hmin); [done|].
    destruct (le_lt_dec (m a) (m x)).
    + exists a. split; [left|]. intros y Hy.
      apply elem_of_cons in Hy as [->|Hy]; [done|]. specialize (Hmin y Hy). lia.
    + exists x. split; [by right|]. intros y Hy.
      apply elem_of_cons in Hy as [->|Hy]; [lia | by apply Hmin].
Qed.

Lemma colliding_min (l : list Import) (a : string) :
  1 < length (group a l) ->
  exists x0, x0 ∈ l /\ colliding l x0 /\
             forall y, y ∈ l -> colliding l y -> len x0 <= len y.
Proof.
  intros Ha.
  assert (filter (colliding l) l <> []) as Hne.
  { destruct (group a l) as [|x g] eqn:Hg; [simpl in Ha; lia|].
    assert (x ∈ group a l) as Hx by (rewrite Hg; left).
    apply elem_of_group in Hx as [Hxa Hxl].
    intros Hnil. apply (filter_nil_not_elem_of (colliding l) l x Hnil); [|done].
    unfold colliding. by rewrite Hxa, Hg. }
  destruct (min_exists len _ Hne) as (x0 & Hx0 & Hmin).
  apply list_elem_of_filter in Hx0 as [Hcol Hx0].
  exists x0. repeat split; try done.
  intros y Hy Hycol. apply Hmin. by apply list_elem_of_filter.
Qed.

Lemma disambiguateLoop_terminates (rangeOrder : MapOrder) (n k : nat) (f : Fake) :
  NoDup (map Path (Imports f)) ->
  (forall y, y ∈ Imports f -> colliding (Imports f) y -> k <= len y) ->
  cnt k (Imports f) <= n ->
  exists f', forall fuel, n < fuel -> disambiguateLoop rangeOrder fuel f = Returned f'.
Proof.
  revert k f. induction n as [|n IH]; intros k f Hnd Hk Hcnt.
  all: destruct (hasDuplicateAliases rangeOrder f) eqn:E.
  all: try (exists f; intros [|fuel] Hfuel; [lia|]; simpl; by rewrite E).
  all: apply hasDuplicateAliases_true in E as Hdup; destruct Hdup as [a Ha].
  all: destruct (colliding_min _ _ Ha) as (x0 & Hx0 & Hcol & Hc).
  all: pose proof (cnt_step_lt (len x0) _ x0 Hnd Hc Hx0 Hcol eq_refl) as Hlt.
  all: pose proof (cnt_mono k (len x0) (Imports f) (Hk x0 Hx0 Hcol)) as Hmono.
  - lia.
  - destruct (IH (len x0 + 1) (realias f)) as [f' Hf'].
    + by rewrite realias_paths.
    + rewrite realias_Imports. by apply stepImports_no_short_collision.
    + rewrite realias_Imports. lia.
    + exists f'. intros [|fuel] Hfuel; [lia|]. simpl. rewrite E. simpl.
      apply Hf'. lia.
Qed.

Lemma disambiguateAliases_terminates (rangeOrder : MapOrder) (f : Fake) :
  NoDup (map Path (Imports f)) ->
  exists f', forall fuel, length (Imports f) < fuel ->
    disambiguateAliases rangeOrder fuel f = Returned f'.
Proof.
  intros Hnd. unfold disambiguateAliases.
  destruct (hasDuplicateAliases rangeOrder (sortImports f)) eqn:E; simpl.
  - destruct (disambiguateLoop_terminates rangeOrder (length (Imports f)) 0 (sortImports f))
      as [f' Hf'].
    + simpl. by rewrite (sortByPath_perm (Imports f)).
    + intros; lia.
    + unfold cnt. etrans; [apply length_filter|]. simpl.
      by rewrite (sortByPath_perm (Imports f)).
    + by exists f'.
  - by exists (sortImports f).
Qed.

(** The paths have to be distinct: on a list that holds the same entry twice
    both copies get the same suffix in every round, and the loop never ends. *)
Lemma stepImports_twice (a p : string) :
  stepImports [ {| Alias := a; Path := p |}; {| Alias := a; Path := p |} ] =
  [ {| Alias := a +:+ "a"; Path := p |}; {| Alias := a +:+ "a"; Path := p |} ].
Proof.
  unfold stepImports, newAlias. simpl map.
  rewrite aliasMapOf_default. simpl Alias.
  rewrite !group_cons. simpl Alias. rewrite !decide_True by done.
  simpl. by rewrite String.eqb_refl.
Qed.

Lemma disambiguateLoop_same_entry_twice (rangeOrder : MapOrder) (fuel : nat) :
  forall (f : Fake) (a p : string),
    Imports f = [ {| Alias := a; Path := p |}; {| Alias := a; Path := p |} ] ->
    disambiguateLoop rangeOrder fuel f = OutOfFuel.
Proof.
  induction fuel as [|fuel IH]; intros f a p Hf; simpl; [done|].
  assert (hasDuplicateAliases rangeOrder f = true) as ->.
  { apply hasDuplicateAliases_true. exists a. rewrite Hf, !group_cons. simpl.
    rewrite !decide_True by done. simpl. lia. }
  simpl. apply (IH _ (a +:+ "a") p).
  by rewrite realias_Imports, Hf, stepImports_twice.
Qed.

(** ** The disambiguation pass: C1, C9 and C2 *)

(** C1: whenever disambiguateAliases returns, no two entries of the import
    list share an alias, and the paths of the entries are the paths before
    the pass, in sorted order: only aliases changed.  On a registry with
    unique paths the pass does return. *)
Theorem disambiguateAliases_unique_aliases (rangeOrder : MapOrder) (f : Fake) :
  (forall fuel f',
     disambiguateAliases rangeOrder fuel f = Returned f' ->
     NoDup (map Alias (Imports f')) /\
     map Path (Imports f') = map Path (sortByPath (Imports f)) /\
     map Path (Imports f') ≡ₚ map Path (Imports f)) /\
  (NoDup (map Path (Imports f)) ->
   exists f', disambiguateAliases rangeOrder (S (length (Imports f))) f = Returned f').
Proof.
  split.
  - intros fuel f' Hrun.
    destruct (disambiguateAliases_post _ _ _ _ Hrun) as (Hnd & Hp & _).
    repeat split; try done.
    rewrite Hp. apply fmap_Permutation, sortByPath_perm.
  - intros Hnd. destruct (disambiguateAliases_terminates rangeOrder f Hnd) as [f' Hf'].
    exists f'. apply Hf'. lia.
Qed.

Lemma disambiguateAliases_unique_aliases_witness :
  NoDup (map Alias (Imports clashingFakeResolved)).
Proof.
  apply (proj1 (disambiguateAliases_unique_aliases inOrder clashingFake)
           5 clashingFakeResolved).
  vm_compute. reflexivity.
Defined.

(** C9: on every import list with distinct paths, whatever the aliases, the
    loop of disambiguateAliases reaches a list without alias collisions
    after at most as many rounds as the list has entries, and the pass has
    no failure path: its outcome is never a panic or an error. *)
Theorem disambiguateAliases_terminates_without_error (rangeOrder : MapOrder) (f : Fake) :
  NoDup (map Path (Imports f)) ->
  (exists f',
      (forall fuel, length (Imports f) < fuel ->
                    disambiguateAliases rangeOrder fuel f = Returned f') /\
      NoDup (map Alias (Imports f')) /\
      hasDuplicateAliases rangeOrder f' = false) /\
  (forall fuel msg, disambiguateAliases rangeOrder fuel f <> Panic msg).
Proof.
  intros Hnd. split.
  - destruct (disambiguateAliases_terminates rangeOrder f Hnd) as [f' Hf'].
    exists f'. split; [done|].
    assert (NoDup (map Alias (Imports f'))) as Hal.
    { eapply disambiguateAliases_post. apply (Hf' (S (length (Imports f)))). lia. }
    split; [done | by apply hasDuplicateAliases_false].
  - intros fuel msg. apply disambiguateAliases_no_panic.
Qed.

Lemma disambiguateAliases_terminates_without_error_witness :
  exists f',
    (forall fuel, length (Imports clashingFake) < fuel ->
                  disambiguateAliases reversed fuel clashingFake = Returned f') /\
    NoDup (map Alias (Imports f')) /\
    hasDuplicateAliases reversed f' = false.
Proof.
  refine (proj1 (disambiguateAliases_terminates_without_error reversed clashingFake _)).
  apply (bool_decide_unpack _). vm_compute. exact I.
Defined.

(** The suffix of the member at position [j] of a group is the [j]-th
    lowercase letter as long as [j <= 26]. *)
Lemma suffix_letter (j : Z) :
  (1 <= j <= 26)%Z ->
  runeString (suffixByte j) = String (byte (Z.to_nat (96 + j))) EmptyString.
Proof.
  intros Hj. unfold suffixByte.
  rewrite (Z.mod_small (j - 1)) by lia.
  rewrite Z.mod_small by lia.
  unfold runeString. replace (97 + (j - 1) <? 128)%Z with true
    by (symmetry; apply Z.ltb_lt; lia).
  simpl. do 3 f_equal. lia.
Qed.

(** In a registry with unique paths, a round gives the letter of its position
    to every entry at a position from 1 to 26 of its group. *)
Lemma newAlias_letter (l : list Import) (x : Import) (g1 g2 : list Import) :
  NoDup (map Path l) -> x ∈ l ->
  group (Alias x) l = g1 ++ x :: g2 -> 1 <= length g1 <= 26 ->
  newAlias (aliasMapOf l) x =
  Alias x +:+ String (byte (96 + length g1)) EmptyString.
Proof.
  intros Hnd Hx Hg Hlen.
  assert (NoDup (map Path (g1 ++ x :: g2))) as Hndg.
  { rewrite <- Hg. by apply NoDup_paths_filter. }
  unfold newAlias. rewrite aliasMapOf_default, Hg.
  replace (length (g1 ++ x :: g2) =? 1) with false
    by (symmetry; apply Nat.eqb_neq; rewrite length_app; simpl; lia).
  rewrite suffixed_at by done.
  replace (0 <? 0 + Z.of_nat (length g1))%Z with true
    by (symmetry; apply Z.ltb_lt; lia).
  rewrite suffix_letter by lia. do 3 f_equal. lia.
Qed.

(** C2 at a group of twenty-eight: the members at positions 1 to 26 get the
    letters [a] to [z], and the member at position 27 gets the byte after
    [z], an opening brace, which is not a lowercase letter. *)
Theorem disambiguateAliases_suffix_after_z :
  exists f',
    disambiguateAliases inOrder 29 namesakesFake = Returned f' /\
    Imports f' !! 1 = Some {| Alias := "v1a"; Path := "example.com/g01/v1" |} /\
    Imports f' !! 26 = Some {| Alias := "v1z"; Path := "example.com/g26/v1" |} /\
    Imports f' !! 27 = Some {| Alias := "v1{"; Path := "example.com/g27/v1" |}.
Proof.
  eexists. split; [vm_compute; reflexivity|]. by vm_compute.
Qed.

(** ** The type renderer: C6 and C5 *)

Lemma importsMapOf_snoc (imports : list Import) (imp : Import) :
  importsMapOf (imports ++ [imp]) = <[Path imp := imp]> (importsMapOf imports).
Proof. unfold importsMapOf. by rewrite foldl_app. Qed.

Lemma importsMapOf_lookup_Some (imports : list Import) (p : string) (imp : Import) :
  importsMapOf imports !! p = Some imp -> imp ∈ imports /\ Path imp = p.
Proof.
  induction imports as [|x imports IH] using rev_ind; [done|].
  rewrite importsMapOf_snoc. destruct (decide (Path x = p)) as [<-|Hne].
  - rewrite lookup_insert_eq. intros [= <-]. split; [|done].
    apply elem_of_app. right. left.
  - rewrite lookup_insert_ne by done. intros H. destruct (IH H) as [Hin Hp].
    split; [|done]. apply elem_of_app. by left.
Qed.

Lemma importsMapOf_lookup_None (imports : list Import) (p : string) :
  importsMapOf imports !! p = None <-> p ∉ map Path imports.
Proof.
  induction imports as [|x imports IH] using rev_ind.
  - split; [intros _; apply not_elem_of_nil | done].
  - rewrite importsMapOf_snoc, map_app, not_elem_of_app. simpl.
    destruct (decide (Path x = p)) as [<-|Hne].
    + rewrite lookup_insert_eq. split; [done|]. intros [_ H]. exfalso. apply H. left.
    + rewrite lookup_insert_ne, IH by done. split; [|by intros [H _]].
      intros H. split; [done|]. intros Hin. apply list_elem_of_singleton in Hin. done.
Qed.



(** ** The method descriptor builder: C4 *)

Lemma isLastOfVariadic_true (sig : types.Sig) (i : nat) :
  isLastOfVariadic sig i = true <->
  S i = length (types.Params sig) /\ types.Variadic sig = true.
Proof.
  unfold isLastOfVariadic. rewrite andb_true_iff, Z.eqb_eq. split.
  - intros [H ?]. split; [lia | done].
  - intros [H ?]. split; [lia | done].
Qed.

Lemma HasPrefix_dots (s : string) : HasPrefix ("..." +:+ s) "[]" = false.
Proof. done. Qed.

Lemma buildParam_Returned (m : gmap string Import) (sig : types.Sig) (i : nat)
    (v : types.Var) (p : Param) :
  buildParam m sig i v = Returned p ->
  ParamName p = "arg" +:+ formatInt (Z.of_nat i + 1) /\
  IsVariadic p = isLastOfVariadic sig i /\
  IsSlice p = HasPrefix (ParamType p) "[]" /\
  (IsVariadic p = false -> ParamType p = typeFor (types.VarType v) m) /\
  (IsVariadic p = true ->
   ParamType p = "..." +:+ sliceFrom (typeFor (types.VarType v) m) 2 /\
   IsSlice p = false).
Proof.
  unfold buildParam. fold (isLastOfVariadic sig i).
  destruct (isLastOfVariadic sig i).
  - destruct (String.length (typeFor (types.VarType v) m) <? 2); [done|].
    simpl. intros [= <-]. simpl. by repeat split.
  - simpl. intros [= <-]. simpl. by repeat split.
Qed.

Lemma buildParams_spec (m : gmap string Import) (sig : types.Sig) (todo : list types.Var) :
  forall (i : nat) (acc ps : list Param),
    buildParams m sig i todo acc = Returned ps ->
    exists ps', ps = acc ++ ps' /\ length ps' = length todo /\
      forall k v, todo !! k = Some v ->
        exists p, ps' !! k = Some p /\ buildParam m sig (i + k) v = Returned p.
Proof.
  induction todo as [|param rest IH]; intros i acc ps; simpl.
  - intros [= <-]. exists []. rewrite app_nil_r. by repeat split.
  - destruct (buildParam m sig i param) as [p| |] eqn:E; simpl; try done.
    intros H. destruct (IH _ _ _ H) as (ps' & -> & Hlen & Hk).
    exists (p :: ps'). rewrite <- app_assoc. repeat split; [simpl; lia|].
    intros [|k] v Hv; simpl in *.
    + injection Hv as <-. exists p. by rewrite Nat.add_0_r.
    + destruct (Hk k v Hv) as (q & Hq & Hb). exists q. split; [done|].
      by replace (i + S k) with (S i + k) by lia.
Qed.

Lemma buildParams_total (m : gmap string Import) (sig : types.Sig) (todo : list types.Var) :
  forall (i : nat) (acc : list Param),
    (forall k v, todo !! k = Some v -> exists p, buildParam m sig (i + k) v = Returned p) ->
    exists ps, buildParams m sig i todo acc = Returned ps.
Proof.
  induction todo as [|param rest IH]; intros i acc Hall; simpl.
  - by eexists.
  - destruct (Hall 0 param eq_refl) as [p Hp]. rewrite Nat.add_0_r in Hp.
    rewrite Hp. simpl. apply IH. intros k v Hv.
    replace (S i + k) with (i + S k) by lia. by apply Hall.
Qed.

Lemma buildReturns_spec (m : gmap string Import) (todo : list types.Var) :
  forall (i : nat) (acc : list Return),
    buildReturns m i todo acc = acc ++ imap (fun k v => buildReturn m (i + k) v) todo.
Proof.
  induction todo as [|ret rest IH]; intros i acc; simpl.
  - by rewrite app_nil_r.
  - rewrite IH, <- app_assoc. simpl. rewrite Nat.add_0_r. do 2 f_equal.
    apply imap_ext. intros k v _. simpl. f_equal. lia.
Qed.

Lemma buildParams_wellFormed (m : gmap string Import) (sig : types.Sig) :
  wellFormedSig sig ->
  exists ps, buildParams m sig 0 (types.Params sig) [] = Returned ps.
Proof.
  intros Hwf. apply buildParams_total. intros k v Hv. simpl.
  unfold buildParam. fold (isLastOfVariadic sig k).
  destruct (isLastOfVariadic sig k) eqn:E; [|by eexists].
  apply isLastOfVariadic_true in E as [Hk Hvar].
  destruct (Hwf Hvar) as (v' & elem & Hlast & Hty).
  rewrite last_lookup, <- Hk in Hlast. simpl in Hlast.
  rewrite Hv in Hlast. injection Hlast as <-. rewrite Hty. simpl. by eexists.
Qed.

Lemma buildMethod_wellFormed (m : gmap string Import) (fakeName : string)
    (sel : types.Selection) :
  wellFormedSig (types.Type' sel) ->
  exists method, buildMethod m fakeName sel = Returned method.
Proof.
  intros Hwf. unfold buildMethod.
  destruct (buildParams_wellFormed m (types.Type' sel) Hwf) as [ps ->]. simpl. by eexists.
Qed.

(** C4, as the specification states it, fails for the last parameter of a
    variadic method: the renderer's text for it begins with the slice marker,
    but IsSlice is computed after the marker was rewritten to the variadic
    marker, and is false. *)
Lemma buildMethod_variadic_counterexample :
  HasPrefix (typeFor (types.Slice (types.Basic "string")) ∅) "[]" = true /\
  buildMethod ∅ "FakeThing" variadicSelection =
  Returned {| FakeName := "FakeThing"; MethodName := "Join";
              Params := [ {| ParamName := "arg1"; ParamType := "...string";
                             IsVariadic := true; IsSlice := false |} ];
              Args := EmptyString; Returns := []; Rets := EmptyString |}.
Proof. by vm_compute. Qed.

(** C4 (amended): the built Params and Returns carry the positional names
    arg1, arg2, ... and result1, result2, ... in declaration order, whatever
    the source names; IsVariadic holds exactly for the last parameter of a
    variadic method; IsSlice holds exactly when the stored type text begins
    with the slice marker.  The stored text of a parameter that is not
    variadic is the renderer's text; that of the variadic parameter is the
    variadic marker followed by the renderer's text without its first two
    bytes, so IsSlice is false for it.  The builder returns for every
    signature whose variadic parameter is a slice. *)
Theorem buildMethod_positional (m : gmap string Import) (fakeName : string)
    (sel : types.Selection) :
  let sig := types.Type' sel in
  (forall method,
     buildMethod m fakeName sel = Returned method ->
     length (Params method) = length (types.Params sig) /\
     length (Returns method) = length (types.Results sig) /\
     (forall i v, types.Params sig !! i = Some v ->
        exists p, Params method !! i = Some p /\
          ParamName p = "arg" +:+ formatInt (Z.of_nat i + 1) /\
          (IsVariadic p = true <->
           S i = length (types.Params sig) /\ types.Variadic sig = true) /\
          IsSlice p = HasPrefix (ParamType p) "[]" /\
          (IsVariadic p = false -> ParamType p = typeFor (types.VarType v) m) /\
          (IsVariadic p = true ->
           ParamType p = "..." +:+ sliceFrom (typeFor (types.VarType v) m) 2 /\
           IsSlice p = false)) /\
     (forall i v, types.Results sig !! i = Some v ->
        Returns method !! i =
        Some {| ReturnName := "result" +:+ formatInt (Z.of_nat i + 1);
                ReturnType := typeFor (types.VarType v) m |})) /\
  (wellFormedSig sig -> exists method, buildMethod m fakeName sel = Returned method).
Proof.
  intros sig. split.
  - intros method. unfold buildMethod. fold sig.
    destruct (buildParams m sig 0 (types.Params sig) []) as [ps| |] eqn:E; simpl; try done.
    intros [= <-]. simpl.
    destruct (buildParams_spec _ _ _ _ _ _ E) as (ps' & -> & Hlen & Hk). simpl.
    rewrite buildReturns_spec. simpl. rewrite length_imap.
    repeat split; try done.
    + intros i v Hv. destruct (Hk i v Hv) as (p & Hp & Hb). simpl in Hb.
      exists p. split; [done|].
      destruct (buildParam_Returned _ _ _ _ _ Hb) as (Hn & Hvar & Hs & Hty & Hty').
      split; [done|]. split; [rewrite Hvar; apply isLastOfVariadic_true|].
      split; [done|]. split; [done|]. exact Hty'.
    + intros i v Hv. rewrite list_lookup_imap, Hv. done.
  - apply buildMethod_wellFormed.
Qed.

Lemma buildMethod_positional_witness :
  Returns getMethod !! 1 =
  Some {| ReturnName := "result" +:+ formatInt (Z.of_nat 1 + 1);
          ReturnType := typeFor (types.Named (Some {| types.ObjName := "error";
                                                      types.Pkg := None |})) ∅ |}.
Proof.
  apply (proj2 (proj2 (proj2
           (proj1 (buildMethod_positional ∅ "FakeThing" getSelection) getMethod
                  ltac:(by vm_compute))))
           1 {| types.VarName := "err";
                types.VarType :=
                  types.Named (Some {| types.ObjName := "error"; types.Pkg := None |}) |}).
  reflexivity.
Defined.

(** ** Generate *)

Lemma AddImport_Imports (alias path : string) (f : Fake) :
  Imports (fst (AddImport alias path f)) = fst (addImport alias path (Imports f)).
Proof. done. Qed.

Lemma addImportsFor_prefix (t : types.Type_) :
  forall f, exists extra, Imports (addImportsFor t f) = Imports f ++ extra.
Proof.
  induction t as [|name|n t IH|t IH| |t IH| | | |k IHk v IHv|d t IH|obj]; intros f; simpl;
    try (exists []; by rewrite app_nil_r); try apply IH.
  - destruct (IHk f) as [e1 H1]. destruct (IHv (addImportsFor k f)) as [e2 H2].
    exists (e1 ++ e2). by rewrite H2, H1, app_assoc.
  - destruct obj as [o|]; [|exists []; by rewrite app_nil_r].
    destruct (types.Pkg o) as [pkg|]; [|exists []; by rewrite app_nil_r].
    apply addImport_prefix.
Qed.

Lemma addImportsFor_NoDup (t : types.Type_) :
  forall f, NoDup (map Path (Imports f)) ->
            NoDup (map Path (Imports (addImportsFor t f))).
Proof.
  induction t as [|name|n t IH|t IH| |t IH| | | |k IHk v IHv|d t IH|obj]; intros f Hnd; simpl;
    try done; try by apply IH.
  - by apply IHv, IHk.
  - destruct obj as [o|]; [|done]. destruct (types.Pkg o) as [pkg|]; [|done].
    by apply addImport_NoDup.
Qed.

Lemma addImportsFor_Interface (t : types.Type_) :
  forall f, Interface (addImportsFor t f) = Interface f /\
            Name (addImportsFor t f) = Name f.
Proof.
  induction t as [|name|n t IH|t IH| |t IH| | | |k IHk v IHv|d t IH|obj]; intros f; simpl;
    try done; try apply IH.
  - destruct (IHv (addImportsFor k f)) as [-> ->]. apply IHk.
  - destruct obj as [o|]; [|done]. by destruct (types.Pkg o).
Qed.

Lemma extends_refl (f : Fake) : extends f f.
Proof. split; [exists []; by rewrite app_nil_r | done]. Qed.

Lemma extends_trans (f g h : Fake) : extends f g -> extends g h -> extends f h.
Proof.
  intros ([e1 H1] & Hn1 & Hi1 & Hm1) ([e2 H2] & Hn2 & Hi2 & Hm2).
  split; [exists (e1 ++ e2); by rewrite H2, H1, app_assoc|].
  split; [tauto|]. split; congruence.
Qed.

Lemma addImportsFor_extends (t : types.Type_) (f : Fake) :
  extends f (addImportsFor t f).
Proof.
  split; [apply addImportsFor_prefix|]. split; [apply addImportsFor_NoDup|].
  apply addImportsFor_Interface.
Qed.

Lemma addImportsForVars_extends (vars : list types.Var) :
  forall f, extends f (addImportsForVars vars f).
Proof.
  unfold addImportsForVars.
  induction vars as [|v vars IH]; intros f; simpl; [apply extends_refl|].
  eapply extends_trans; [apply addImportsFor_extends | apply IH].
Qed.

Lemma addImportsForMethods_extends (methods : list types.Selection) :
  forall f, extends f (addImportsForMethods methods f).
Proof.
  unfold addImportsForMethods.
  induction methods as [|m methods IH]; intros f; simpl; [apply extends_refl|].
  eapply extends_trans; [|apply IH].
  eapply extends_trans; apply addImportsForVars_extends.
Qed.

Lemma buildMethods_Imports (m : gmap string Import) (todo : list types.Selection) :
  forall f f', buildMethods m todo f = Returned f' ->
               Imports f' = Imports f /\ Name f' = Name f.
Proof.
  induction todo as [|sel todo IH]; intros f f'; simpl.
  - by intros [= <-].
  - destruct (buildMethod m (Name f) sel) as [method| |]; simpl; try done.
    intros H. by destruct (IH _ _ H) as [-> ->].
Qed.

Lemma buildMethods_total (m : gmap string Import) (todo : list types.Selection) :
  Forall (fun sel => wellFormedSig (types.Type' sel)) todo ->
  forall f, exists f', buildMethods m todo f = Returned f'.
Proof.
  induction 1 as [|sel todo Hwf _ IH]; intros f; simpl; [by eexists|].
  destruct (buildMethod_wellFormed m (Name f) sel Hwf) as [method ->].
  simpl. apply IH.
Qed.

Lemma disambiguateLoop_order (o1 o2 : MapOrder) (fuel : nat) (f : Fake) :
  disambiguateLoop o1 fuel f = disambiguateLoop o2 fuel f.
Proof.
  revert f. induction fuel as [|fuel IH]; intros f; simpl; [done|].
  rewrite (hasDuplicateAliases_order o1 o2). by rewrite IH.
Qed.

Lemma disambiguateAliases_order (o1 o2 : MapOrder) (fuel : nat) (f : Fake) :
  disambiguateAliases o1 fuel f = disambiguateAliases o2 fuel f.
Proof.
  unfold disambiguateAliases.
  by rewrite (hasDuplicateAliases_order o1 o2), (disambiguateLoop_order o1 o2).
Qed.

Lemma disambiguateLoop_fuel (o : MapOrder) (fuel fuel' : nat) (f f' : Fake) :
  disambiguateLoop o fuel f = Returned f' -> fuel <= fuel' ->
  disambiguateLoop o fuel' f = Returned f'.
Proof.
  revert fuel' f. induction fuel as [|fuel IH]; intros fuel' f; simpl; [done|].
  intros H Hle. destruct fuel' as [|fuel']; [lia|]. simpl.
  destruct (hasDuplicateAliases o f); simpl in *; [|done].
  apply IH; [done | lia].
Qed.

Lemma disambiguateAliases_fuel (o : MapOrder) (fuel fuel' : nat) (f f1 f2 : Fake) :
  disambiguateAliases o fuel f = Returned f1 ->
  disambiguateAliases o fuel' f = Returned f2 -> f1 = f2.
Proof.
  unfold disambiguateAliases.
  destruct (hasDuplicateAliases o (sortImports f)); simpl; [|congruence].
  intros H1 H2. destruct (le_ge_dec fuel fuel') as [Hle|Hle].
  - rewrite (disambiguateLoop_fuel _ _ _ _ _ H1 Hle) in H2. congruence.
  - rewrite (disambiguateLoop_fuel _ _ _ _ _ H2 Hle) in H1. congruence.
Qed.

Section GenerateFacts.

Variable lowerFirstRune : string -> string.
Variable importsProcess : string -> string * option error.

Lemma Generate_order (o1 o2 : MapOrder) (fuel : nat) (runImports : bool) (f : Fake) :
  Generate o1 lowerFirstRune importsProcess fuel runImports f =
  Generate o2 lowerFirstRune importsProcess fuel runImports f.
Proof.
  unfold Generate, importsMap. destruct (Interface f); [|done].
  by rewrite (disambiguateAliases_order o1 o2).
Qed.

Lemma Generate_fuel (o : MapOrder) (fuel fuel' : nat) (runImports : bool)
    (f : Fake) (r r' : Fake * (string * option error)) :
  Generate o lowerFirstRune importsProcess fuel runImports f = Returned r ->
  Generate o lowerFirstRune importsProcess fuel' runImports f = Returned r' ->
  r = r'.
Proof.
  unfold Generate, importsMap. destruct (Interface f) as [iface|]; [|done].
  set (f0 := addImportsForMethods (types.IntuitiveMethodSet iface) f).
  destruct (disambiguateAliases o fuel f0) as [f1| |] eqn:E1; simpl; try done.
  destruct (disambiguateAliases o fuel' f0) as [f2| |] eqn:E2; simpl; try done.
  rewrite (disambiguateAliases_fuel _ _ _ _ _ _ E1 E2). congruence.
Qed.

(** With the formatter off, Generate has no error to return. *)
Lemma Generate_raw_no_error (o : MapOrder) (fuel : nat) (f f' : Fake)
    (b : string) (err : option error) :
  Generate o lowerFirstRune importsProcess fuel false f = Returned (f', (b, err)) ->
  err = None.
Proof.
  unfold Generate. destruct (Interface f) as [iface|]; [|done].
  destruct (importsMap _ _ _) as [r| |]; simpl; try done.
  destruct (buildMethods _ _ _) as [g| |]; simpl; try done.
  by intros [= _ _ <-].
Qed.

(** Generate returns on every fake with an interface, unique registry
    paths and signatures as go/types builds them, given fuel for the
    rounds of the disambiguation. *)
Lemma Generate_returns (o : MapOrder) (f : Fake) (iface : types.TypeName) :
  Interface f = Some iface ->
  NoDup (map Path (Imports f)) ->
  Forall (fun sel => wellFormedSig (types.Type' sel)) (types.IntuitiveMethodSet iface) ->
  exists f' b,
    forall fuel,
      length (Imports (addImportsForMethods (types.IntuitiveMethodSet iface) f)) < fuel ->
      Generate o lowerFirstRune importsProcess fuel false f = Returned (f', (b, None)).
Proof.
  intros Hi Hnd Hwf. unfold Generate, importsMap. rewrite Hi.
  set (f0 := addImportsForMethods (types.IntuitiveMethodSet iface) f).
  assert (NoDup (map Path (Imports f0))) as Hnd0.
  { by apply (addImportsForMethods_extends (types.IntuitiveMethodSet iface) f). }
  destruct (disambiguateAliases_terminates o f0 Hnd0) as [f1 Hf1].
  destruct (buildMethods_total (importsMapOf (Imports f1)) _ Hwf f1) as [f2 Hf2].
  exists f2, (executeTemplate lowerFirstRune f2). intros fuel Hfuel.
  rewrite (Hf1 fuel Hfuel). simpl. by rewrite Hf2.
Qed.

(** The registry after Generate holds the paths it held before. *)
Lemma Generate_keeps_paths (o : MapOrder) (fuel : nat) (runImports : bool)
    (f f' : Fake) (out : string * option error) (p : string) :
  Generate o lowerFirstRune importsProcess fuel runImports f = Returned (f', out) ->
  p ∈ map Path (Imports f) -> p ∈ map Path (Imports f').
Proof.
  unfold Generate, importsMap. destruct (Interface f) as [iface|]; [|done].
  set (f0 := addImportsForMethods (types.IntuitiveMethodSet iface) f).
  destruct (disambiguateAliases o fuel f0) as [f1| |] eqn:E1; simpl; try done.
  destruct (buildMethods _ _ f1) as [f2| |] eqn:E2; simpl; try done.
  intros Hret Hp.
  assert (f' = f2) as -> by (destruct runImports; congruence).
  destruct (buildMethods_Imports _ _ _ _ E2) as [-> _].
  destruct (disambiguateAliases_post _ _ _ _ E1) as (_ & Hpaths & _).
  rewrite Hpaths, (sortByPath_perm (Imports f0)).
  destruct (addImportsForMethods_extends (types.IntuitiveMethodSet iface) f)
    as ([extra Hext] & _).
  fold f0 in Hext. rewrite Hext, map_app. apply elem_of_app. by left.
Qed.

End GenerateFacts.

(** ** Generation on concrete interfaces: C5, C7, C8 and C10 *)

(** C5, as the specification states it, fails: the parameter of [Any] has a
    shape without a case in typeFor; the renderer returns the empty text for
    it and Generate returns the buffer with a nil error. *)
Lemma Generate_unhandled_counterexample :
  typeFor types.Interface ∅ = EmptyString /\
  returnedError (generateThing inOrder 5 anyInterface) = Some None /\
  builtMethods (generateThing inOrder 5 anyInterface) =
    [ {| FakeName := "FakeThing"; MethodName := "Any";
         Params := [ {| ParamName := "arg1"; ParamType := EmptyString;
                        IsVariadic := false; IsSlice := false |} ];
         Args := EmptyString; Returns := []; Rets := EmptyString |} ] /\
  contains (rawText (generateThing inOrder 5 anyInterface))
           "func (fake *FakeThing) Any(arg1 )" = true.
Proof. by vm_compute. Qed.

(** C5 (amended): for every descriptor of a shape without a case, typeFor
    returns the empty text and addImportsFor registers nothing; no error is
    raised.  Generate with the formatter off never returns an error, and it
    returns on every fake with an interface, unique registry paths and
    well-formed signatures, whatever the shapes of the types in them. *)
Theorem typeFor_unhandled_is_empty (rangeOrder : MapOrder)
    (lowerFirstRune : string -> string)
    (importsProcess : string -> string * option error) :
  (forall t m, unhandledShape t = true -> typeFor t m = EmptyString) /\
  (forall t f, unhandledShape t = true -> addImportsFor t f = f) /\
  (forall fuel f f' b err,
     Generate rangeOrder lowerFirstRune importsProcess fuel false f
       = Returned (f', (b, err)) -> err = None) /\
  (forall f iface,
     Interface f = Some iface ->
     NoDup (map Path (Imports f)) ->
     Forall (fun sel => wellFormedSig (types.Type' sel)) (types.IntuitiveMethodSet iface) ->
     exists f' b,
       forall fuel,
         length (Imports (addImportsForMethods (types.IntuitiveMethodSet iface) f)) < fuel ->
         Generate rangeOrder lowerFirstRune importsProcess fuel false f
           = Returned (f', (b, None))).
Proof.
  split; [by intros [] m|]. split; [by intros [] f|].
  split; [apply Generate_raw_no_error | apply Generate_returns].
Qed.

Lemma typeFor_unhandled_is_empty_witness :
  typeFor types.Signature (importsMapOf (Imports seedFake)) = EmptyString.
Proof.
  apply (proj1 (typeFor_unhandled_is_empty inOrder asciiNames noFormatter)).
  reflexivity.
Defined.

(** C7 at an interface with a receive-only channel: the template is run by
    html/template, whose escaper rewrites the arrow of the rendered type, so
    the raw buffer does not hold the type [<-chan int] anywhere and declares
    the stub with the text [&lt;-chan int], which is not Go. *)
Theorem Generate_raw_channel_arrow_escaped :
  returnedError (generateThing inOrder 5 recvInterface) = Some None /\
  map Returns (builtMethods (generateThing inOrder 5 recvInterface)) =
    [ [ {| ReturnName := "result1"; ReturnType := "<-chan int" |} ] ] /\
  contains (rawText (generateThing inOrder 5 recvInterface)) "<-chan int" = false /\
  contains (rawText (generateThing inOrder 5 recvInterface))
           "RecvStub func() &lt;-chan int" = true /\
  contains (rawText (generateThing inOrder 5 recvInterface))
           "func (fake *FakeThing) Recv() &lt;-chan int {" = true.
Proof. by vm_compute. Qed.

Lemma Generate_fuel_mono (o : MapOrder) (lowerFirstRune : string -> string)
    (importsProcess : string -> string * option error) (fuel fuel' : nat)
    (runImports : bool) (f : Fake) (r : Fake * (string * option error)) :
  Generate o lowerFirstRune importsProcess fuel runImports f = Returned r ->
  fuel <= fuel' ->
  Generate o lowerFirstRune importsProcess fuel' runImports f = Returned r.
Proof.
  unfold Generate, importsMap, disambiguateAliases.
  destruct (Interface f) as [iface|]; [|done].
  set (f0 := sortImports (addImportsForMethods (types.IntuitiveMethodSet iface) f)).
  destruct (hasDuplicateAliases o f0); simpl; [|done].
  destruct (disambiguateLoop o fuel f0) as [f1| |] eqn:E; simpl; try done.
  intros H Hle. by rewrite (disambiguateLoop_fuel _ _ _ _ _ E Hle).
Qed.

(** C8: generation is deterministic.  The one place where a run of Generate
    has a choice is the order in which the range loop of hasDuplicateAliases
    visits the alias map, and the outcome does not depend on it: two runs on
    the same fake agree, whatever orders they pick, and whenever both
    return, they return the same fake, the same bytes and the same error. *)
Theorem Generate_deterministic (o1 o2 : MapOrder)
    (lowerFirstRune : string -> string)
    (importsProcess : string -> string * option error)
    (runImports : bool) (f : Fake) :
  (forall fuel,
     Generate o1 lowerFirstRune importsProcess fuel runImports f =
     Generate o2 lowerFirstRune importsProcess fuel runImports f) /\
  (forall fuel1 fuel2 r1 r2,
     Generate o1 lowerFirstRune importsProcess fuel1 runImports f = Returned r1 ->
     Generate o2 lowerFirstRune importsProcess fuel2 runImports f = Returned r2 ->
     r1 = r2) /\
  (forall fuel1 fuel2 r,
     Generate o1 lowerFirstRune importsProcess fuel1 runImports f = Returned r ->
     fuel1 <= fuel2 ->
     Generate o2 lowerFirstRune importsProcess fuel2 runImports f = Returned r).
Proof.
  split; [intros fuel; apply Generate_order|]. split.
  - intros fuel1 fuel2 r1 r2 H1 H2.
    rewrite (Generate_order _ _ o1 o2) in H1 || rewrite (Generate_order _ _ o2 o1) in H2.
    eapply Generate_fuel; eassumption.
  - intros fuel1 fuel2 r H Hle. rewrite (Generate_order _ _ o2 o1).
    by apply (Generate_fuel_mono _ _ _ fuel1).
Qed.

Lemma Generate_deterministic_witness :
  Generate reversed asciiNames noFormatter 9 false (thingFake podInterface)
  = Returned podGenerated.
Proof.
  apply (proj2 (proj2 (Generate_deterministic inOrder reversed asciiNames noFormatter
                         false (thingFake podInterface))) 4 9 podGenerated).
  - vm_compute. reflexivity.
  - lia.
Defined.

(** ** NewFake: C10 *)

Lemma append_assoc (a b c : string) : (a +:+ b) +:+ c = a +:+ (b +:+ c).
Proof.
  induction a as [|x a IH]; [reflexivity|].
  change (String x ((a +:+ b) +:+ c) = String x (a +:+ (b +:+ c))). by rewrite IH.
Qed.

Lemma append_nil_r (a : string) : a +:+ EmptyString = a.
Proof.
  induction a as [|x a IH]; [reflexivity|].
  change (String x (a +:+ EmptyString) = String x a). by rewrite IH.
Qed.

Lemma cat_cons (x : string) (xs : list string) : cat (x :: xs) = x +:+ cat xs.
Proof. unfold cat. destruct xs; simpl; [by rewrite append_nil_r | done]. Qed.

Lemma cat_app (xs ys : list string) : cat (xs ++ ys) = cat xs +:+ cat ys.
Proof.
  induction xs as [|x xs IH]; [done|].
  rewrite <- app_comm_cons, !cat_cons, IH. by rewrite append_assoc.
Qed.

Lemma holds_after (a s x : string) : holds s x -> holds (a +:+ s) x.
Proof.
  intros (pre & post & ->). exists (a +:+ pre), post. by rewrite append_assoc.
Qed.

Lemma holds_before (s r x : string) : holds s x -> holds (s +:+ r) x.
Proof.
  intros (pre & post & ->). exists pre, (post +:+ r). by rewrite !append_assoc.
Qed.

Lemma holds_cat_map {A : Type} (g : A -> string) (l : list A) (a : A) :
  a ∈ l -> holds (cat (map g l)) (g a).
Proof.
  intros Hin. apply list_elem_of_split in Hin as (l1 & l2 & ->).
  rewrite map_app, cat_app. simpl. rewrite cat_cons.
  by exists (cat (map g l1)), (cat (map g l2)).
Qed.

Lemma executeTemplate_import_line (lowerFirstRune : string -> string) (f : Fake)
    (imp : Import) :
  imp ∈ Imports f -> holds (executeTemplate lowerFirstRune f) (importLine imp).
Proof.
  intros Hin. unfold executeTemplate.
  do 9 (rewrite cat_cons; apply holds_after).
  rewrite cat_cons. apply holds_before.
  by apply (holds_cat_map importLine).
Qed.

Lemma findPackageWithInterface_Imports (f f' : Fake) (err : option error) :
  findPackageWithInterface f = (f', err) ->
  exists extra, Imports f' = Imports f ++ extra.
Proof.
  unfold findPackageWithInterface.
  destruct (findInPackages _ _ _) as [[pkg|] [iface|]]; intros [= <- _];
    try (exists []; by rewrite app_nil_r).
  apply addImport_prefix.
Qed.

Lemma addImport_length (alias path : string) (imports : list Import) :
  length (fst (addImport alias path imports)) <= S (length imports).
Proof.
  unfold addImport. destruct (findPath _ imports); simpl; [lia|].
  rewrite length_app. simpl. lia.
Qed.

Lemma addImportsFor_length (t : types.Type_) :
  forall f, length (Imports (addImportsFor t f)) <=
            length (Imports f) + length (packagePaths t).
Proof.
  induction t as [|name|n t IH|t IH| |t IH| | | |k IHk v IHv|d t IH|obj];
    intros f; simpl; try lia; try apply IH.
  - rewrite length_app. specialize (IHk f). specialize (IHv (addImportsFor k f)). lia.
  - destruct obj as [o|]; [|lia]. destruct (types.Pkg o) as [pkg|]; [|lia].
    simpl. pose proof (addImport_length (types.Name pkg) (types.Path pkg) (Imports f)).
    lia.
Qed.

Lemma addImportsForVars_length (vars : list types.Var) :
  forall f, length (Imports (addImportsForVars vars f)) <=
            length (Imports f) + length (varsPaths vars).
Proof.
  unfold addImportsForVars, varsPaths.
  induction vars as [|v vars IH]; intros f; simpl; [lia|].
  rewrite length_app. specialize (IH (addImportsFor (types.VarType v) f)).
  pose proof (addImportsFor_length (types.VarType v) f). lia.
Qed.

Lemma addImportsForMethods_length (methods : list types.Selection) :
  forall f, length (Imports (addImportsForMethods methods f)) <=
            length (Imports f) + length (methodSetPaths methods).
Proof.
  unfold addImportsForMethods, methodSetPaths.
  induction methods as [|m methods IH]; intros f; simpl; [lia|].
  rewrite !length_app.
  specialize (IH (addImportsForVars (types.Params (types.Type' m))
                    (addImportsForVars (types.Results (types.Type' m)) f))).
  pose proof (addImportsForVars_length (types.Params (types.Type' m))
                (addImportsForVars (types.Results (types.Type' m)) f)).
  pose proof (addImportsForVars_length (types.Results (types.Type' m)) f).
  lia.
Qed.

(** The fake that NewFake returns. *)
Lemma NewFake_shape
    (packagesLoad : string -> list packages.Package * option error)
    (interfaceName packagePath fakeName destinationPackage : string)
    (f : Fake) (err : option error) :
  NewFake packagesLoad interfaceName packagePath fakeName destinationPackage
    = (Some f, err) ->
  exists p tn,
    Interface f = Some tn /\
    InterfaceAlias f = packages.Name p /\
    InterfacePackage f = unvendor (packages.PkgPath p) /\
    Imports f = fst (addImport (packages.Name p) (unvendor (packages.PkgPath p))
                               [syncImport]) /\
    Methods f = [] /\ Name f = fakeName.
Proof.
  unfold NewFake, loadPackages.
  destruct (packagesLoad packagePath) as [pkgs [e|]]; [done|].
  unfold findPackageWithInterface. simpl.
  destruct (findInPackages interfaceName pkgs None) as [[p|] [tn|]]; try done.
  intros [= <- <-]. by exists p, tn.
Qed.

(** C10: every fake that NewFake returns has the entry with alias [sync] and
    path [sync] as the first entry of its import list, and has an interface.
    The registry keeps the path [sync] through Generate, and the import
    block of the raw text that Generate returns has a line for that path;
    and Generate does return, with a nil error and such a text, for an
    interface whose signatures are as go/types builds them, whatever the
    order of the range over the alias map, as soon as the disambiguation
    has more rounds than two plus the number of named types with a package
    in the method set. *)
Theorem NewFake_seeds_sync
    (packagesLoad : string -> list packages.Package * option error)
    (interfaceName packagePath fakeName destinationPackage : string)
    (f : Fake) (err : option error) :
  NewFake packagesLoad interfaceName packagePath fakeName destinationPackage
    = (Some f, err) ->
  head (Imports f) = Some syncImport /\
  syncImport ∈ Imports f /\
  (forall rangeOrder lowerFirstRune importsProcess fuel runImports f' out,
     Generate rangeOrder lowerFirstRune importsProcess fuel runImports f
       = Returned (f', out) ->
     exists imp, imp ∈ Imports f' /\ Path imp = "sync" /\
       (runImports = false -> holds (fst out) (importLine imp))) /\
  (exists iface, Interface f = Some iface) /\
  (forall iface lowerFirstRune importsProcess,
     Interface f = Some iface ->
     Forall (fun sel => wellFormedSig (types.Type' sel))
            (types.IntuitiveMethodSet iface) ->
     exists f' b imp,
       (forall rangeOrder fuel,
          2 + length (methodSetPaths (types.IntuitiveMethodSet iface)) < fuel ->
          Generate rangeOrder lowerFirstRune importsProcess fuel false f
            = Returned (f', (b, None))) /\
       imp ∈ Imports f' /\ Path imp = "sync" /\ holds b (importLine imp)).
Proof.
  intros Hnew.
  destruct (NewFake_shape _ _ _ _ _ _ _ Hnew) as (p & tn & Hi & _ & _ & Himp & _).
  destruct (addImport_prefix (packages.Name p) (unvendor (packages.PkgPath p))
              [syncImport]) as [extra Hext].
  rewrite Hext in Himp.
  assert (syncImport ∈ Imports f) as Hin by (rewrite Himp; left).
  assert (forall rangeOrder lowerFirstRune importsProcess fuel runImports f' out,
            Generate rangeOrder lowerFirstRune importsProcess fuel runImports f
              = Returned (f', out) ->
            exists imp, imp ∈ Imports f' /\ Path imp = "sync" /\
              (runImports = false -> holds (fst out) (importLine imp))) as Hkeeps.
  { intros o lower process fuel run f' out Hgen.
    assert ("sync" ∈ map Path (Imports f')) as Hp.
    { eapply Generate_keeps_paths; [eassumption|].
      apply list_elem_of_fmap. by exists syncImport. }
    apply list_elem_of_fmap in Hp as (imp & Hpath & Hmem).
    exists imp. repeat split; try done.
    intros ->. revert Hgen. unfold Generate.
    destruct (Interface f); [|done].
    destruct (importsMap _ _ _) as [r| |]; simpl; try done.
    destruct (buildMethods _ _ _) as [h| |]; simpl; try done.
    intros [= <- <-]. simpl. by apply executeTemplate_import_line. }
  split; [by rewrite Himp|]. split; [done|]. split; [exact Hkeeps|].
  split; [by exists tn|].
  intros iface lower process Hi' Hwf.
  assert (NoDup (map Path (Imports f))) as Hnd.
  { rewrite Himp, <- Hext. apply addImport_NoDup.
    apply (bool_decide_unpack _). by vm_compute. }
  assert (length (Imports f) <= 2) as Hlen.
  { rewrite Himp, <- Hext. apply (addImport_length _ _ [syncImport]). }
  destruct (Generate_returns lower process inOrder f iface Hi' Hnd Hwf)
    as (f' & b & Hret).
  pose proof (addImportsForMethods_length (types.IntuitiveMethodSet iface) f) as Hbound.
  assert (Generate inOrder lower process
            (3 + length (methodSetPaths (types.IntuitiveMethodSet iface))) false f
          = Returned (f', (b, None))) as Hone by (apply Hret; lia).
  destruct (Hkeeps _ _ _ _ _ _ _ Hone) as (imp & Hmem & Hpath & Hline).
  exists f', b, imp. split; [|by auto].
  intros o fuel Hfuel. rewrite (Generate_order _ _ o inOrder). apply Hret. lia.
Qed.

Lemma NewFake_seeds_sync_witness :
  head (Imports (thingFake podInterface)) = Some syncImport /\
  exists f' b imp,
    (forall rangeOrder fuel,
       2 + length (methodSetPaths (types.IntuitiveMethodSet podInterface)) < fuel ->
       Generate rangeOrder asciiNames noFormatter fuel false (thingFake podInterface)
         = Returned (f', (b, None))) /\
    imp ∈ Imports f' /\ Path imp = "sync" /\ holds b (importLine imp).
Proof.
  destruct (NewFake_seeds_sync (loadThing podInterface) "Thing" "example.com/thing"
              "FakeThing" "thingfakes" (thingFake podInterface) None eq_refl)
    as (Hhead & _ & _ & _ & Hgen).
  split; [exact Hhead|].
  apply (Hgen podInterface asciiNames noFormatter); [reflexivity|].
  repeat constructor; intros Hv; discriminate Hv.
Defined.

(** * Further properties of the code *)

(** ** unvendor *)

Lemma prefix_nil (s : string) : String.prefix EmptyString s = true.
Proof. by destruct s. Qed.

Lemma prefix_app (p t : string) : String.prefix p (p +:+ t) = true.
Proof.
  induction p as [|c p IH]; [apply prefix_nil|].
  change (String.prefix (String c p) (String c (p +:+ t)) = true).
  simpl. by destruct (ascii_dec c c).
Qed.

Lemma prefix_split (p s : string) :
  String.prefix p s = true -> s = p +:+ sliceFrom s (String.length p).
Proof.
  revert s. induction p as [|c p IH]; intros s H; [by destruct s|].
  destruct s as [|d s]; [done|]. simpl in H.
  destruct (ascii_dec c d) as [->|]; [|done].
  change (String d s = String d (p +:+ sliceFrom s (String.length p))).
  f_equal. by apply IH.
Qed.

Lemma sliceFrom_app (p t : string) : sliceFrom (p +:+ t) (String.length p) = t.
Proof. induction p as [|c p IH]; [by destruct t | exact IH]. Qed.

Lemma sliceFrom_nil (n : nat) : sliceFrom EmptyString n = EmptyString.
Proof. by destruct n. Qed.

Lemma sliceFrom_add (s : string) (a b : nat) :
  sliceFrom s (a + b) = sliceFrom (sliceFrom s a) b.
Proof.
  revert s. induction a as [|a IH]; intros s; [by destruct s|].
  destruct s as [|c s]; simpl; [by destruct b | apply IH].
Qed.

Lemma contains_cons_false (c : ascii) (s sep : string) :
  contains (String c s) sep = false -> contains s sep = false.
Proof. simpl. intros H. by apply orb_false_iff in H as [_ H]. Qed.

Lemma contains_app_r (a b sep : string) :
  contains b sep = true -> contains (a +:+ b) sep = true.
Proof.
  intros H. induction a as [|c a IH]; [done|].
  change (contains (String c (a +:+ b)) sep = true). simpl.
  rewrite IH. apply orb_true_r.
Qed.

Lemma contains_prefix (s sep : string) :
  String.prefix sep s = true -> contains s sep = true.
Proof. intros H. destruct s; unfold contains; fold contains; by rewrite H. Qed.

(** A string without an occurrence has none at any offset. *)
Lemma contains_false_sliceFrom (s sep : string) (j : nat) :
  contains s sep = false -> String.prefix sep (sliceFrom s j) = false.
Proof.
  revert s. induction j as [|j IH]; intros s H.
  - destruct s; simpl in *; by apply orb_false_iff in H as [H _].
  - destruct s as [|c s]; simpl.
    + simpl in H. by apply orb_false_iff in H as [H _].
    + apply IH. by apply (contains_cons_false c).
Qed.

Lemma lastIndexFrom_none (sep s : string) (i found : Z) :
  contains s sep = false -> lastIndexFrom sep s i found = found.
Proof.
  revert i found. induction s as [|c s IH]; intros i found H; simpl in *.
  - apply orb_false_iff in H as [-> _]. done.
  - apply orb_false_iff in H as [-> H]. by apply IH.
Qed.

Lemma lastIndexFrom_cons (sep : string) (c : ascii) (s : string) (i found : Z) :
  lastIndexFrom sep (String c s) i found =
  lastIndexFrom sep s (i + 1) (if String.prefix sep (String c s) then i else found).
Proof. done. Qed.

Lemma contains_cons (c : ascii) (s sep : string) :
  contains (String c s) sep = String.prefix sep (String c s) || contains s sep.
Proof. done. Qed.

(** The index that LastIndex finds is that of an occurrence after which
    there is no other. *)
Lemma lastIndexFrom_some (sep s : string) :
  forall (i found : Z),
    contains s sep = true ->
    exists k : nat,
      lastIndexFrom sep s i found = (i + Z.of_nat k)%Z /\
      String.prefix sep (sliceFrom s k) = true /\
      match sliceFrom s k with
      | String _ rest => contains rest sep = false
      | EmptyString => True
      end.
Proof.
  induction s as [|c s IH]; intros i found H.
  - exists 0. simpl in *. apply orb_true_iff in H as [H|H]; [|done].
    rewrite H. split; [lia | done].
  - destruct (contains s sep) eqn:E.
    + destruct (IH (i + 1)%Z (if String.prefix sep (String c s) then i else found) eq_refl)
        as (k & Hk & Hp & Ht).
      exists (S k). split; [|done]. rewrite lastIndexFrom_cons, Hk. lia.
    + exists 0. rewrite contains_cons, E, orb_false_r in H.
      rewrite lastIndexFrom_cons, H, (lastIndexFrom_none _ _ _ _ E).
      split; [lia|]. by split.
Qed.

Lemma unvendor_cases (s : string) :
  (exists (k : nat) (r : string),
      sliceFrom s k = "/vendor/" +:+ r /\
      contains ("vendor/" +:+ r) "/vendor/" = false /\ unvendor s = r) \/
  (contains s "/vendor/" = false /\
   exists r, s = "vendor/" +:+ r /\ unvendor s = r) \/
  (contains s "/vendor/" = false /\ HasPrefix s "vendor/" = false /\ unvendor s = s).
Proof.
  unfold unvendor, LastIndex. destruct (contains s "/vendor/") eqn:E.
  - left. destruct (lastIndexFrom_some "/vendor/" s 0 (-1) E) as (k & -> & Hp & Ht).
    apply prefix_split in Hp. exists k, (sliceFrom (sliceFrom s k) 8).
    split; [done|]. rewrite Hp in Ht. split; [exact Ht|].
    replace (0 <=? 0 + Z.of_nat k)%Z with true by (symmetry; apply Z.leb_le; lia).
    replace (Z.to_nat (0 + Z.of_nat k + Z.of_nat (String.length "/vendor/")))
      with (k + 8) by (simpl; lia).
    apply sliceFrom_add.
  - right. rewrite (lastIndexFrom_none _ _ _ _ E). simpl (0 <=? -1)%Z. cbv iota.
    destruct (HasPrefix s "vendor/") eqn:Hv.
    + left. split; [done|]. exists (sliceFrom s 7). split; [|done].
      by apply (prefix_split "vendor/").
    + right. by repeat split.
Qed.

Lemma vendor_twice (r : string) :
  HasPrefix r "vendor/" = true -> contains ("vendor/" +:+ r) "/vendor/" = true.
Proof.
  intros H. apply (prefix_split "vendor/") in H. rewrite H.
  change ("vendor/" +:+ "vendor/" +:+ sliceFrom r (String.length "vendor/"))
    with ("vendor" +:+ ("/vendor/" +:+ sliceFrom r (String.length "vendor/"))).
  apply contains_app_r, contains_prefix, prefix_app.
Qed.

Lemma contains_app_false (a b sep : string) :
  contains (a +:+ b) sep = false -> contains b sep = false.
Proof.
  intros H. destruct (contains b sep) eqn:E; [|done].
  by rewrite (contains_app_r a b sep E) in H.
Qed.

Lemma unvendor_devendorized (s : string) : devendorized (unvendor s).
Proof.
  destruct (unvendor_cases s) as [(k & r & _ & Hc & ->)|[(Hc & r & Hs & ->)|(Hc & Hp & ->)]].
  - split; [by apply (contains_app_false "vendor/")|].
    destruct (HasPrefix r "vendor/") eqn:E; [|done].
    by rewrite (vendor_twice r E) in Hc.
  - rewrite Hs in Hc. split; [by apply (contains_app_false "vendor/")|].
    destruct (HasPrefix r "vendor/") eqn:E; [|done].
    by rewrite (vendor_twice r E) in Hc.
  - done.
Qed.

Lemma unvendor_fixed (s : string) : devendorized s -> unvendor s = s.
Proof.
  intros [Hc Hp]. unfold unvendor, LastIndex.
  by rewrite (lastIndexFrom_none _ _ _ _ Hc), Hp.
Qed.

(** X1: unvendor is idempotent, and its result is in devendorized form: it
    has no vendor segment inside and does not start with one, so a second
    call has nothing to strip. *)
Theorem unvendor_idempotent (s : string) :
  devendorized (unvendor s) /\ unvendor (unvendor s) = unvendor s.
Proof.
  split; [apply unvendor_devendorized|].
  apply unvendor_fixed, unvendor_devendorized.
Qed.

Lemma vendor_once (p : string) :
  devendorized p -> contains ("vendor/" +:+ p) "/vendor/" = false.
Proof.
  intros [Hc Hp]. unfold HasPrefix in Hp.
  change ("vendor/" +:+ p)
    with (String "v" (String "e" (String "n" (String "d" (String "o"
           (String "r" (String "/" p))))))).
  rewrite !contains_cons, Hc.
  change (String.prefix "/vendor/" (String "/" p)) with (String.prefix "vendor/" p).
  by rewrite Hp.
Qed.

Lemma sliceFrom_occurrence_after (s r : string) (k d : nat) (sep : string) :
  sliceFrom s k = "/" +:+ r -> contains r sep = false ->
  String.prefix sep (sliceFrom s (k + S d)) = false.
Proof.
  intros Hk Hc. rewrite sliceFrom_add, Hk.
  change (sliceFrom ("/" +:+ r) (S d)) with (sliceFrom r d).
  by apply contains_false_sliceFrom.
Qed.

(** X2: unvendor returns what follows the last vendor segment: a path in
    devendorized form is returned as it is, and it is what unvendor returns
    for the path under any vendor directory. *)
Theorem unvendor_strips_vendor (pre p : string) :
  devendorized p ->
  unvendor p = p /\
  unvendor ("vendor/" +:+ p) = p /\
  unvendor (pre +:+ "/vendor/" +:+ p) = p.
Proof.
  intros Hp. split; [by apply unvendor_fixed|]. split.
  - unfold unvendor, LastIndex.
    rewrite (lastIndexFrom_none _ _ _ _ (vendor_once p Hp)).
    change (0 <=? -1)%Z with false. cbv iota. unfold HasPrefix.
    rewrite prefix_app. apply sliceFrom_app.
  - assert (sliceFrom (pre +:+ "/vendor/" +:+ p) (String.length pre) = "/vendor/" +:+ p)
      as Hk0 by apply sliceFrom_app.
    assert (contains (pre +:+ "/vendor/" +:+ p) "/vendor/" = true) as Hin.
    { apply contains_app_r, contains_prefix, prefix_app. }
    destruct (unvendor_cases (pre +:+ "/vendor/" +:+ p))
      as [(k & r & Hk & Hc & ->)|[(Hc & _)|(Hc & _)]]; try congruence.
    destruct (lt_eq_lt_dec k (String.length pre)) as [[Hlt| ->]|Hgt].
    + exfalso.
      pose proof (sliceFrom_occurrence_after _ ("vendor/" +:+ r) k
                    (String.length pre - S k) "/vendor/" Hk Hc) as Hno.
      replace (k + S (String.length pre - S k)) with (String.length pre) in Hno by lia.
      by rewrite Hk0, prefix_app in Hno.
    + rewrite Hk0 in Hk.
      apply (f_equal (fun x => sliceFrom x (String.length "/vendor/"))) in Hk.
      cbv beta in Hk. rewrite !sliceFrom_app in Hk. congruence.
    + exfalso.
      pose proof (sliceFrom_occurrence_after _ ("vendor/" +:+ p) (String.length pre)
                    (k - S (String.length pre)) "/vendor/" Hk0 (vendor_once p Hp)) as Hno.
      replace (String.length pre + S (k - S (String.length pre))) with k in Hno by lia.
      by rewrite Hk, prefix_app in Hno.
Qed.

Lemma unvendor_strips_vendor_witness :
  unvendor ("github.com/a/b" +:+ "/vendor/" +:+ "golang.org/x/net/context")
  = "golang.org/x/net/context".
Proof.
  apply (unvendor_strips_vendor "github.com/a/b" "golang.org/x/net/context").
  split; reflexivity.
Defined.

(** ** sortImports, aliasMap, hasDuplicateAliases and importsMap *)

Lemma sortByPath_of_sorted (l : list Import) :
  Sorted inPathOrder l -> sortByPath l = l.
Proof.
  induction l as [|x l IH]; intros Hs; [done|].
  apply Sorted_inv in Hs as [Hs Hhd]. simpl. rewrite (IH Hs).
  destruct Hhd as [|y l' Hxy]; [done|]. simpl.
  unfold inPathOrder in Hxy. by rewrite Hxy.
Qed.

(** X3: sortImports orders the entries by path, keeps every entry, keeps
    entries of equal path in their order, changes nothing else in the fake,
    and sorting again changes nothing. *)
Theorem sortImports_sorts_stably (f : Fake) :
  Sorted inPathOrder (Imports (sortImports f)) /\
  Imports (sortImports f) ≡ₚ Imports f /\
  (forall p, filter (fun i => Path i = p) (Imports (sortImports f)) =
             filter (fun i => Path i = p) (Imports f)) /\
  sameIdentity f (sortImports f) /\
  InterfaceAlias (sortImports f) = InterfaceAlias f /\
  sortImports (sortImports f) = sortImports f.
Proof.
  split; [apply sortByPath_sorted|]. split; [apply sortByPath_perm|].
  split; [intros p; apply sortByPath_stable|]. split; [by repeat split|].
  split; [done|]. unfold sortImports. simpl.
  by rewrite (sortByPath_of_sorted _ (sortByPath_sorted (Imports f))).
Qed.

(** X4: aliasMap has a key for exactly the aliases in use, and the value of
    a key is the list of the entries with that alias, in the order of the
    import list; no value is empty. *)
Theorem aliasMap_groups_by_alias (f : Fake) (a : string) :
  (aliasMap f !! a = None <-> a ∉ map Alias (Imports f)) /\
  (a ∈ map Alias (Imports f) ->
   aliasMap f !! a = Some (filter (fun i => Alias i = a) (Imports f))) /\
  (forall g, aliasMap f !! a = Some g ->
             g = filter (fun i => Alias i = a) (Imports f) /\ g <> [] /\
             forall x, x ∈ g <-> x ∈ Imports f /\ Alias x = a).
Proof.
  unfold aliasMap. rewrite aliasMapOf_lookup. fold (group a (Imports f)).
  assert (group a (Imports f) = [] <-> a ∉ map Alias (Imports f)) as Hempty.
  { split.
    - intros E Hin. apply list_elem_of_fmap in Hin as (x & -> & Hx).
      by apply (filter_nil_not_elem_of _ _ x E).
    - intros Hnot. apply filter_none. intros x Hx <-. apply Hnot.
      apply list_elem_of_fmap. by exists x. }
  destruct (decide (group a (Imports f) = [])) as [E|E].
  - split; [by split; [intros _; apply Hempty | ]|].
    split; [intros Hin; by apply Hempty in E | done].
  - split; [split; [done | intros Hnot; by apply Hempty in Hnot]|].
    split; [done|]. intros g [= <-]. split; [done|]. split; [done|].
    intros x. rewrite elem_of_group. tauto.
Qed.

Lemma aliasMap_groups_by_alias_witness :
  aliasMap clashingFake !! "v1" =
  Some (filter (fun i => Alias i = "v1") (Imports clashingFake)).
Proof.
  apply (proj1 (proj2 (aliasMap_groups_by_alias clashingFake "v1"))).
  apply (bool_decide_unpack _). vm_compute. exact I.
Defined.

(** X5: whatever the order in which the alias map is ranged over,
    hasDuplicateAliases returns true exactly when two entries of the import
    list share an alias. *)
Theorem hasDuplicateAliases_iff_shared_alias (rangeOrder : MapOrder) (f : Fake) :
  (hasDuplicateAliases rangeOrder f = false <-> NoDup (map Alias (Imports f))) /\
  (hasDuplicateAliases rangeOrder f = true <->
   exists x y l1 l2 l3, Imports f = l1 ++ x :: l2 ++ y :: l3 /\ Alias x = Alias y).
Proof.
  split; [apply hasDuplicateAliases_false|]. split.
  - intros H. destruct (decide (NoDup (map Alias (Imports f)))) as [Hnd|Hnd].
    { apply (hasDuplicateAliases_false rangeOrder) in Hnd. congruence. }
    clear H. induction (Imports f) as [|x l IH]; [exfalso; apply Hnd; constructor|].
    destruct (decide (Alias x ∈ map Alias l)) as [Hin|Hnin].
    + apply list_elem_of_fmap in Hin as (y & Hy & Hin).
      apply list_elem_of_split in Hin as (l2 & l3 & ->).
      by exists x, y, [], l2, l3.
    + destruct IH as (u & v & l1 & l2 & l3 & -> & Huv).
      { intros Hl. apply Hnd. simpl. by apply NoDup_cons. }
      by exists u, v, (x :: l1), l2, l3.
  - intros (x & y & l1 & l2 & l3 & Hl & Hxy).
    destruct (hasDuplicateAliases rangeOrder f) eqn:E; [done|].
    apply hasDuplicateAliases_false in E. rewrite Hl in E.
    rewrite map_app in E. apply NoDup_app in E as (_ & _ & E). simpl in E.
    apply NoDup_cons in E as [E _]. exfalso. apply E.
    rewrite map_app. apply elem_of_app. right. simpl. rewrite Hxy. left.
Qed.

Lemma hasDuplicateAliases_iff_shared_alias_witness :
  exists x y l1 l2 l3,
    Imports clashingFake = l1 ++ x :: l2 ++ y :: l3 /\ Alias x = Alias y.
Proof.
  apply (proj1 (proj2 (hasDuplicateAliases_iff_shared_alias reversed clashingFake))).
  vm_compute. reflexivity.
Defined.

Lemma importsMapOf_last (imports : list Import) (p : string) :
  importsMapOf imports !! p = last (filter (fun i => Path i = p) imports).
Proof.
  induction imports as [|x imports IH] using rev_ind; [done|].
  rewrite importsMapOf_snoc, filter_app. destruct (decide (Path x = p)) as [<-|Hne].
  - rewrite lookup_insert_eq, filter_cons_True, filter_nil by done.
    by rewrite last_snoc.
  - rewrite lookup_insert_ne, IH by done.
    by rewrite filter_cons_False, filter_nil, app_nil_r by done.
Qed.

Lemma NoDup_paths_inj (l : list Import) (x y : Import) :
  NoDup (map Path l) -> x ∈ l -> y ∈ l -> Path x = Path y -> x = y.
Proof.
  induction l as [|z l IH]; simpl; intros Hnd Hx Hy Hp.
  - by apply elem_of_nil in Hx.
  - apply NoDup_cons in Hnd as [Hz Hnd].
    apply elem_of_cons in Hx as [->|Hx], Hy as [->|Hy]; try done.
    + exfalso. apply Hz. rewrite Hp. apply list_elem_of_fmap. by exists y.
    + exfalso. apply Hz. rewrite <- Hp. apply list_elem_of_fmap. by exists x.
    + by apply IH.
Qed.

Lemma importsMapOf_lookup_unique (imports : list Import) (imp : Import) :
  NoDup (map Path imports) -> imp ∈ imports ->
  importsMapOf imports !! Path imp = Some imp.
Proof.
  intros Hnd Hin.
  destruct (importsMapOf imports !! Path imp) as [x|] eqn:E.
  - destruct (importsMapOf_lookup_Some _ _ _ E) as [Hx Hp].
    f_equal. by apply (NoDup_paths_inj imports).
  - apply importsMapOf_lookup_None in E. exfalso. apply E.
    apply list_elem_of_fmap. by exists imp.
Qed.

(** X6: the map that importsMap builds sends a path to the last entry of the
    import list with that path, and has no key for a path that no entry has;
    when the paths are unique every entry is found under its own path, and
    so is every entry of the disambiguated list in the map that importsMap
    returns. *)
Theorem importsMap_lookup_by_path (imports : list Import) :
  (forall p, importsMapOf imports !! p = last (filter (fun i => Path i = p) imports)) /\
  (forall p, importsMapOf imports !! p = None <-> p ∉ map Path imports) /\
  (NoDup (map Path imports) ->
   forall imp, imp ∈ imports -> importsMapOf imports !! Path imp = Some imp) /\
  (forall rangeOrder fuel f f' m,
     Imports f = imports -> NoDup (map Path imports) ->
     importsMap rangeOrder fuel f = Returned (f', m) ->
     forall imp, imp ∈ Imports f' -> m !! Path imp = Some imp).
Proof.
  split; [apply importsMapOf_last|]. split; [apply importsMapOf_lookup_None|].
  split; [intros Hnd imp Hin; by apply importsMapOf_lookup_unique|].
  intros rangeOrder fuel f f' m Hf Hnd. unfold importsMap.
  destruct (disambiguateAliases rangeOrder fuel f) as [g| |] eqn:E; simpl; try done.
  intros [= <- <-] imp Hin. apply importsMapOf_lookup_unique; [|done].
  destruct (disambiguateAliases_post _ _ _ _ E) as (_ & Hp & _).
  by rewrite Hp, (sortByPath_perm (Imports f)), Hf.
Qed.

Lemma importsMap_lookup_by_path_witness :
  importsMapOf (Imports clashingFake) !! Path syncImport = Some syncImport.
Proof.
  refine (proj1 (proj2 (proj2 (importsMap_lookup_by_path (Imports clashingFake))))
            _ syncImport _).
  - apply (bool_decide_unpack _). vm_compute. exact I.
  - left.
Defined.


(** ** disambiguateAliases: what the rounds keep *)

Lemma suffixed_extends (path : string) (imports : list Import) :
  forall (j : Z) (a : string), exists t, suffixed path imports j a = a +:+ t.
Proof.
  induction imports as [|imp rest IH]; intros j a; simpl.
  - exists EmptyString. by rewrite append_nil_r.
  - destruct (String.eqb (Path imp) path && (0 <? j)%Z).
    + destruct (IH (j + 1)%Z (a +:+ runeString (suffixByte j))) as [t ->].
      exists (runeString (suffixByte j) +:+ t). by rewrite append_assoc.
    + apply IH.
Qed.

Lemma extendsAlias_refl (x : Import) : extendsAlias x x.
Proof. split; [done|]. exists EmptyString. by rewrite append_nil_r. Qed.

Lemma extendsAlias_trans (x y z : Import) :
  extendsAlias x y -> extendsAlias y z -> extendsAlias x z.
Proof.
  intros [Hp1 [t1 H1]] [Hp2 [t2 H2]]. split; [congruence|].
  exists (t1 +:+ t2). by rewrite H2, H1, append_assoc.
Qed.

Lemma stepImports_extends (l : list Import) :
  Forall2 extendsAlias l (stepImports l).
Proof.
  unfold stepImports. generalize (aliasMapOf l). intros m.
  induction l as [|x l IH]; simpl; constructor; [|done].
  split; [done|]. unfold newAlias. simpl.
  destruct (length (default [] (m !! Alias x)) =? 1).
  - exists EmptyString. by rewrite append_nil_r.
  - apply suffixed_extends.
Qed.

Lemma Forall2_extendsAlias_trans (l1 l2 l3 : list Import) :
  Forall2 extendsAlias l1 l2 -> Forall2 extendsAlias l2 l3 ->
  Forall2 extendsAlias l1 l3.
Proof.
  intros H12. revert l3. induction H12 as [|x y l1 l2 Hxy _ IH]; intros l3 H23.
  - by inversion H23.
  - inversion H23 as [|? z ? l3' Hyz H23']; subst. constructor.
    + by eapply extendsAlias_trans.
    + by apply IH.
Qed.

Lemma disambiguateLoop_extends (rangeOrder : MapOrder) (fuel : nat) :
  forall f f', disambiguateLoop rangeOrder fuel f = Returned f' ->
               Forall2 extendsAlias (Imports f) (Imports f').
Proof.
  induction fuel as [|fuel IH]; intros f f'; simpl; [done|].
  destruct (hasDuplicateAliases rangeOrder f); simpl.
  - intros H. eapply Forall2_extendsAlias_trans; [|by apply IH].
    rewrite realias_Imports. apply stepImports_extends.
  - intros [= <-]. apply Forall_Forall2_diag, Forall_forall.
    intros x _. apply extendsAlias_refl.
Qed.

(** X8: disambiguateAliases only ever appends to an alias: position by
    position, the entries after the pass are the entries of the list sorted
    by path, each with its path and an alias that starts with its alias. *)
Theorem disambiguateAliases_only_extends (rangeOrder : MapOrder) (fuel : nat)
    (f f' : Fake) :
  disambiguateAliases rangeOrder fuel f = Returned f' ->
  Forall2 extendsAlias (sortByPath (Imports f)) (Imports f').
Proof.
  unfold disambiguateAliases.
  destruct (hasDuplicateAliases rangeOrder (sortImports f)); simpl.
  - intros H. by apply disambiguateLoop_extends in H.
  - intros [= <-]. apply Forall_Forall2_diag, Forall_forall.
    intros x _. apply extendsAlias_refl.
Qed.

Lemma disambiguateAliases_only_extends_witness :
  Forall2 extendsAlias (sortByPath (Imports clashingFake)) (Imports clashingFakeResolved).
Proof.
  apply (disambiguateAliases_only_extends inOrder 5 clashingFake clashingFakeResolved).
  vm_compute. reflexivity.
Defined.

(** X9: on a fake whose aliases are already pairwise distinct,
    disambiguateAliases returns at once, with any fuel: it sorts the import
    list by path and changes no alias, InterfaceAlias included. *)
Theorem disambiguateAliases_without_collision (rangeOrder : MapOrder) (fuel : nat)
    (f : Fake) :
  NoDup (map Alias (Imports f)) ->
  disambiguateAliases rangeOrder fuel f = Returned (sortImports f).
Proof.
  intros Hnd. unfold disambiguateAliases.
  assert (hasDuplicateAliases rangeOrder (sortImports f) = false) as ->; [|done].
  apply hasDuplicateAliases_false. simpl. by rewrite (sortByPath_perm (Imports f)).
Qed.

Lemma disambiguateAliases_without_collision_witness :
  disambiguateAliases reversed 0 seedFake = Returned (sortImports seedFake).
Proof.
  apply (disambiguateAliases_without_collision reversed 0 seedFake).
  apply (bool_decide_unpack _). vm_compute. exact I.
Defined.





Lemma suffixLoop_other_package (path ip : string) (imports : list Import) :
  path <> ip ->
  forall (j : Z) (st : string * string),
    snd (suffixLoop path ip imports j st) = snd st.
Proof.
  intros Hne. induction imports as [|imp rest IH]; intros j st; simpl; [done|].
  rewrite IH. destruct (String.eqb (Path imp) path && (0 <? j)%Z); [|done].
  simpl. by destruct (String.eqb_spec path ip).
Qed.

Lemma suffixLoop_interface_package (ip : string) (imports : list Import) :
  forall (j : Z) (st : string * string),
    fst st = snd st ->
    snd (suffixLoop ip ip imports j st) = fst (suffixLoop ip ip imports j st).
Proof.
  induction imports as [|imp rest IH]; intros j st Hst; simpl; [done|].
  apply IH. destruct (String.eqb (Path imp) ip && (0 <? j)%Z); [|done].
  simpl. by rewrite String.eqb_refl.
Qed.

Lemma aliasLoop_no_interface_package (m : gmap string (list Import)) (ip : string)
    (todo : list Import) :
  ip ∉ map Path todo ->
  forall ia, snd (aliasLoop m ip todo ia) = ia.
Proof.
  induction todo as [|imp rest IH]; intros Hnot ia; simpl; [done|].
  simpl in Hnot. apply not_elem_of_cons in Hnot as [Hne Hnot].
  rewrite (IH Hnot).
  destruct (length (default [] (m !! Alias imp)) =? 1); [done|].
  by apply suffixLoop_other_package.
Qed.

Lemma aliasLoop_in_step (m : gmap string (list Import)) (ip : string)
    (todo : list Import) :
  NoDup (map Path todo) ->
  forall ia,
    (forall x, x ∈ todo -> Path x = ip -> Alias x = ia) ->
    forall y, y ∈ fst (aliasLoop m ip todo ia) -> Path y = ip ->
              Alias y = snd (aliasLoop m ip todo ia).
Proof.
  induction todo as [|imp rest IH]; intros Hnd ia Hin y Hy Hp; simpl in *.
  - by apply elem_of_nil in Hy.
  - apply NoDup_cons in Hnd as [Himp Hnd].
    set (st := if length (default [] (m !! Alias imp)) =? 1
               then (Alias imp, ia)
               else suffixLoop (Path imp) ip (default [] (m !! Alias imp)) 0
                               (Alias imp, ia)) in *.
    destruct (decide (Path imp = ip)) as [Heq|Hne].
    + assert (snd st = fst st) as Hst.
      { assert (Alias imp = ia) as Hia by (apply Hin; [left | done]).
        subst st. destruct (length (default [] (m !! Alias imp)) =? 1);
          [by rewrite Hia|].
        rewrite Heq. by apply suffixLoop_interface_package. }
      rewrite aliasLoop_no_interface_package by (by rewrite <- Heq).
      apply elem_of_cons in Hy as [->|Hy]; [done|].
      exfalso. apply Himp. rewrite Heq, <- Hp.
      rewrite aliasLoop_fst in Hy. apply list_elem_of_fmap in Hy as (z & -> & Hz).
      simpl. apply list_elem_of_fmap. by exists z.
    + assert (snd st = ia) as Hst.
      { subst st. destruct (length (default [] (m !! Alias imp)) =? 1); [done|].
        by apply suffixLoop_other_package. }
      rewrite Hst in *. apply elem_of_cons in Hy as [->|Hy]; [done|].
      apply IH; try done. intros x Hx. apply Hin. by right.
Qed.

Lemma realias_in_step (f : Fake) :
  NoDup (map Path (Imports f)) -> interfaceAliasInStep f ->
  interfaceAliasInStep (realias f).
Proof.
  intros Hnd Hin y Hy Hp. unfold realias in *. simpl in *.
  by apply aliasLoop_in_step.
Qed.

Lemma disambiguateLoop_in_step (rangeOrder : MapOrder) (fuel : nat) :
  forall f f', NoDup (map Path (Imports f)) -> interfaceAliasInStep f ->
               disambiguateLoop rangeOrder fuel f = Returned f' ->
               interfaceAliasInStep f'.
Proof.
  induction fuel as [|fuel IH]; intros f f' Hnd Hin; simpl; [done|].
  destruct (hasDuplicateAliases rangeOrder f); simpl.
  - apply IH; [by rewrite realias_paths | by apply realias_in_step].
  - by intros [= <-].
Qed.

Lemma disambiguateAliases_in_step (rangeOrder : MapOrder)
    (fuel : nat) (f f' : Fake) :
  NoDup (map Path (Imports f)) -> interfaceAliasInStep f ->
  disambiguateAliases rangeOrder fuel f = Returned f' ->
  interfaceAliasInStep f' /\ InterfacePackage f' = InterfacePackage f.
Proof.
  intros Hnd Hin Hrun. split; [|by apply (disambiguateAliases_post _ _ _ _ Hrun)].
  revert Hrun. unfold disambiguateAliases.
  assert (interfaceAliasInStep (sortImports f)) as Hin'.
  { intros x Hx. apply Hin. simpl in Hx. by rewrite (sortByPath_perm (Imports f)) in Hx. }
  destruct (hasDuplicateAliases rangeOrder (sortImports f)); simpl.
  - apply disambiguateLoop_in_step; [|done].
    simpl. by rewrite (sortByPath_perm (Imports f)).
  - by intros [= <-].
Qed.

(** X10: disambiguateAliases keeps InterfaceAlias in step with the registry.
    If the paths are unique and, before the pass, InterfaceAlias is the
    alias of the entry for the interface's package, then it is so after the
    pass, whatever suffix that entry got. *)
Theorem disambiguateAliases_keeps_InterfaceAlias (rangeOrder : MapOrder)
    (fuel : nat) (f f' : Fake) :
  NoDup (map Path (Imports f)) -> interfaceAliasInStep f ->
  disambiguateAliases rangeOrder fuel f = Returned f' ->
  interfaceAliasInStep f' /\ InterfacePackage f' = InterfacePackage f.
Proof. apply disambiguateAliases_in_step. Qed.

Lemma interfaceAliasInStep_Forall (f : Fake) :
  Forall (fun x => Path x = InterfacePackage f -> Alias x = InterfaceAlias f)
         (Imports f) ->
  interfaceAliasInStep f.
Proof. intros H x Hx. by apply (proj1 (Forall_forall _ _) H). Qed.

Lemma disambiguateAliases_keeps_InterfaceAlias_witness :
  interfaceAliasInStep clashingFakeResolved /\
  InterfacePackage clashingFakeResolved
  = InterfacePackage (setInterfaceAlias clashingFake "v1").
Proof.
  apply (disambiguateAliases_keeps_InterfaceAlias reversed 5
           (setInterfaceAlias clashingFake "v1") clashingFakeResolved).
  - apply (bool_decide_unpack _). vm_compute. exact I.
  - apply interfaceAliasInStep_Forall, (bool_decide_unpack _). vm_compute. exact I.
  - vm_compute. reflexivity.
Defined.

(** ** NewFake, loadPackages and findPackageWithInterface *)

Lemma findInPackages_found (n : string) (todo : list packages.Package) :
  forall pkg0 p tn,
    findInPackages n todo pkg0 = (Some p, Some tn) ->
    exists before after scope,
      todo = before ++ p :: after /\
      packages.Types p = Some (Some scope) /\
      scope !! n = Some (types.IsTypeName tn) /\
      forall q, q ∈ before -> ~ declares q n.
Proof.
  induction todo as [|q todo IH]; intros pkg0 p tn; simpl; [done|].
  destruct (packages.Types q) as [[scope|]|] eqn:Et.
  - destruct (scope !! n) as [[t|]|] eqn:El.
    + intros [= <- <-]. exists [], todo, scope. repeat split; try done.
      intros q' Hq'. by apply elem_of_nil in Hq'.
    + intros H. destruct (IH _ _ _ H) as (before & after & sc & -> & Hty & Hl & Hno).
      exists (q :: before), after, sc. repeat split; try done.
      intros q' Hq'. apply elem_of_cons in Hq' as [->|Hq']; [|by apply Hno].
      intros (sc' & tn' & Hs & Hl'). congruence.
    + intros H. destruct (IH _ _ _ H) as (before & after & sc & -> & Hty & Hl & Hno).
      exists (q :: before), after, sc. repeat split; try done.
      intros q' Hq'. apply elem_of_cons in Hq' as [->|Hq']; [|by apply Hno].
      intros (sc' & tn' & Hs & Hl'). congruence.
  - intros H. destruct (IH _ _ _ H) as (before & after & sc & -> & Hty & Hl & Hno).
    exists (q :: before), after, sc. repeat split; try done.
    intros q' Hq'. apply elem_of_cons in Hq' as [->|Hq']; [|by apply Hno].
    intros (sc' & tn' & Hs & Hl'). congruence.
  - intros H. destruct (IH _ _ _ H) as (before & after & sc & -> & Hty & Hl & Hno).
    exists (q :: before), after, sc. repeat split; try done.
    intros q' Hq'. apply elem_of_cons in Hq' as [->|Hq']; [|by apply Hno].
    intros (sc' & tn' & Hs & Hl'). congruence.
Qed.

Lemma findInPackages_absent (n : string) (todo : list packages.Package) :
  (forall q, q ∈ todo -> ~ declares q n) ->
  forall pkg0, snd (findInPackages n todo pkg0) = None.
Proof.
  induction todo as [|q todo IH]; intros Hno pkg0; simpl; [done|].
  assert (forall q', q' ∈ todo -> ~ declares q' n) as Hno'
    by (intros q' Hq'; apply Hno; by right).
  destruct (packages.Types q) as [[scope|]|] eqn:Et; try by apply IH.
  destruct (scope !! n) as [[t|]|] eqn:El; try by apply IH.
  exfalso. apply (Hno q); [left|]. by exists scope, t.
Qed.

Lemma findInPackages_present (n : string) (todo : list packages.Package) :
  forall pkg0 q, q ∈ todo -> declares q n ->
                 exists p tn, findInPackages n todo pkg0 = (Some p, Some tn).
Proof.
  induction todo as [|q' todo IH]; intros pkg0 q Hq Hd.
  - by apply elem_of_nil in Hq.
  - simpl. destruct (packages.Types q') as [[scope|]|] eqn:Et.
    + destruct (scope !! n) as [[t|]|] eqn:El; [by eexists _, _| |].
      all: apply elem_of_cons in Hq as [->|Hq]; [|by eapply IH].
      all: destruct Hd as (sc & tn & Hs & Hl); congruence.
    + apply elem_of_cons in Hq as [->|Hq]; [|by eapply IH].
      destruct Hd as (sc & tn & Hs & Hl); congruence.
    + apply elem_of_cons in Hq as [->|Hq]; [|by eapply IH].
      destruct Hd as (sc & tn & Hs & Hl); congruence.
Qed.

(** X11: when NewFake returns a fake, the error is nil and the fake is built
    around the first package, in the order of the resolver, whose scope
    declares the interface name as a type name: that package and type name
    are recorded, InterfaceName is the name of the type, InterfacePackage the
    devendorized path of the package and InterfaceAlias its name. *)
Theorem NewFake_first_declaring_package
    (packagesLoad : string -> list packages.Package * option error)
    (interfaceName packagePath fakeName destinationPackage : string)
    (f : Fake) (err : option error) :
  NewFake packagesLoad interfaceName packagePath fakeName destinationPackage
    = (Some f, err) ->
  err = None /\
  exists before p after scope tn,
    packagesLoad packagePath = (before ++ p :: after, None) /\
    (forall q, q ∈ before -> ~ declares q interfaceName) /\
    packages.Types p = Some (Some scope) /\
    scope !! interfaceName = Some (types.IsTypeName tn) /\
    Packages f = before ++ p :: after /\
    Package f = Some p /\ Interface f = Some tn /\
    InterfaceName f = types.TypeNameName tn /\
    InterfacePackage f = unvendor (packages.PkgPath p) /\
    InterfaceAlias f = packages.Name p /\
    Name f = fakeName /\ DestinationPackage f = destinationPackage /\
    Methods f = [].
Proof.
  unfold NewFake, loadPackages.
  destruct (packagesLoad packagePath) as [pkgs [e|]] eqn:El; [done|].
  unfold findPackageWithInterface. simpl.
  destruct (findInPackages interfaceName pkgs None) as [[p|] [tn|]] eqn:Ef; try done.
  intros [= <- <-]. split; [done|].
  destruct (findInPackages_found _ _ _ _ _ Ef) as (before & after & scope & -> & Ht & Hl & Hno).
  by exists before, p, after, scope, tn.
Qed.

Lemma NewFake_first_declaring_package_witness :
  (None : option error) = None /\
  exists before p after scope tn,
    loadThree podInterface "example.com/app/..." = (before ++ p :: after, None) /\
    (forall q, q ∈ before -> ~ declares q "Thing") /\
    packages.Types p = Some (Some scope) /\
    scope !! "Thing" = Some (types.IsTypeName tn) /\
    Packages vendoredFake = before ++ p :: after /\
    Package vendoredFake = Some p /\ Interface vendoredFake = Some tn /\
    InterfaceName vendoredFake = types.TypeNameName tn /\
    InterfacePackage vendoredFake = unvendor (packages.PkgPath p) /\
    InterfaceAlias vendoredFake = packages.Name p /\
    Name vendoredFake = "FakeThing" /\ DestinationPackage vendoredFake = "thingfakes" /\
    Methods vendoredFake = [].
Proof.
  apply (NewFake_first_declaring_package (loadThree podInterface) "Thing"
           "example.com/app/..." "FakeThing" "thingfakes" vendoredFake None).
  vm_compute. reflexivity.
Defined.

(** X12: NewFake returns either a fake or an error, never both and never
    neither.  The error of the resolver is returned as it is; when no loaded
    package declares the interface name as a type name, the error is
    "cannot find package with interface" and the name; and when some package
    declares it, NewFake returns a fake. *)
Theorem NewFake_error_cases
    (packagesLoad : string -> list packages.Package * option error)
    (interfaceName packagePath fakeName destinationPackage : string) :
  let result :=
    NewFake packagesLoad interfaceName packagePath fakeName destinationPackage in
  (forall pkgs e, packagesLoad packagePath = (pkgs, Some e) ->
                  result = (None, Some e)) /\
  (forall pkgs, packagesLoad packagePath = (pkgs, None) ->
                (forall q, q ∈ pkgs -> ~ declares q interfaceName) ->
                result = (None, Some (cannotFind interfaceName))) /\
  (forall pkgs q, packagesLoad packagePath = (pkgs, None) ->
                  q ∈ pkgs -> declares q interfaceName ->
                  exists f, result = (Some f, None)) /\
  (fst result = None <-> snd result <> None).
Proof.
  intros result. subst result. unfold NewFake, loadPackages, findPackageWithInterface.
  split; [by intros pkgs e ->|]. split; [|split].
  - intros pkgs -> Hno. simpl.
    pose proof (findInPackages_absent interfaceName pkgs Hno None) as Hs.
    destruct (findInPackages interfaceName pkgs None) as [[p|] [tn|]]; simpl in Hs; done.
  - intros pkgs q -> Hq Hd. simpl.
    destruct (findInPackages_present interfaceName pkgs None q Hq Hd) as (p & tn & ->).
    by eexists.
  - destruct (packagesLoad packagePath) as [pkgs [e|]]; simpl; [done|].
    destruct (findInPackages interfaceName pkgs None) as [[p|] [tn|]]; simpl; split; done.
Qed.

Lemma NewFake_error_cases_witness :
  NewFake loadNone "Thing" "example.com/app/..." "FakeThing" "thingfakes"
  = (None, Some (cannotFind "Thing")).
Proof.
  refine (proj1 (proj2 (NewFake_error_cases loadNone "Thing" "example.com/app/..."
                          "FakeThing" "thingfakes"))
            [untypedPackage; otherPackage] eq_refl _).
  intros q Hq (scope & tn & Ht & Hl).
  apply elem_of_cons in Hq as [->|Hq]; [done|].
  apply elem_of_cons in Hq as [->|Hq]; [|by apply elem_of_nil in Hq].
  injection Ht as <-. by vm_compute in Hl.
Defined.

(** ** addImportsFor and the registry that Generate renders with *)

Lemma addImport_registers (alias path : string) (imports : list Import) :
  unvendor (TrimSpace path) ∈ map Path (fst (addImport alias path imports)).
Proof.
  unfold addImport.
  destruct (findPath (unvendor (TrimSpace path)) imports) as [imp|] eqn:E; simpl.
  - apply findPath_Some in E as [Hin <-]. apply list_elem_of_fmap. by exists imp.
  - rewrite map_app. apply elem_of_app. right. left.
Qed.

Lemma addImport_new_paths (alias path : string) (imports : list Import) :
  forall q, q ∈ map Path (fst (addImport alias path imports)) ->
            q ∈ map Path imports \/ q = unvendor (TrimSpace path).
Proof.
  intros q. unfold addImport.
  destruct (findPath (unvendor (TrimSpace path)) imports); simpl; [by left|].
  rewrite map_app, elem_of_app. intros [H|H]; [by left|].
  right. by apply list_elem_of_singleton in H.
Qed.

Lemma extends_registered (f f' : Fake) (q : string) :
  extends f f' -> q ∈ map Path (Imports f) -> q ∈ map Path (Imports f').
Proof.
  intros ([extra ->] & _) H. rewrite map_app. apply elem_of_app. by left.
Qed.

Lemma addImportsFor_registers (t : types.Type_) :
  forall f p, p ∈ packagePaths t ->
              unvendor (TrimSpace p) ∈ map Path (Imports (addImportsFor t f)).
Proof.
  induction t as [|name|n t IH|t IH| |t IH| | | |k IHk v IHv|d t IH|obj];
    intros f p Hp; simpl in *; try (by apply elem_of_nil in Hp); try by apply IH.
  - apply elem_of_app in Hp as [Hp|Hp]; [|by apply IHv].
    eapply extends_registered; [apply addImportsFor_extends | by apply IHk].
  - destruct obj as [o|]; [|by apply elem_of_nil in Hp].
    destruct (types.Pkg o) as [pkg|]; [|by apply elem_of_nil in Hp].
    apply list_elem_of_singleton in Hp as ->. apply addImport_registers.
Qed.

Lemma addImportsFor_new_paths (t : types.Type_) :
  forall f q, q ∈ map Path (Imports (addImportsFor t f)) ->
              q ∈ map Path (Imports f) \/
              exists p, p ∈ packagePaths t /\ q = unvendor (TrimSpace p).
Proof.
  induction t as [|name|n t IH|t IH| |t IH| | | |k IHk v IHv|d t IH|obj];
    intros f q Hq; simpl in *; try (by left); try by apply IH.
  - apply IHv in Hq as [Hq|(p & Hp & ->)].
    + apply IHk in Hq as [Hq|(p & Hp & ->)]; [by left|].
      right. exists p. split; [|done]. apply elem_of_app. by left.
    + right. exists p. split; [|done]. apply elem_of_app. by right.
  - destruct obj as [o|]; [|by left].
    destruct (types.Pkg o) as [pkg|]; [|by left].
    apply addImport_new_paths in Hq as [Hq| ->]; [by left|].
    right. exists (types.Path pkg). split; [left | done].
Qed.

Lemma addImportsFor_aliases (t : types.Type_) :
  forall f, InterfaceAlias (addImportsFor t f) = InterfaceAlias f /\
            InterfacePackage (addImportsFor t f) = InterfacePackage f /\
            Methods (addImportsFor t f) = Methods f.
Proof.
  induction t as [|name|n t IH|t IH| |t IH| | | |k IHk v IHv|d t IH|obj];
    intros f; simpl; try done; try apply IH.
  - destruct (IHv (addImportsFor k f)) as (-> & -> & ->). apply IHk.
  - destruct obj as [o|]; [|done]. by destruct (types.Pkg o).
Qed.

(** X13: addImportsFor registers the trimmed and devendorized package path
    of every named type that it reaches through pointers, slices, arrays,
    maps and channels, and registers nothing else: it keeps the entries that
    were there, in order and at the front, keeps the paths unique, and every
    path it adds comes from such a type. *)
Theorem addImportsFor_registers_reached_packages (t : types.Type_) (f : Fake) :
  (forall p, p ∈ packagePaths t ->
             unvendor (TrimSpace p) ∈ map Path (Imports (addImportsFor t f))) /\
  (exists extra, Imports (addImportsFor t f) = Imports f ++ extra) /\
  (forall q, q ∈ map Path (Imports (addImportsFor t f)) ->
             q ∈ map Path (Imports f) \/
             exists p, p ∈ packagePaths t /\ q = unvendor (TrimSpace p)) /\
  (NoDup (map Path (Imports f)) -> NoDup (map Path (Imports (addImportsFor t f)))) /\
  (packagePaths t = [] -> Imports (addImportsFor t f) = Imports f).
Proof.
  split; [intros p; apply addImportsFor_registers|].
  split; [apply addImportsFor_prefix|].
  split; [apply addImportsFor_new_paths|].
  split; [apply addImportsFor_NoDup|].
  revert f. induction t as [|name|n t IH|t IH| |t IH| | | |k IHk v IHv|d t IH|obj];
    intros f Hnone; simpl in *; try done; try by apply IH.
  - apply app_eq_nil in Hnone as [Hk Hv]. rewrite (IHv _ Hv). by apply IHk.
  - destruct obj as [o|]; [|done]. by destruct (types.Pkg o).
Qed.

Lemma addImportsFor_registers_reached_packages_witness :
  unvendor (TrimSpace "example.com/app/vendor/k8s.io/api/core/v1")
  ∈ map Path
      (Imports
         (addImportsFor
            (types.Map (types.Basic "string")
               (types.Pointer
                  (namedIn "Pod"
                     {| types.Name := "v1";
                        types.Path := "example.com/app/vendor/k8s.io/api/core/v1" |})))
            seedFake)).
Proof.
  apply (proj1 (addImportsFor_registers_reached_packages _ seedFake)).
  simpl. left.
Defined.

Lemma addImportsForVars_registers (vars : list types.Var) :
  forall f p, p ∈ varsPaths vars ->
              unvendor (TrimSpace p) ∈ map Path (Imports (addImportsForVars vars f)).
Proof.
  unfold addImportsForVars, varsPaths.
  induction vars as [|v vars IH]; intros f p Hp; simpl in *;
    [by apply elem_of_nil in Hp|].
  apply elem_of_app in Hp as [Hp|Hp]; [|by apply IH].
  eapply extends_registered; [apply addImportsForVars_extends|].
  by apply addImportsFor_registers.
Qed.

Lemma addImportsForMethods_registers (methods : list types.Selection) :
  forall f p, p ∈ methodSetPaths methods ->
              unvendor (TrimSpace p) ∈
                map Path (Imports (addImportsForMethods methods f)).
Proof.
  unfold addImportsForMethods, methodSetPaths.
  induction methods as [|m methods IH]; intros f p Hp; simpl in *;
    [by apply elem_of_nil in Hp|].
  apply elem_of_app in Hp as [Hp|Hp]; [|by apply IH].
  eapply extends_registered; [apply addImportsForMethods_extends|].
  apply elem_of_app in Hp as [Hp|Hp].
  - eapply extends_registered; [apply addImportsForVars_extends|].
    by apply addImportsForVars_registers.
  - by apply addImportsForVars_registers.
Qed.

Lemma addImportsForVars_aliases (vars : list types.Var) :
  forall f, InterfaceAlias (addImportsForVars vars f) = InterfaceAlias f /\
            InterfacePackage (addImportsForVars vars f) = InterfacePackage f /\
            Methods (addImportsForVars vars f) = Methods f.
Proof.
  unfold addImportsForVars.
  induction vars as [|v vars IH]; intros f; simpl; [done|].
  destruct (IH (addImportsFor (types.VarType v) f)) as (-> & -> & ->).
  apply addImportsFor_aliases.
Qed.

Lemma addImportsForMethods_aliases (methods : list types.Selection) :
  forall f, InterfaceAlias (addImportsForMethods methods f) = InterfaceAlias f /\
            InterfacePackage (addImportsForMethods methods f) = InterfacePackage f /\
            Methods (addImportsForMethods methods f) = Methods f.
Proof.
  unfold addImportsForMethods.
  induction methods as [|m methods IH]; intros f; simpl; [done|].
  destruct (IH (addImportsForVars (types.Params (types.Type' m))
                 (addImportsForVars (types.Results (types.Type' m)) f)))
    as (-> & -> & ->).
  destruct (addImportsForVars_aliases (types.Params (types.Type' m))
              (addImportsForVars (types.Results (types.Type' m)) f))
    as (-> & -> & ->).
  apply addImportsForVars_aliases.
Qed.

(** The second loop of Generate appends one descriptor per method, in the
    order of the method set, and changes nothing else. *)
Lemma buildMethods_appends (m : gmap string Import) (todo : list types.Selection) :
  forall f f',
    buildMethods m todo f = Returned f' ->
    exists built,
      Methods f' = Methods f ++ built /\
      Forall2 (fun sel method => buildMethod m (Name f) sel = Returned method)
              todo built /\
      Imports f' = Imports f /\ InterfaceAlias f' = InterfaceAlias f /\
      InterfacePackage f' = InterfacePackage f.
Proof.
  induction todo as [|sel todo IH]; intros f f'; simpl.
  - intros [= <-]. exists []. by rewrite app_nil_r.
  - destruct (buildMethod m (Name f) sel) as [method| |] eqn:E; simpl; try done.
    intros H. destruct (IH _ _ H) as (built & Hm & Hall & Hi & Ha & Hp).
    exists (method :: built). simpl in *.
    split; [by rewrite Hm, <- app_assoc|].
    split; [by constructor|]. done.
Qed.

Lemma buildMethod_names (m : gmap string Import) (fakeName : string)
    (sel : types.Selection) (method : Method) :
  buildMethod m fakeName sel = Returned method ->
  MethodName method = types.FuncName sel /\ FakeName method = fakeName /\
  length (Params method) = length (types.Params (types.Type' sel)) /\
  length (Returns method) = length (types.Results (types.Type' sel)).
Proof.
  unfold buildMethod.
  destruct (buildParams _ _ _ _ _) as [params| |] eqn:E; simpl; try done.
  intros [= <-]. simpl. repeat split.
  - destruct (buildParams_spec _ _ _ _ _ _ E) as (ps' & -> & Hlen & _). done.
  - rewrite buildReturns_spec. simpl. by rewrite length_imap.
Qed.

Lemma Sorted_same_paths (l l' : list Import) :
  Sorted inPathOrder l -> map Path l' = map Path l -> Sorted inPathOrder l'.
Proof.
  intros Hs. revert l'. induction Hs as [|x l Hs IH Hhd]; intros l' Hp.
  - destruct l'; [constructor | done].
  - destruct l' as [|x' l']; [done|]. simpl in Hp. injection Hp as Hx Hl.
    constructor; [by apply IH|].
    destruct Hhd as [|y l Hxy]; destruct l' as [|y' l']; try done;
      try constructor.
    simpl in Hl. injection Hl as Hy _.
    unfold inPathOrder in *. by rewrite Hx, Hy.
Qed.

Section GenerateShape.

Variable lowerFirstRune : string -> string.
Variable importsProcess : string -> string * option error.

(** The stages of a run of Generate that returns. *)
Lemma Generate_stages (o : MapOrder) (fuel : nat) (runImports : bool)
    (f f' : Fake) (out : string * option error) :
  Generate o lowerFirstRune importsProcess fuel runImports f = Returned (f', out) ->
  exists iface f1,
    Interface f = Some iface /\
    disambiguateAliases o fuel
      (addImportsForMethods (types.IntuitiveMethodSet iface) f) = Returned f1 /\
    buildMethods (importsMapOf (Imports f1)) (types.IntuitiveMethodSet iface) f1
      = Returned f' /\
    out = (if runImports then importsProcess (executeTemplate lowerFirstRune f')
           else (executeTemplate lowerFirstRune f', None)).
Proof.
  unfold Generate, importsMap. destruct (Interface f) as [iface|]; [|done].
  set (f0 := addImportsForMethods (types.IntuitiveMethodSet iface) f).
  destruct (disambiguateAliases o fuel f0) as [f1| |] eqn:E1; simpl; try done.
  destruct (buildMethods _ _ f1) as [f2| |] eqn:E2; simpl; try done.
  intros Hret. exists iface, f1.
  assert (f' = f2) as -> by (destruct runImports; congruence).
  repeat split; try done. destruct runImports; congruence.
Qed.

(** The registry after Generate: the aliases are unique, the entries are in
    path order, and the paths are those of the registry after the discovery,
    so they stay unique when they were. *)
Lemma Generate_registry (o : MapOrder) (fuel : nat) (runImports : bool)
    (f f' : Fake) (out : string * option error) :
  Generate o lowerFirstRune importsProcess fuel runImports f = Returned (f', out) ->
  NoDup (map Alias (Imports f')) /\
  Sorted inPathOrder (Imports f') /\
  (NoDup (map Path (Imports f)) -> NoDup (map Path (Imports f'))).
Proof.
  intros H. destruct (Generate_stages _ _ _ _ _ _ H) as (iface & f1 & Hi & E1 & E2 & _).
  destruct (buildMethods_appends _ _ _ _ E2) as (_ & _ & _ & -> & _).
  destruct (disambiguateAliases_post _ _ _ _ E1) as (Hnd & Hpaths & _).
  split; [done|]. split.
  - eapply Sorted_same_paths; [|exact Hpaths]. apply sortByPath_sorted.
  - intros Hnp. rewrite Hpaths, (sortByPath_perm (Imports _)).
    by apply (addImportsForMethods_extends (types.IntuitiveMethodSet iface) f).
Qed.

End GenerateShape.

(** ** NewFake followed by Generate *)

Lemma holds_cat_skipn (n : nat) (l : list string) (x : string) :
  cat (skipn n l) = x -> holds (cat l) x.
Proof.
  intros <-. rewrite <- (firstn_skipn n l) at 1. rewrite cat_app.
  exists (cat (firstn n l)), EmptyString. by rewrite append_nil_r.
Qed.

Lemma executeTemplate_assertion_line (lowerFirstRune : string -> string) (f : Fake) :
  holds (executeTemplate lowerFirstRune f) (assertionLine f).
Proof.
  unfold executeTemplate.
  match goal with
  | |- holds (cat ?l) _ =>
      let n := eval lazy in (length l - 8) in apply (holds_cat_skipn n)
  end.
  reflexivity.
Qed.

Lemma built_names (m : gmap string Import) (name : string)
    (todo : list types.Selection) (built : list Method) :
  Forall2 (fun sel method => buildMethod m name sel = Returned method) todo built ->
  map MethodName built = map types.FuncName todo /\
  Forall (fun method => FakeName method = name) built /\
  Forall2 (fun sel method =>
             length (Params method) = length (types.Params (types.Type' sel)) /\
             length (Returns method) = length (types.Results (types.Type' sel)))
          todo built.
Proof.
  induction 1 as [|sel method todo built Hb _ (IH1 & IH2 & IH3)]; [done|].
  destruct (buildMethod_names _ _ _ _ Hb) as (Hn & Hf & Hp & Hr).
  simpl. rewrite Hn, IH1. repeat split; by constructor.
Qed.

Lemma NoDup_alias_inj (l : list Import) (x y : Import) :
  NoDup (map Alias l) -> x ∈ l -> y ∈ l -> Alias x = Alias y -> x = y.
Proof.
  induction l as [|z l IH]; simpl; intros Hnd Hx Hy Hp.
  - by apply elem_of_nil in Hx.
  - apply NoDup_cons in Hnd as [Hz Hnd].
    apply elem_of_cons in Hx as [->|Hx], Hy as [->|Hy]; try done.
    + exfalso. apply Hz. rewrite Hp. apply list_elem_of_fmap. by exists y.
    + exfalso. apply Hz. rewrite <- Hp. apply list_elem_of_fmap. by exists x.
    + by apply IH.
Qed.

(** X14: in a run of Generate that returns, every package path of a named
    type in the results or parameters of the method set (with no white space
    around it and a devendorized form that is not empty) has an entry in the
    final registry; that entry's alias belongs to no other entry, and the
    renderer, with the final registry, writes every type of that package as
    alias.Name with that alias. *)
Theorem Generate_qualifies_discovered_types
    (o : MapOrder) (lowerFirstRune : string -> string)
    (importsProcess : string -> string * option error)
    (fuel : nat) (runImports : bool) (f f' : Fake) (out : string * option error)
    (iface : types.TypeName) (p : string) :
  Generate o lowerFirstRune importsProcess fuel runImports f = Returned (f', out) ->
  Interface f = Some iface ->
  p ∈ methodSetPaths (types.IntuitiveMethodSet iface) ->
  TrimSpace p = p ->
  unvendor p <> EmptyString ->
  exists imp,
    imp ∈ Imports f' /\ Path imp = unvendor p /\
    (forall other, other ∈ Imports f' -> Alias other = Alias imp -> other = imp) /\
    forall name pkgName,
      typeFor (namedIn name {| types.Name := pkgName; types.Path := p |})
              (importsMapOf (Imports f'))
      = Alias imp +:+ "." +:+ name.
Proof.
  intros Hgen Hi Hp Htrim Hne.
  destruct (Generate_stages _ _ _ _ _ _ _ _ Hgen) as (iface' & f1 & Hi' & E1 & E2 & _).
  assert (iface' = iface) as -> by congruence.
  destruct (buildMethods_appends _ _ _ _ E2) as (_ & _ & _ & Himp & _).
  destruct (disambiguateAliases_post _ _ _ _ E1) as (Hnd & Hpaths & _).
  assert (unvendor p ∈ map Path (Imports f')) as Hreg.
  { rewrite Himp, Hpaths, (sortByPath_perm (Imports _)), <- Htrim at 1.
    by apply addImportsForMethods_registers. }
  destruct (importsMapOf (Imports f') !! unvendor p) as [imp|] eqn:E.
  - destruct (importsMapOf_lookup_Some _ _ _ E) as [Hin Hpath].
    exists imp. split; [done|]. split; [done|]. split.
    + intros other Hother Ha. rewrite Himp in *.
      eapply NoDup_alias_inj; eauto.
    + intros name pkgName. simpl. rewrite E. simpl. rewrite Hpath.
      destruct (String.eqb_spec (unvendor p) EmptyString); done.
  - by apply importsMapOf_lookup_None in E.
Qed.

Lemma Generate_qualifies_discovered_types_witness :
  exists imp,
    imp ∈ Imports (fst podGenerated) /\ Path imp = unvendor "k8s.io/api/batch/v1" /\
    (forall other, other ∈ Imports (fst podGenerated) ->
                   Alias other = Alias imp -> other = imp) /\
    forall name pkgName,
      typeFor (namedIn name {| types.Name := pkgName;
                               types.Path := "k8s.io/api/batch/v1" |})
              (importsMapOf (Imports (fst podGenerated)))
      = Alias imp +:+ "." +:+ name.
Proof.
  apply (Generate_qualifies_discovered_types inOrder asciiNames noFormatter 4 false
           (thingFake podInterface) (fst podGenerated) (snd podGenerated)
           podInterface "k8s.io/api/batch/v1").
  - vm_compute. reflexivity.
  - reflexivity.
  - apply (bool_decide_unpack _). vm_compute. exact I.
  - vm_compute. reflexivity.
  - vm_compute. discriminate.
Defined.

(** X15: a run of Generate that returns appends to the methods of the fake
    one descriptor per method of the interface's method set, in the order of
    the method set: the descriptors carry the methods' names, the name of
    the fake, and as many parameters and results as the signatures; the
    methods that the fake had before the call stay in front. *)
Theorem Generate_appends_methods
    (o : MapOrder) (lowerFirstRune : string -> string)
    (importsProcess : string -> string * option error)
    (fuel : nat) (runImports : bool) (f f' : Fake) (out : string * option error) :
  Generate o lowerFirstRune importsProcess fuel runImports f = Returned (f', out) ->
  exists iface built,
    Interface f = Some iface /\
    Methods f' = Methods f ++ built /\
    map MethodName built = map types.FuncName (types.IntuitiveMethodSet iface) /\
    Forall (fun method => FakeName method = Name f) built /\
    Forall2 (fun sel method =>
               length (Params method) = length (types.Params (types.Type' sel)) /\
               length (Returns method) = length (types.Results (types.Type' sel)))
            (types.IntuitiveMethodSet iface) built /\
    Name f' = Name f.
Proof.
  intros Hgen.
  destruct (Generate_stages _ _ _ _ _ _ _ _ Hgen) as (iface & f1 & Hi & E1 & E2 & _).
  destruct (buildMethods_appends _ _ _ _ E2) as (built & Hm & Hall & _).
  destruct (buildMethods_Imports _ _ _ _ E2) as [_ Hname].
  destruct (disambiguateAliases_post _ _ _ _ E1)
    as (_ & _ & _ & _ & _ & _ & Hn1 & _ & _ & Hm1).
  destruct (addImportsForMethods_aliases (types.IntuitiveMethodSet iface) f)
    as (_ & _ & Hm0).
  destruct (addImportsForMethods_extends (types.IntuitiveMethodSet iface) f)
    as (_ & _ & _ & Hn0).
  destruct (built_names _ _ _ _ Hall) as (H1 & H2 & H3).
  exists iface, built. rewrite Hn1, Hn0 in H2.
  repeat split; try done; congruence.
Qed.

Lemma Generate_appends_methods_witness :
  exists iface built,
    Interface (thingFake podInterface) = Some iface /\
    Methods (fst podGenerated) = Methods (thingFake podInterface) ++ built /\
    map MethodName built = map types.FuncName (types.IntuitiveMethodSet iface) /\
    Forall (fun method => FakeName method = Name (thingFake podInterface)) built /\
    Forall2 (fun sel method =>
               length (Params method) = length (types.Params (types.Type' sel)) /\
               length (Returns method) = length (types.Results (types.Type' sel)))
            (types.IntuitiveMethodSet iface) built /\
    Name (fst podGenerated) = Name (thingFake podInterface).
Proof.
  apply (Generate_appends_methods inOrder asciiNames noFormatter 4 false
           (thingFake podInterface) (fst podGenerated) (snd podGenerated)).
  vm_compute. reflexivity.
Defined.

(** X16: on every fake that NewFake returns, for an interface whose
    signatures are as go/types builds them, Generate without the formatter
    returns, with a nil error, whatever the order of the range over the
    alias map, as soon as the disambiguation has more rounds than two plus
    the number of named types with a package in the method set; in the
    registry of the returned fake the aliases are unique, the paths are
    unique, and the entries are in path order. *)
Theorem NewFake_then_Generate_returns
    (packagesLoad : string -> list packages.Package * option error)
    (interfaceName packagePath fakeName destinationPackage : string)
    (lowerFirstRune : string -> string)
    (importsProcess : string -> string * option error)
    (f : Fake) (err : option error) :
  NewFake packagesLoad interfaceName packagePath fakeName destinationPackage
    = (Some f, err) ->
  (forall iface, Interface f = Some iface ->
     Forall (fun sel => wellFormedSig (types.Type' sel))
            (types.IntuitiveMethodSet iface)) ->
  exists iface f' b,
    Interface f = Some iface /\
    (forall o fuel,
       2 + length (methodSetPaths (types.IntuitiveMethodSet iface)) < fuel ->
       Generate o lowerFirstRune importsProcess fuel false f
         = Returned (f', (b, None))) /\
    NoDup (map Alias (Imports f')) /\
    NoDup (map Path (Imports f')) /\
    Sorted inPathOrder (Imports f').
Proof.
  intros Hnew Hwf.
  destruct (NewFake_shape _ _ _ _ _ _ _ Hnew) as (p & tn & Hi & _ & _ & Himp & _).
  assert (NoDup (map Path (Imports f))) as Hnd.
  { rewrite Himp. apply addImport_NoDup. apply (bool_decide_unpack _). by vm_compute. }
  assert (length (Imports f) <= 2) as Hlen.
  { rewrite Himp. apply (addImport_length _ _ [syncImport]). }
  destruct (Generate_returns lowerFirstRune importsProcess inOrder f tn Hi Hnd (Hwf _ Hi))
    as (f' & b & Hret).
  pose proof (addImportsForMethods_length (types.IntuitiveMethodSet tn) f) as Hbound.
  assert (Generate inOrder lowerFirstRune importsProcess
            (3 + length (methodSetPaths (types.IntuitiveMethodSet tn))) false f
          = Returned (f', (b, None))) as Hone by (apply Hret; lia).
  destruct (Generate_registry _ _ _ _ _ _ _ _ Hone) as (Ha & Hs & Hp).
  exists tn, f', b. split; [done|]. split; [|by auto].
  intros o fuel Hfuel. rewrite (Generate_order _ _ o inOrder). apply Hret. lia.
Qed.

Lemma NewFake_then_Generate_returns_witness :
  exists iface f' b,
    Interface (thingFake podInterface) = Some iface /\
    (forall o fuel,
       2 + length (methodSetPaths (types.IntuitiveMethodSet iface)) < fuel ->
       Generate o asciiNames noFormatter fuel false (thingFake podInterface)
         = Returned (f', (b, None))) /\
    NoDup (map Alias (Imports f')) /\
    NoDup (map Path (Imports f')) /\
    Sorted inPathOrder (Imports f').
Proof.
  apply (NewFake_then_Generate_returns (loadThing podInterface) "Thing"
           "example.com/thing" "FakeThing" "thingfakes" asciiNames noFormatter
           (thingFake podInterface) None).
  - reflexivity.
  - intros iface [= <-]. repeat constructor; intros Hv; discriminate Hv.
Defined.

(** X17: on a fake that NewFake returns for a package whose name and
    devendorized path have no white space around them (and whose name is
    sync if its path is), a run of Generate that returns leaves
    InterfaceAlias equal to the alias of the registry's entry for the
    interface's package: that entry is in the registry, the text has its
    import line, and the closing assertion of the text names the interface
    with the same alias. *)
Theorem Generate_imports_interface_package
    (packagesLoad : string -> list packages.Package * option error)
    (interfaceName packagePath fakeName destinationPackage : string)
    (o : MapOrder) (lowerFirstRune : string -> string)
    (importsProcess : string -> string * option error)
    (fuel : nat) (f f' : Fake) (err err' : option error) (b : string) :
  NewFake packagesLoad interfaceName packagePath fakeName destinationPackage
    = (Some f, err) ->
  TrimSpace (InterfaceAlias f) = InterfaceAlias f ->
  TrimSpace (InterfacePackage f) = InterfacePackage f ->
  (InterfacePackage f = "sync" -> InterfaceAlias f = "sync") ->
  Generate o lowerFirstRune importsProcess fuel false f = Returned (f', (b, err')) ->
  InterfacePackage f' = InterfacePackage f /\
  {| Alias := InterfaceAlias f'; Path := InterfacePackage f' |} ∈ Imports f' /\
  (forall x, x ∈ Imports f' -> Path x = InterfacePackage f' ->
             Alias x = InterfaceAlias f') /\
  holds b (importLine {| Alias := InterfaceAlias f'; Path := InterfacePackage f' |}) /\
  holds b (assertionLine f').
Proof.
  intros Hnew Ha Hp Hsync Hgen.
  destruct (NewFake_shape _ _ _ _ _ _ _ Hnew) as (p & tn & Hi & Hia & Hip & Himp & _).
  rewrite <- Hia, <- Hip in Himp.
  assert (unvendor (TrimSpace (InterfacePackage f)) = InterfacePackage f) as Hnorm.
  { rewrite Hp, Hip. apply unvendor_fixed, unvendor_devendorized. }
  assert (NoDup (map Path (Imports f))) as Hnd.
  { rewrite Himp. apply addImport_NoDup. apply (bool_decide_unpack _). by vm_compute. }
  assert (InterfacePackage f ∈ map Path (Imports f)) as Hreg.
  { rewrite Himp, <- Hnorm at 1. apply addImport_registers. }
  assert (interfaceAliasInStep f) as Hstep.
  { intros x Hx Hpx. rewrite Himp in Hx.
    destruct (findPath (unvendor (TrimSpace (InterfacePackage f))) [syncImport])
      as [imp|] eqn:E.
    - rewrite (addImport_found _ _ _ _ E) in Hx. simpl in Hx.
      apply list_elem_of_singleton in Hx as ->. symmetry. apply Hsync. by rewrite <- Hpx.
    - rewrite (addImport_new _ _ _ E) in Hx. simpl in Hx.
      apply elem_of_cons in Hx as [->|Hx].
      + exfalso. apply findPath_None in E. apply E. rewrite Hnorm, <- Hpx. left.
      + apply list_elem_of_singleton in Hx as ->. exact Ha. }
  destruct (Generate_stages _ _ _ _ _ _ _ _ Hgen) as (iface & f1 & _ & E1 & E2 & Hout).
  injection Hout as -> _.
  set (f0 := addImportsForMethods (types.IntuitiveMethodSet iface) f) in *.
  destruct (addImportsForMethods_aliases (types.IntuitiveMethodSet iface) f)
    as (Ha0 & Hp0 & _).
  destruct (addImportsForMethods_extends (types.IntuitiveMethodSet iface) f)
    as ([extra Hext] & Hnd0 & _).
  fold f0 in Ha0, Hp0, Hext, Hnd0. specialize (Hnd0 Hnd).
  assert (interfaceAliasInStep f0) as Hstep0.
  { intros x Hx Hpx. rewrite Ha0. rewrite Hp0 in Hpx. rewrite Hext in Hx.
    apply elem_of_app in Hx as [Hx|Hx]; [by apply Hstep|]. exfalso.
    rewrite Hext, map_app in Hnd0. apply NoDup_app in Hnd0 as (_ & Hdis & _).
    apply (Hdis _ Hreg). rewrite <- Hpx. apply list_elem_of_fmap. by exists x. }
  destruct (disambiguateAliases_in_step _ _ _ _ Hnd0 Hstep0 E1) as [Hstep1 Hp1].
  destruct (disambiguateAliases_post _ _ _ _ E1) as (_ & Hpaths & _).
  destruct (buildMethods_appends _ _ _ _ E2) as (_ & _ & _ & Hi2 & Ha2 & Hp2).
  assert (InterfacePackage f' ∈ map Path (Imports f')) as Hreg'.
  { rewrite Hi2, Hp2, Hp1, Hp0, Hpaths, (sortByPath_perm (Imports f0)), Hext, map_app.
    apply elem_of_app. by left. }
  assert (interfaceAliasInStep f') as Hstep'.
  { intros x Hx Hpx. rewrite Ha2. apply Hstep1; [by rewrite <- Hi2 | congruence]. }
  apply list_elem_of_fmap in Hreg' as (x & Hpx & Hx).
  assert (x = {| Alias := InterfaceAlias f'; Path := InterfacePackage f' |}) as Hentry.
  { destruct x as [xa xp]. simpl in Hpx. rewrite <- (Hstep' _ Hx); simpl; congruence. }
  rewrite Hentry in Hx.
  split; [congruence|]. split; [done|]. split; [exact Hstep'|].
  split; [by apply executeTemplate_import_line | apply executeTemplate_assertion_line].
Qed.

Lemma Generate_imports_interface_package_witness :
  InterfacePackage (fst podGenerated) = InterfacePackage (thingFake podInterface) /\
  {| Alias := InterfaceAlias (fst podGenerated);
     Path := InterfacePackage (fst podGenerated) |} ∈ Imports (fst podGenerated) /\
  (forall x, x ∈ Imports (fst podGenerated) ->
             Path x = InterfacePackage (fst podGenerated) ->
             Alias x = InterfaceAlias (fst podGenerated)) /\
  holds (fst (snd podGenerated))
        (importLine {| Alias := InterfaceAlias (fst podGenerated);
                       Path := InterfacePackage (fst podGenerated) |}) /\
  holds (fst (snd podGenerated)) (assertionLine (fst podGenerated)).
Proof.
  apply (Generate_imports_interface_package (loadThing podInterface) "Thing"
           "example.com/thing" "FakeThing" "thingfakes" inOrder asciiNames noFormatter
           4 (thingFake podInterface) (fst podGenerated) None None
           (fst (snd podGenerated))).
  - reflexivity.
  - vm_compute. reflexivity.
  - vm_compute. reflexivity.
  - vm_compute. discriminate.
  - vm_compute. reflexivity.
Defined.

(** ** The functions of the template, on the descriptors that Generate builds *)

Lemma contains_nil_prefix (old : string) :
  contains EmptyString old = String.prefix old EmptyString.
Proof. unfold contains. by rewrite orb_false_r. Qed.

Lemma foldl_separated {A : Type} (g : A -> string) (l : list A) :
  forall acc,
    foldl (fun result x => (result +:+ g x) +:+ ", ") acc l =
    acc +:+ match l with
            | [] => EmptyString
            | _ => Join (map g l) ", " +:+ ", "
            end.
Proof.
  induction l as [|x l IH]; intros acc; simpl; [by rewrite append_nil_r|].
  rewrite IH. destruct l as [|y l].
  - simpl. by rewrite append_nil_r, !append_assoc.
  - unfold Join. simpl. by rewrite !append_assoc.
Qed.

Lemma Returns_AsReturnSignature_shape (r : list Return) :
  Returns_AsReturnSignature r = signatureText (map ReturnType r).
Proof.
  destruct r as [|x [|y r]]; try done.
  unfold Returns_AsReturnSignature. rewrite (foldl_separated ReturnType).
  unfold signatureText. simpl map. by rewrite !append_assoc.
Qed.

Lemma Params_AsReturnSignature_shape (p : list Param) :
  Params_AsReturnSignature p = signatureText (map returnedType p).
Proof.
  destruct p as [|x [|y p]]; try done.
  unfold Params_AsReturnSignature. rewrite (foldl_separated returnedType).
  unfold signatureText. simpl map. by rewrite !append_assoc.
Qed.

(** X18: the AsReturnSignature functions print nothing for no element, the
    bare type for one element, and for two or more the types in
    parentheses with the separator after every type, also after the last
    one; for a variadic parameter the type printed is its text with every
    [...] replaced by [[]]. *)
Theorem AsReturnSignature_separator_after_every_type
    (r : list Return) (p : list Param) :
  Returns_AsReturnSignature r = signatureText (map ReturnType r) /\
  Params_AsReturnSignature p = signatureText (map returnedType p) /\
  (2 <= length r ->
   Returns_AsReturnSignature r = "(" +:+ Join (map ReturnType r) ", " +:+ ", )") /\
  (2 <= length p ->
   Params_AsReturnSignature p = "(" +:+ Join (map returnedType p) ", " +:+ ", )").
Proof.
  split; [apply Returns_AsReturnSignature_shape|].
  split; [apply Params_AsReturnSignature_shape|]. split.
  - intros Hlen. rewrite Returns_AsReturnSignature_shape.
    destruct r as [|x [|y r]]; simpl in Hlen; try lia. done.
  - intros Hlen. rewrite Params_AsReturnSignature_shape.
    destruct p as [|x [|y p]]; simpl in Hlen; try lia. done.
Qed.

Lemma AsReturnSignature_separator_after_every_type_witness :
  Returns_AsReturnSignature (Returns getMethod) = "(string, error, )".
Proof.
  apply (proj1 (proj2 (proj2 (AsReturnSignature_separator_after_every_type
                                (Returns getMethod) (Params getMethod))))).
  simpl. lia.
Defined.

Lemma replaceFrom_S (fuel : nat) (s old new : string) (n : Z) :
  replaceFrom (S fuel) s old new n =
  if (n =? 0)%Z then s
  else if String.prefix old s
       then new +:+ replaceFrom fuel (sliceFrom s (String.length old)) old new (n - 1)
       else match s with
            | EmptyString => EmptyString
            | String c rest => String c (replaceFrom fuel rest old new n)
            end.
Proof. done. Qed.

Lemma replaceFrom_absent (fuel : nat) (old new : string) :
  forall s n, contains s old = false -> replaceFrom fuel s old new n = s.
Proof.
  induction fuel as [|fuel IH]; intros s n Hc; [done|].
  rewrite replaceFrom_S.
  destruct (n =? 0)%Z; [done|].
  destruct s as [|c s].
  - rewrite contains_nil_prefix in Hc. by rewrite Hc.
  - rewrite contains_cons in Hc. apply orb_false_iff in Hc as [Hp Hc].
    rewrite Hp. by rewrite IH.
Qed.

Lemma Replace_variadic (t : string) :
  contains t "..." = false -> Replace ("..." +:+ t) "..." "[]" (-1) = "[]" +:+ t.
Proof.
  intros Hc. unfold Replace.
  rewrite replaceFrom_S.
  change (-1 =? 0)%Z with false. cbv iota.
  rewrite (prefix_app "..." t).
  rewrite (sliceFrom_app "..." t).
  by rewrite replaceFrom_absent.
Qed.

Lemma buildParam_returnedType (m : gmap string Import) (sig : types.Sig)
    (k : nat) (v : types.Var) (p : Param) :
  wellFormedSig sig ->
  (forall v, types.Variadic sig = true -> last (types.Params sig) = Some v ->
             contains (typeFor (types.VarType v) m) "..." = false) ->
  types.Params sig !! k = Some v ->
  buildParam m sig k v = Returned p ->
  returnedType p = typeFor (types.VarType v) m.
Proof.
  intros Hwf Hdots Hk. unfold buildParam.
  destruct ((Z.of_nat k =? Z.of_nat (length (types.Params sig)) - 1)%Z
            && types.Variadic sig) eqn:E.
  - apply andb_true_iff in E as [Hlast Hvar]. apply Z.eqb_eq in Hlast.
    destruct (Hwf Hvar) as (v' & elem & Hv' & Hslice).
    assert (v = v') as <-.
    { rewrite last_lookup in Hv'.
      replace (pred (length (types.Params sig))) with k in Hv' by lia. congruence. }
    specialize (Hdots v Hvar Hv'). rewrite Hslice in *.
    change (typeFor (types.Slice elem) m) with ("[]" +:+ typeFor elem m) in *.
    cbv zeta. rewrite length_append. change (String.length "[]") with 2.
    replace (2 + String.length (typeFor elem m) <? 2) with false
      by (symmetry; apply Nat.ltb_ge; lia).
    pose proof (sliceFrom_app "[]" (typeFor elem m)) as Hs.
    change (String.length "[]") with 2 in Hs. rewrite Hs.
    intros [= <-]. unfold returnedType. cbn [IsVariadic ParamType].
    apply Replace_variadic. by apply (contains_app_false "[]").
  - simpl. by intros [= <-].
Qed.

(** X19: for a method that Generate builds from a signature as go/types
    builds it, the types that AsReturnSignature prints for the parameters
    are the renderer's texts of the parameter types: the rewriting of the
    variadic parameter to [...T] is undone, provided the renderer's text of
    that parameter has no [...] inside. *)
Theorem AsReturnSignature_restores_variadic_slice
    (m : gmap string Import) (fakeName : string) (sel : types.Selection)
    (method : Method) :
  buildMethod m fakeName sel = Returned method ->
  wellFormedSig (types.Type' sel) ->
  (forall v, types.Variadic (types.Type' sel) = true ->
             last (types.Params (types.Type' sel)) = Some v ->
             contains (typeFor (types.VarType v) m) "..." = false) ->
  map returnedType (Params method)
  = map (fun v => typeFor (types.VarType v) m) (types.Params (types.Type' sel)) /\
  Params_AsReturnSignature (Params method)
  = signatureText (map (fun v => typeFor (types.VarType v) m)
                       (types.Params (types.Type' sel))).
Proof.
  intros Hb Hwf Hdots.
  assert (map returnedType (Params method)
          = map (fun v => typeFor (types.VarType v) m)
                (types.Params (types.Type' sel))) as Hmap.
  { unfold buildMethod in Hb.
    destruct (buildParams _ _ _ _ _) as [ps| |] eqn:E; simpl in Hb; try done.
    injection Hb as <-. simpl.
    destruct (buildParams_spec _ _ _ _ _ _ E) as (ps' & -> & Hlen & Hk). simpl.
    apply list_eq. intros k. rewrite !list_lookup_fmap.
    destruct (types.Params (types.Type' sel) !! k) as [v|] eqn:Ev; simpl.
    - destruct (Hk k v Ev) as (p & -> & Hp). simpl. f_equal.
      by apply (buildParam_returnedType m (types.Type' sel) k v p). 
    - apply lookup_ge_None in Ev. rewrite lookup_ge_None_2 by lia. done. }
  split; [done|]. by rewrite Params_AsReturnSignature_shape, Hmap.
Qed.

Lemma AsReturnSignature_restores_variadic_slice_witness :
  map returnedType [ {| ParamName := "arg1"; ParamType := "...string";
                        IsVariadic := true; IsSlice := false |} ]
  = ["[]string"] /\
  Params_AsReturnSignature
    [ {| ParamName := "arg1"; ParamType := "...string";
         IsVariadic := true; IsSlice := false |} ]
  = "[]string".
Proof.
  apply (AsReturnSignature_restores_variadic_slice ∅ "FakeThing" variadicSelection
           {| FakeName := "FakeThing"; MethodName := "Join";
              Params := [ {| ParamName := "arg1"; ParamType := "...string";
                             IsVariadic := true; IsSlice := false |} ];
              Args := EmptyString; Returns := []; Rets := EmptyString |}).
  - reflexivity.
  - intros _. by eexists _, _.
  - intros v _ [= <-]. reflexivity.
Defined.

Lemma holds_trans (a b c : string) : holds a b -> holds b c -> holds a c.
Proof.
  intros (p1 & q1 & ->) (p2 & q2 & ->). exists (p1 +:+ p2), (q2 +:+ q1).
  by rewrite !append_assoc.
Qed.

Lemma holds_cat_lookup (n : nat) (l : list string) (y x : string) :
  l !! n = Some y -> holds y x -> holds (cat l) x.
Proof.
  intros Hl Hy. apply list_elem_of_lookup_2 in Hl.
  apply list_elem_of_split in Hl as (l1 & l2 & ->).
  rewrite cat_app, cat_cons. destruct Hy as (pre & post & ->).
  exists (cat l1 +:+ pre), (post +:+ cat l2). by rewrite !append_assoc.
Qed.

Lemma holds_cat_slice (i k : nat) (l : list string) (x : string) :
  cat (firstn k (skipn i l)) = x -> holds (cat l) x.
Proof.
  intros <-. rewrite <- (firstn_skipn i l) at 1.
  rewrite <- (firstn_skipn k (skipn i l)) at 1. rewrite !cat_app.
  by eexists _, _.
Qed.

Lemma executeTemplate_stub_field (lowerFirstRune : string -> string) (f : Fake)
    (m : Method) :
  m ∈ Methods f -> holds (executeTemplate lowerFirstRune f) (stubField m).
Proof.
  intros Hm. unfold executeTemplate.
  eapply (holds_cat_lookup 19); [reflexivity|].
  eapply holds_trans; [by apply holds_cat_map|]. cbv beta.
  by apply (holds_cat_slice 0 6).
Qed.

Lemma executeTemplate_method_header (lowerFirstRune : string -> string) (f : Fake)
    (m : Method) :
  m ∈ Methods f ->
  holds (executeTemplate lowerFirstRune f) (methodHeader lowerFirstRune m).
Proof.
  intros Hm. unfold executeTemplate.
  eapply (holds_cat_lookup 28); [reflexivity|].
  eapply holds_trans; [by apply holds_cat_map|]. cbv beta.
  by apply (holds_cat_slice 2 10).
Qed.

(** X20: in the text that Generate returns without the formatter, every
    method of the interface's method set has its stub field in the struct
    of the fake and a method definition on the fake, printed from the
    descriptor that the builder made for it with the final registry. *)
Theorem Generate_defines_every_method
    (o : MapOrder) (lowerFirstRune : string -> string)
    (importsProcess : string -> string * option error)
    (fuel : nat) (f f' : Fake) (b : string) (err : option error)
    (iface : types.TypeName) (sel : types.Selection) :
  Generate o lowerFirstRune importsProcess fuel false f = Returned (f', (b, err)) ->
  Interface f = Some iface ->
  sel ∈ types.IntuitiveMethodSet iface ->
  exists method,
    buildMethod (importsMapOf (Imports f')) (Name f) sel = Returned method /\
    method ∈ Methods f' /\
    MethodName method = types.FuncName sel /\ FakeName method = Name f /\
    holds b (stubField method) /\
    holds b (methodHeader lowerFirstRune method).
Proof.
  intros Hgen Hi Hsel.
  destruct (Generate_stages _ _ _ _ _ _ _ _ Hgen) as (iface' & f1 & Hi' & E1 & E2 & Hout).
  assert (iface' = iface) as -> by congruence. injection Hout as -> _.
  destruct (buildMethods_appends _ _ _ _ E2) as (built & Hm & Hall & Himp & _).
  destruct (disambiguateAliases_post _ _ _ _ E1)
    as (_ & _ & _ & _ & _ & _ & Hn1 & _).
  destruct (addImportsForMethods_extends (types.IntuitiveMethodSet iface) f)
    as (_ & _ & _ & Hn0).
  apply list_elem_of_lookup in Hsel as [k Hk].
  destruct (Forall2_lookup_l _ _ _ _ _ Hall Hk) as (method & Hmethod & Hb).
  rewrite Hn1, Hn0, <- Himp in Hb.
  assert (method ∈ Methods f') as Hin.
  { rewrite Hm. apply elem_of_app. right. by apply list_elem_of_lookup_2 in Hmethod. }
  destruct (buildMethod_names _ _ _ _ Hb) as (Hname & Hfake & _).
  exists method. repeat split; try done.
  - by apply executeTemplate_stub_field.
  - by apply executeTemplate_method_header.
Qed.

Lemma Generate_defines_every_method_witness :
  exists method,
    buildMethod (importsMapOf (Imports (fst podGenerated)))
                (Name (thingFake podInterface))
                (default getSelection (head (types.IntuitiveMethodSet podInterface)))
      = Returned method /\
    method ∈ Methods (fst podGenerated) /\
    MethodName method = "Run" /\ FakeName method = Name (thingFake podInterface) /\
    holds (fst (snd podGenerated)) (stubField method) /\
    holds (fst (snd podGenerated)) (methodHeader asciiNames method).
Proof.
  apply (Generate_defines_every_method inOrder asciiNames noFormatter 4
           (thingFake podInterface) (fst podGenerated) (fst (snd podGenerated)) None
           podInterface
           (default getSelection (head (types.IntuitiveMethodSet podInterface)))).
  - vm_compute. reflexivity.
  - reflexivity.
  - left.
Defined.

Lemma unexport_lower_initial (lowerFirstRune : string -> string) (base rest : string) :
  base = "arg" \/ base = "result" ->
  unexport lowerFirstRune (base +:+ rest) = base +:+ rest.
Proof. by intros [-> | ->]. Qed.

Lemma prefixed_name (lowerFirstRune : string -> string) (pre base rest : string) :
  base = "arg" \/ base = "result" ->
  (if String.eqb pre EmptyString then unexport lowerFirstRune (base +:+ rest)
   else pre +:+ unexport lowerFirstRune (base +:+ rest))
  = pre +:+ base +:+ rest.
Proof.
  intros Hb. rewrite (unexport_lower_initial _ _ _ Hb).
  by destruct (String.eqb_spec pre EmptyString) as [->|].
Qed.

Lemma positional_lookup (base pre : string) (n k : nat) :
  positional base pre n !! k =
  if decide (k < n) then Some (pre +:+ base +:+ formatInt (Z.of_nat k + 1)) else None.
Proof.
  unfold positional. rewrite list_lookup_fmap.
  destruct (decide (k < n)) as [Hlt|Hge].
  - by rewrite lookup_seq_lt.
  - by rewrite lookup_seq_ge by lia.
Qed.

Lemma buildMethod_param_names (m : gmap string Import) (fakeName : string)
    (sel : types.Selection) (method : Method) :
  buildMethod m fakeName sel = Returned method ->
  map ParamName (Params method)
  = positional "arg" EmptyString (length (types.Params (types.Type' sel))) /\
  map ReturnName (Returns method)
  = positional "result" EmptyString (length (types.Results (types.Type' sel))).
Proof.
  unfold buildMethod.
  destruct (buildParams _ _ _ _ _) as [ps| |] eqn:E; simpl; try done.
  intros [= <-]. simpl. split.
  - destruct (buildParams_spec _ _ _ _ _ _ E) as (ps' & -> & Hlen & Hk). simpl.
    apply list_eq. intros k. rewrite list_lookup_fmap, positional_lookup.
    destruct (decide (k < length (types.Params (types.Type' sel)))) as [Hlt|Hge].
    + destruct (lookup_lt_is_Some_2 _ _ Hlt) as [v Hv].
      destruct (Hk k v Hv) as (p & -> & Hp). simpl.
      by destruct (buildParam_Returned _ _ _ _ _ Hp) as (-> & _).
    + by rewrite lookup_ge_None_2 by lia.
  - rewrite buildReturns_spec. simpl.
    apply list_eq. intros k. rewrite list_lookup_fmap, list_lookup_imap, positional_lookup.
    destruct (decide (k < length (types.Results (types.Type' sel)))) as [Hlt|Hge].
    + destruct (lookup_lt_is_Some_2 _ _ Hlt) as [v ->]. done.
    + by rewrite lookup_ge_None_2 by lia.
Qed.

Lemma map_prefixed {A : Type} (lowerFirstRune : string -> string)
    (name : A -> string) (base pre : string) (l : list A) (n : nat) :
  base = "arg" \/ base = "result" ->
  map name l = positional base EmptyString n ->
  map (fun x => if String.eqb pre EmptyString then unexport lowerFirstRune (name x)
                else pre +:+ unexport lowerFirstRune (name x)) l
  = positional base pre n.
Proof.
  intros Hb Hnames. apply list_eq. intros k.
  apply (f_equal (fun l => l !! k)) in Hnames. cbv beta in Hnames.
  rewrite list_lookup_fmap, positional_lookup in *.
  destruct (l !! k) as [x|]; simpl in *;
    destruct (decide (k < n)); try done.
  injection Hnames as ->. f_equal.
  change (EmptyString +:+ base +:+ formatInt (Z.of_nat k + 1))
    with (base +:+ formatInt (Z.of_nat k + 1)).
  by apply prefixed_name.
Qed.

(** X21: for a method that Generate builds, the WithPrefix functions print
    the positional names as they are, each after the prefix and separated
    by a comma and a space, whatever the lowering of characters outside
    ASCII does: arg1 .. argn for the parameters and result1 .. resultn for
    the results. *)
Theorem WithPrefix_prints_positional_names
    (lowerFirstRune : string -> string) (m : gmap string Import)
    (fakeName pre : string) (sel : types.Selection) (method : Method) :
  buildMethod m fakeName sel = Returned method ->
  Params_WithPrefix lowerFirstRune (Params method) pre
  = Join (positional "arg" pre (length (types.Params (types.Type' sel)))) ", " /\
  Returns_WithPrefix lowerFirstRune (Returns method) pre
  = Join (positional "result" pre (length (types.Results (types.Type' sel)))) ", ".
Proof.
  intros Hb. destruct (buildMethod_param_names _ _ _ _ Hb) as [Hp Hr].
  split.
  - rewrite <- (map_prefixed lowerFirstRune ParamName "arg" pre (Params method) _
                  (or_introl eq_refl) Hp).
    unfold Params_WithPrefix. by destruct (Params method).
  - rewrite <- (map_prefixed lowerFirstRune ReturnName "result" pre (Returns method) _
                  (or_intror eq_refl) Hr).
    unfold Returns_WithPrefix. by destruct (Returns method).
Qed.

Lemma WithPrefix_prints_positional_names_witness :
  Params_WithPrefix asciiNames (Params getMethod) "argsForCall."
  = Join (positional "arg" "argsForCall." 2) ", " /\
  Returns_WithPrefix asciiNames (Returns getMethod) "argsForCall."
  = Join (positional "result" "argsForCall." 2) ", ".
Proof.
  apply (WithPrefix_prints_positional_names asciiNames ∅ "FakeThing" "argsForCall."
           getSelection getMethod).
  vm_compute. reflexivity.
Defined.
